(** * ssktgm/app: the seating-assignment store and the baseball statistics dashboard

    A shallow embedding of [src/db.js]: the IndexedDB persistence wrapper
    ([saveState], [saveParking]) and the statistics pipeline of the React
    dashboard ([parseCSV], [parseDate], [filterData], [aggregatedBatting],
    [aggregatedPitching], [rankingData], [handleFileUpload]).

    Conventions of the embedding.
    - A JavaScript array is a [list]; an object with a fixed set of fields
      is a [Record]; a field that may be [undefined] is an [option].
    - [Array.prototype.sort] is stable (ECMAScript 2019); it is modelled by
      a stable insertion sort, which every stable sort agrees with when the
      comparator is a total preorder.
    - Asynchronous storage requests are modelled by their committed
      effect on the object store, one transaction at a time.
    - A finite Number is the rational it denotes, and arithmetic rounds
      to binary64 ([Number.to_double]); a string is its UTF-8 bytes.
    - What the language leaves to its host is a parameter: the local
      time zone offset, [Date.parse], [String.prototype.toLowerCase] and
      the reading of a numeric literal by [Number]. *)

From Stdlib Require Import String Ascii.
From Stdlib Require Import List ZArith QArith Qround Qabs Qpower Bool Lia.
From Stdlib Require Import Sorting.Sorted Sorting.Permutation.
From Stdlib Require Floats.SpecFloat.
From Stdlib Require Qcanon.
Import ListNotations.

(** ** Array.prototype.sort *)

Module StableSort.
Section Sort.
Context {A : Type}.

(** [before x y] is the comparator's verdict "x need not move behind y",
    that is [!(compareFn(x, y) > 0)]. *)
Variable before : A -> A -> bool.

Fixpoint insert (x : A) (l : list A) : list A :=
  match l with
  | [] => [x]
  | y :: l' => if before x y then x :: y :: l' else y :: insert x l'
  end.

(** Elements are inserted from the right end, so an element is placed in
    front of the later elements it compares equal to: the sort is stable. *)
Definition sort (l : list A) : list A := fold_right insert [] l.

Lemma insert_perm x l : Permutation (insert x l) (x :: l).
Proof.
  induction l as [|y l IH]; simpl; [reflexivity|].
  destruct (before x y); [reflexivity|].
  rewrite IH. apply perm_swap.
Qed.

Lemma sort_perm l : Permutation (sort l) l.
Proof.
  induction l as [|x l IH]; simpl; [constructor|].
  rewrite insert_perm. now constructor.
Qed.

Lemma sort_length l : length (sort l) = length l.
Proof. apply Permutation_length, sort_perm. Qed.

Lemma sort_In x l : In x (sort l) <-> In x l.
Proof.
  split; apply Permutation_in; [|symmetry]; apply sort_perm.
Qed.

Lemma firstn_cons_firstn n (y : A) l :
  firstn n (y :: firstn n l) = firstn n (y :: l).
Proof.
  destruct n as [|n]; [reflexivity|].
  rewrite !firstn_cons, firstn_firstn.
  now replace (Nat.min n (S n)) with n by lia.
Qed.

(** The first [n] elements after an insertion depend on the first [n]
    elements before it only. *)
Lemma firstn_insert_firstn n : forall x l,
  firstn n (insert x (firstn n l)) = firstn n (insert x l).
Proof.
  induction n as [|n IH]; intros x l; [reflexivity|].
  destruct l as [|y l]; [reflexivity|].
  rewrite firstn_cons. cbn [insert]. destruct (before x y).
  - rewrite !firstn_cons. f_equal. apply firstn_cons_firstn.
  - rewrite !firstn_cons. f_equal. apply IH.
Qed.

Hypothesis before_total : forall x y, before x y = false -> before y x = true.

Lemma insert_HdRel a x l :
  before a x = true -> HdRel (fun u v => before u v = true) a l ->
  HdRel (fun u v => before u v = true) a (insert x l).
Proof.
  intros Hax Hl. destruct l as [|y l]; simpl.
  - now constructor.
  - destruct (before x y); constructor; auto.
    now inversion Hl.
Qed.

Lemma insert_sorted x l :
  Sorted (fun u v => before u v = true) l ->
  Sorted (fun u v => before u v = true) (insert x l).
Proof.
  induction 1 as [|y l Hs IH Hd]; simpl.
  - repeat constructor.
  - destruct (before x y) eqn:E.
    + constructor; [now constructor | now constructor].
    + constructor; [exact IH|].
      apply insert_HdRel; auto.
Qed.

Lemma sort_sorted l : Sorted (fun u v => before u v = true) (sort l).
Proof.
  induction l as [|x l IH]; simpl; [constructor|].
  now apply insert_sorted.
Qed.

Hypothesis before_trans :
  forall x y z, before x y = true -> before y z = true -> before x z = true.

Lemma sort_strongly_sorted l :
  StronglySorted (fun u v => before u v = true) (sort l).
Proof.
  apply Sorted_StronglySorted; [|apply sort_sorted].
  intros x y z. apply before_trans.
Qed.

End Sort.

(** Sorting the images of a list is sorting the list by the comparator
    read through the function. *)
Lemma insert_map {A B} (before : A -> A -> bool) (f : B -> A) x l :
  insert before (f x) (map f l)
  = map f (insert (fun a b => before (f a) (f b)) x l).
Proof.
  induction l as [|y l IH]; simpl; [reflexivity|].
  destruct (before (f x) (f y)); simpl; [reflexivity|]. now rewrite IH.
Qed.

Lemma sort_map {A B} (before : A -> A -> bool) (f : B -> A) l :
  sort before (map f l) = map f (sort (fun a b => before (f a) (f b)) l).
Proof.
  induction l as [|x l IH]; simpl; [reflexivity|].
  rewrite IH. apply insert_map.
Qed.

End StableSort.

(** ** The persistence store (IndexedDB wrapper of [src/db.js])

    The object stores [savedStates] and [savedParking] are created with
    [{ keyPath: 'id', autoIncrement: true }] and an index on [timestamp].
    An object store is modelled by its committed records, in the order
    they were added (which under [store_ok] is key order), and the key
    generator.  [Date.now()] is an input of each save. *)

Module Store.
Local Open Scope Z_scope.

Section Persistence.

(** The saved application state or parking layout: opaque to the store. *)
Variable blob : Type.

(** [{ id, name, state | parking, timestamp }] *)
Record saved : Type := mkSaved
  { id : Z; name : string; state : blob; timestamp : Z }.

Record objectStore : Type := mkStore
  { records : list saved; keyGenerator : Z }.

(** [indexedDB] starts a key generator at 1. *)
Definition emptyStore : objectStore := mkStore [] 1.

(** [add(storeName, item)]: one [readwrite] transaction holding one
    [store.add(item)]; the item carries no [id], so the key generator
    supplies it. *)
Definition add (st : objectStore) (nm : string) (s : blob) (now : Z)
  : objectStore :=
  {| records := records st ++ [mkSaved (keyGenerator st) nm s now];
     keyGenerator := keyGenerator st + 1 |}.

(** [store.delete(key)] *)
Definition delete (key : Z) (st : objectStore) : objectStore :=
  {| records := filter (fun r => negb (id r =? key)) (records st);
     keyGenerator := keyGenerator st |}.

(** Order of [index.openCursor(null, 'prev')] on the [timestamp] index:
    descending index key, and for equal index keys descending primary key. *)
Definition newer (x y : saved) : bool :=
  (timestamp y <? timestamp x)
  || ((timestamp x =? timestamp y) && (id y <=? id x)).

Definition openCursor_prev (st : objectStore) : list saved :=
  StableSort.sort newer (records st).

(** The [cursorRequest.onsuccess] handler, once per record the cursor
    visits: [count++; if (count > limit) store.delete(cursor.primaryKey);
    cursor.continue()]. *)
Fixpoint trim_cursor (limit : Z) (cursor : list saved) (count : Z)
  (st : objectStore) : objectStore :=
  match cursor with
  | [] => st
  | r :: rest =>
      let count := count + 1 in
      trim_cursor limit rest count
        (if limit <? count then delete (id r) st else st)
  end.

(** The second transaction of a save: open the cursor, [let count = 0]. *)
Definition trim (limit : Z) (st : objectStore) : objectStore :=
  trim_cursor limit (openCursor_prev st) 0 st.

Definition or_default (d : Z) (limit : option Z) : Z :=
  match limit with Some l => l | None => d end.

(** [saveState(state, name, limit = 5)]: [await add(...)], then the trim. *)
Definition saveState (st : objectStore) (s : blob) (nm : string)
  (limit : option Z) (now : Z) : objectStore :=
  trim (or_default 5 limit) (add st nm s now).

(** [saveParking(parkingData, name, limit = 20)]: the same two steps on
    the [savedParking] store. *)
Definition saveParking (st : objectStore) (s : blob) (nm : string)
  (limit : option Z) (now : Z) : objectStore :=
  trim (or_default 20 limit) (add st nm s now).

(** What a save leaves committed in the database, transaction by
    transaction.  [add] runs in a transaction of its own
    ([performTransaction]); the trim runs in a second one, opened after
    [await add] has returned.  A save can stop between the two (the
    connection was closed by [clearDatabase], the page was left): the
    state committed by the first transaction then stays. *)
Inductive phase : Type :=
  | Inserted (st : objectStore)
  | Trimmed (st : objectStore).

Definition visible (p : phase) : objectStore :=
  match p with Inserted st | Trimmed st => st end.

Inductive save_step (limit : Z) (s : blob) (nm : string) (now : Z)
  : objectStore -> list phase -> Prop :=
  | save_completes st :
      save_step limit s nm now st
        [Inserted (add st nm s now); Trimmed (trim limit (add st nm s now))]
  | save_fails_before_trim st :
      save_step limit s nm now st [Inserted (add st nm s now)].

(** A call of [saveState] or [saveParking]: arguments and the clock. *)
Record saveCall : Type := mkCall
  { call_state : blob; call_name : string; call_now : Z }.

(** A sequence of completed saves through one save function ([saveState]
    or [saveParking] at some limit): each entry is the store before the
    save, the call, and the store after it. *)
Fixpoint saves (save : objectStore -> blob -> string -> Z -> objectStore)
  (st : objectStore) (calls : list saveCall)
  : list (objectStore * saveCall * objectStore) :=
  match calls with
  | [] => []
  | c :: calls' =>
      let st' := save st (call_state c) (call_name c) (call_now c) in
      (st, c, st') :: saves save st' calls'
  end.

(** Keys are unique and below the key generator. *)
Definition store_ok (st : objectStore) : Prop :=
  NoDup (map id (records st))
  /\ Forall (fun r => id r < keyGenerator st) (records st).

(** The [n] most recent records of a store, by timestamp. *)
Definition most_recent (n : Z) (st : objectStore) : list saved :=
  firstn (Z.to_nat n) (openCursor_prev st).

(** A limit that was passed explicitly is a count. *)
Definition limit_ok (limit : option Z) : Prop :=
  match limit with Some l => 0 <= l | None => True end.

(** What a completed save with limit [L] leaves: at most [L] records,
    as many as the limit allows, the first [L] of the timestamp index read
    backwards, none of them older than a record that was evicted. *)
Definition keeps_most_recent (L : Z)
  (entry : objectStore * saveCall * objectStore) : Prop :=
  let '(pre, c, post) := entry in
  let inserted := add pre (call_name c) (call_state c) (call_now c) in
  Z.of_nat (length (records post)) <= L
  /\ length (records post)
     = Nat.min (Z.to_nat L) (S (length (records pre)))
  /\ Permutation (records post) (most_recent L inserted)
  /\ (forall kept evicted,
        In kept (records post) ->
        In evicted (records inserted) -> ~ In evicted (records post) ->
        timestamp evicted <= timestamp kept).

End Persistence.

Arguments id {blob}.
Arguments name {blob}.
Arguments state {blob}.
Arguments timestamp {blob}.
Arguments records {blob}.
Arguments keyGenerator {blob}.
Arguments emptyStore {blob}.
Arguments add {blob}.
Arguments delete {blob}.
Arguments newer {blob}.
Arguments openCursor_prev {blob}.
Arguments trim_cursor {blob}.
Arguments trim {blob}.
Arguments saveState {blob}.
Arguments saveParking {blob}.
Arguments visible {blob}.
Arguments save_step {blob}.
Arguments saves {blob}.
Arguments store_ok {blob}.
Arguments most_recent {blob}.
Arguments keeps_most_recent {blob}.
Arguments mkCall {blob}.
Arguments mkSaved {blob}.
Arguments mkStore {blob}.
Arguments Inserted {blob}.
Arguments Trimmed {blob}.
Arguments call_state {blob}.
Arguments call_name {blob}.
Arguments call_now {blob}.


Section PersistenceFacts.
Context {blob : Type}.
Implicit Types (st : objectStore blob) (r : saved blob) (c : list (saved blob)).

Lemma newer_total r1 r2 : newer r1 r2 = false -> newer r2 r1 = true.
Proof.
  unfold newer. intros H.
  apply orb_false_iff in H as [H1 H2].
  apply Z.ltb_ge in H1.
  destruct (timestamp r1 =? timestamp r2) eqn:E.
  - apply Z.eqb_eq in E. simpl in H2. apply Z.leb_gt in H2.
    apply orb_true_iff. right. apply andb_true_iff. split.
    + apply Z.eqb_eq. lia.
    + apply Z.leb_le. lia.
  - apply Z.eqb_neq in E. apply orb_true_iff. left. apply Z.ltb_lt. lia.
Qed.

Lemma newer_spec r1 r2 :
  newer r1 r2 = true <->
  timestamp r2 < timestamp r1
  \/ (timestamp r1 = timestamp r2 /\ id r2 <= id r1).
Proof.
  unfold newer.
  rewrite orb_true_iff, andb_true_iff, Z.ltb_lt, Z.eqb_eq, Z.leb_le.
  reflexivity.
Qed.

Lemma newer_trans r1 r2 r3 :
  newer r1 r2 = true -> newer r2 r3 = true -> newer r1 r3 = true.
Proof. rewrite !newer_spec. lia. Qed.

Lemma newer_timestamp r1 r2 :
  newer r1 r2 = true -> timestamp r2 <= timestamp r1.
Proof. rewrite newer_spec. lia. Qed.

Lemma openCursor_prev_perm st : Permutation (openCursor_prev st) (records st).
Proof. apply StableSort.sort_perm. Qed.

Lemma openCursor_prev_sorted st :
  StronglySorted (fun x y => newer x y = true) (openCursor_prev st).
Proof.
  apply StableSort.sort_strongly_sorted.
  - apply newer_total.
  - apply newer_trans.
Qed.

(** Membership of a key among the keys of a list of records. *)
Definition has_key (c : list (saved blob)) (r : saved blob) : bool :=
  existsb (fun r' => id r =? id r') c.

Lemma has_key_In c r : has_key c r = true <-> In (id r) (map id c).
Proof.
  unfold has_key. rewrite existsb_exists, in_map_iff. split.
  - intros (r' & Hin & E). apply Z.eqb_eq in E. now exists r'.
  - intros (r' & E & Hin). exists r'. split; auto. apply Z.eqb_eq. auto.
Qed.

(** The cursor loop deletes the records it visits once [count] has
    passed [limit], and nothing else. *)
Lemma trim_cursor_records limit c : forall count st,
  records (trim_cursor limit c count st)
  = filter (fun r => negb (has_key (skipn (Z.to_nat (limit - count)) c) r))
      (records st).
Proof.
  induction c as [|r c IH]; intros count st; simpl.
  - rewrite skipn_nil. simpl.
    induction (records st) as [|x l IHl]; simpl; congruence.
  - rewrite IH. destruct (limit <? count + 1) eqn:E.
    + apply Z.ltb_lt in E.
      replace (Z.to_nat (limit - count)) with 0%nat by lia.
      replace (Z.to_nat (limit - (count + 1))) with 0%nat by lia.
      simpl. clear IH.
      induction (records st) as [|x l IHl]; simpl; [reflexivity|].
      rewrite (Z.eqb_sym (id x) (id r)).
      destruct (id r =? id x) eqn:Ex; simpl; [exact IHl|].
      f_equal; fold (has_key c x); now rewrite IHl.
    + apply Z.ltb_ge in E.
      replace (Z.to_nat (limit - count))
        with (S (Z.to_nat (limit - (count + 1)))) by lia.
      reflexivity.
Qed.

Lemma trim_cursor_keyGenerator limit c : forall count st,
  keyGenerator (trim_cursor limit c count st) = keyGenerator st.
Proof.
  induction c as [|r c IH]; intros count st; simpl; [reflexivity|].
  rewrite IH. now destruct (limit <? count + 1).
Qed.

Lemma filter_perm {A} (f : A -> bool) (l l' : list A) :
  Permutation l l' -> Permutation (filter f l) (filter f l').
Proof.
  induction 1; simpl.
  - constructor.
  - destruct (f x); [now constructor | assumption].
  - destruct (f x), (f y); try reflexivity. apply perm_swap.
  - etransitivity; eassumption.
Qed.

Lemma filter_all {A} (f : A -> bool) (l : list A) :
  (forall x, In x l -> f x = true) -> filter f l = l.
Proof.
  induction l as [|x l IH]; simpl; intros H; [reflexivity|].
  rewrite (H x (or_introl eq_refl)). f_equal. apply IH. auto.
Qed.

Lemma filter_none {A} (f : A -> bool) (l : list A) :
  (forall x, In x l -> f x = false) -> filter f l = [].
Proof.
  induction l as [|x l IH]; simpl; intros H; [reflexivity|].
  rewrite (H x (or_introl eq_refl)). apply IH. auto.
Qed.

Lemma NoDup_app_disjoint {A} (l1 l2 : list A) :
  NoDup (l1 ++ l2) -> forall a, In a l1 -> ~ In a l2.
Proof.
  induction l1 as [|x l1 IH]; simpl; intros H a Ha; [contradiction|].
  inversion H as [|? ? Hx Hl]; subst. destruct Ha as [<-|Ha].
  - intros Hin. apply Hx, in_or_app. now right.
  - now apply IH.
Qed.

(** Splitting a duplicate-free cursor: filtering out the keys of the tail
    leaves the head. *)
Lemma filter_keeps_front c1 c2 :
  NoDup (map id (c1 ++ c2)) ->
  filter (fun r => negb (has_key c2 r)) (c1 ++ c2) = c1.
Proof.
  intros Hnd.
  rewrite map_app in Hnd. pose proof (NoDup_app_disjoint _ _ Hnd) as Hdisj.
  rewrite filter_app, filter_all, filter_none.
  - apply app_nil_r.
  - intros x Hx. apply negb_false_iff, has_key_In. now apply in_map.
  - intros x Hx. apply negb_true_iff.
    destruct (has_key c2 x) eqn:E; [|reflexivity].
    apply has_key_In in E. exfalso.
    apply (Hdisj (id x)); [now apply in_map | exact E].
Qed.

Lemma filter_keeps_head n c :
  NoDup (map id c) ->
  filter (fun r => negb (has_key (skipn n c) r)) c = firstn n c.
Proof.
  intros Hnd.
  pose proof (filter_keeps_front (firstn n c) (skipn n c)) as H.
  rewrite firstn_skipn in H. now apply H.
Qed.

Lemma trim_records limit st :
  NoDup (map id (records st)) ->
  Permutation (records (trim limit st)) (most_recent limit st).
Proof.
  intros Hnd. unfold trim, most_recent.
  rewrite trim_cursor_records, Z.sub_0_r.
  rewrite (filter_perm _ _ _ (Permutation_sym (openCursor_prev_perm st))).
  rewrite filter_keeps_head; [reflexivity|].
  eapply Permutation_NoDup; [|exact Hnd].
  apply Permutation_map, Permutation_sym, openCursor_prev_perm.
Qed.

Lemma add_ok st nm s now : store_ok st -> store_ok (add st nm s now).
Proof.
  intros [Hnd Hlt]. split; simpl.
  - rewrite map_app. simpl. apply NoDup_app.
    + exact Hnd.
    + repeat constructor. intros [].
    + intros k Hk [<-|[]].
      apply in_map_iff in Hk as (r & E & Hr).
      rewrite Forall_forall in Hlt. specialize (Hlt r Hr). lia.
  - apply Forall_app. split.
    + eapply Forall_impl; [|exact Hlt]. simpl. intros. lia.
    + repeat constructor. simpl. lia.
Qed.

Lemma NoDup_map_filter {A B} (g : A -> B) (f : A -> bool) (l : list A) :
  NoDup (map g l) -> NoDup (map g (filter f l)).
Proof.
  induction l as [|x l IH]; simpl; intros H; [constructor|].
  inversion H as [|? ? Hx Hl]; subst.
  destruct (f x); simpl; [|now apply IH].
  constructor; [|now apply IH].
  intros Hin. apply Hx.
  apply in_map_iff in Hin as (y & E & Hy).
  apply filter_In in Hy as [Hy _].
  apply in_map_iff. now exists y.
Qed.

Lemma trim_ok limit st : store_ok st -> store_ok (trim limit st).
Proof.
  intros [Hnd Hlt]. unfold trim. split.
  - rewrite trim_cursor_records. now apply NoDup_map_filter.
  - rewrite trim_cursor_records, trim_cursor_keyGenerator.
    rewrite Forall_forall in *. intros r Hr.
    apply filter_In in Hr as [Hr _]. auto.
Qed.

Lemma StronglySorted_app_inv {A} (R : A -> A -> Prop) (l1 l2 : list A) :
  StronglySorted R (l1 ++ l2) ->
  forall x y, In x l1 -> In y l2 -> R x y.
Proof.
  induction l1 as [|a l1 IH]; simpl; intros H x y Hx Hy; [contradiction|].
  inversion H as [|? ? Hs Hall]; subst. destruct Hx as [<-|Hx].
  - rewrite Forall_forall in Hall. apply Hall, in_or_app. now right.
  - now apply IH.
Qed.

Lemma trim_keeps_most_recent L pre (call : saveCall blob) :
  store_ok pre -> 0 <= L ->
  keeps_most_recent L
    (pre, call,
     trim L (add pre (call_name call) (call_state call) (call_now call))).
Proof.
  intros Hok HL. unfold keeps_most_recent.
  set (ins := add pre (call_name call) (call_state call) (call_now call)).
  assert (Hins : store_ok ins) by now apply add_ok.
  pose proof (trim_records L ins (proj1 Hins)) as Hperm.
  assert (Hlen : length (records (trim L ins))
                 = Nat.min (Z.to_nat L) (S (length (records pre)))).
  { rewrite (Permutation_length Hperm). unfold most_recent.
    rewrite length_firstn, (Permutation_length (openCursor_prev_perm ins)).
    unfold ins. simpl. rewrite length_app. simpl. lia. }
  repeat split.
  - rewrite Hlen. lia.
  - exact Hlen.
  - exact Hperm.
  - intros kept evicted Hk He Hne.
    apply newer_timestamp.
    pose proof (openCursor_prev_sorted ins) as Hs.
    rewrite <- (firstn_skipn (Z.to_nat L)) in Hs.
    apply (StronglySorted_app_inv _ _ _ Hs).
    + apply (Permutation_in _ Hperm Hk).
    + apply (Permutation_in _ (Permutation_sym (openCursor_prev_perm ins))) in He.
      rewrite <- (firstn_skipn (Z.to_nat L)) in He.
      apply in_app_or in He as [He|He]; [|exact He].
      exfalso. apply Hne.
      apply (Permutation_in _ (Permutation_sym Hperm) He).
Qed.

Lemma saves_keep_most_recent L (st0 : objectStore blob) calls :
  store_ok st0 -> 0 <= L ->
  Forall (keeps_most_recent L)
    (saves (fun st s nm now => trim L (add st nm s now)) st0 calls).
Proof.
  intros Hok HL. revert st0 Hok.
  induction calls as [|call calls IH]; intros st0 Hok; simpl; constructor.
  - now apply trim_keeps_most_recent.
  - apply IH. now apply trim_ok, add_ok.
Qed.

(** **** The most recent of everything saved so far *)

Lemma newer_antisym r1 r2 :
  newer r1 r2 = true -> newer r2 r1 = true -> id r1 = id r2.
Proof. rewrite !newer_spec. lia. Qed.

(** A list of records with distinct keys has one order by [newer]. *)
Lemma sorted_by_newer_unique c1 : forall c2,
  NoDup (map id c1) -> Permutation c1 c2 ->
  StronglySorted (fun x y => newer x y = true) c1 ->
  StronglySorted (fun x y => newer x y = true) c2 ->
  c1 = c2.
Proof.
  induction c1 as [|a c1 IH]; intros c2 Hnd Hperm Hs1 Hs2.
  - symmetry. now apply Permutation_nil.
  - destruct c2 as [|b c2].
    + symmetry in Hperm. now apply Permutation_nil in Hperm.
    + inversion Hs1 as [|? ? Hs1' Hall1]; subst.
      inversion Hs2 as [|? ? Hs2' Hall2]; subst.
      inversion Hnd as [|? ? Ha Hnd']; subst.
      assert (E : a = b).
      { assert (Hin : In a (b :: c2))
          by (apply (Permutation_in _ Hperm); now left).
        destruct Hin as [->|Hin]; [reflexivity|].
        assert (Hin' : In b (a :: c1))
          by (apply (Permutation_in _ (Permutation_sym Hperm)); now left).
        destruct Hin' as [->|Hin']; [reflexivity|].
        rewrite Forall_forall in Hall1, Hall2.
        pose proof (newer_antisym a b (Hall1 b Hin') (Hall2 a Hin)) as Eid.
        exfalso. apply Ha. rewrite Eid. now apply in_map. }
      subst b. f_equal. apply IH; auto.
      now apply Permutation_cons_inv in Hperm.
Qed.

Lemma StronglySorted_firstn {A} (R : A -> A -> Prop) n : forall l : list A,
  StronglySorted R l -> StronglySorted R (firstn n l).
Proof.
  induction n as [|n IH]; intros l Hs; [constructor|].
  destruct l as [|a l]; [constructor|].
  inversion Hs as [|? ? Hs' Hall]; subst. cbn [firstn]. constructor; auto.
  rewrite Forall_forall in *. intros x Hx. apply Hall.
  rewrite <- (firstn_skipn n l). apply in_or_app. now left.
Qed.

Lemma insert_newer_sorted r c :
  StronglySorted (fun x y => newer x y = true) c ->
  StronglySorted (fun x y => newer x y = true) (StableSort.insert newer r c).
Proof.
  intros Hs. apply Sorted_StronglySorted.
  - intros x y z. apply newer_trans.
  - apply StableSort.insert_sorted; [apply newer_total|].
    now apply StronglySorted_Sorted.
Qed.

(** The index after an insertion is the index before it with the new
    record put in its place. *)
Lemma openCursor_prev_add st nm s now :
  store_ok st ->
  openCursor_prev (add st nm s now)
  = StableSort.insert newer (mkSaved (keyGenerator st) nm s now)
      (openCursor_prev st).
Proof.
  intros Hok. pose proof (add_ok st nm s now Hok) as [Hnd _].
  apply sorted_by_newer_unique.
  - eapply Permutation_NoDup; [|exact Hnd].
    apply Permutation_map, Permutation_sym, openCursor_prev_perm.
  - rewrite openCursor_prev_perm, StableSort.insert_perm, openCursor_prev_perm.
    simpl. symmetry. apply Permutation_cons_append.
  - apply openCursor_prev_sorted.
  - apply insert_newer_sorted, openCursor_prev_sorted.
Qed.

(** The saves of [calls] without any trimming: everything that was ever
    in the collection. *)
Definition insert_all (st : objectStore blob) (calls : list (saveCall blob))
  : objectStore blob :=
  fold_left
    (fun st call => add st (call_name call) (call_state call) (call_now call))
    calls st.

(** The store a sequence of saves ends in. *)
Definition after_saves
  (save : objectStore blob -> blob -> string -> Z -> objectStore blob)
  (st : objectStore blob) (calls : list (saveCall blob)) : objectStore blob :=
  fold_left
    (fun st call => save st (call_state call) (call_name call) (call_now call))
    calls st.

(** What relates the trimmed store to the untrimmed one. *)
Definition tracks (L : Z) (trimmed full : objectStore blob) : Prop :=
  keyGenerator trimmed = keyGenerator full
  /\ store_ok trimmed /\ store_ok full
  /\ Permutation (records trimmed) (most_recent L full).

Lemma trim_add_tracks L trimmed full nm s now :
  (records trimmed = records full /\ keyGenerator trimmed = keyGenerator full
   /\ store_ok full)
  \/ tracks L trimmed full ->
  tracks L (trim L (add trimmed nm s now)) (add full nm s now).
Proof.
  intros [(Hrec & Hkey & Hok) | (Hkey & Hokt & Hok & Hperm)].
  - assert (E : add trimmed nm s now = add full nm s now)
      by (unfold add; now rewrite Hrec, Hkey).
    rewrite E. pose proof (add_ok full nm s now Hok) as Hok'.
    repeat split; try apply trim_ok; try apply Hok'; auto.
    + unfold trim. now rewrite trim_cursor_keyGenerator.
    + apply trim_records, Hok'.
  - pose proof (add_ok trimmed nm s now Hokt) as Hokt'.
    pose proof (add_ok full nm s now Hok) as Hok'.
    repeat split; try apply trim_ok; try apply Hokt'; try apply Hok'; auto.
    + unfold trim. rewrite trim_cursor_keyGenerator. simpl. now rewrite Hkey.
    + rewrite (trim_records L _ (proj1 Hokt')). unfold most_recent.
      rewrite (openCursor_prev_add trimmed nm s now Hokt).
      rewrite (openCursor_prev_add full nm s now Hok).
      rewrite Hkey.
      assert (E : openCursor_prev trimmed
                  = firstn (Z.to_nat L) (openCursor_prev full)).
      { apply sorted_by_newer_unique.
        - eapply Permutation_NoDup; [|exact (proj1 Hokt)].
          apply Permutation_map, Permutation_sym, openCursor_prev_perm.
        - now rewrite openCursor_prev_perm.
        - apply openCursor_prev_sorted.
        - apply StronglySorted_firstn, openCursor_prev_sorted. }
      rewrite E, StableSort.firstn_insert_firstn. reflexivity.
Qed.

(** After one save or more, the collection holds the [L] most recent of
    all the records it ever held. *)
Lemma after_saves_most_recent L (st0 : objectStore blob) calls :
  store_ok st0 -> calls <> [] ->
  Permutation
    (records (after_saves (fun st s nm now => trim L (add st nm s now))
                st0 calls))
    (most_recent L (insert_all st0 calls)).
Proof.
  intros Hok Hne.
  assert (H : forall calls trimmed full,
             (records trimmed = records full
              /\ keyGenerator trimmed = keyGenerator full /\ store_ok full)
             \/ tracks L trimmed full ->
             calls <> [] ->
             tracks L
               (after_saves (fun st s nm now => trim L (add st nm s now))
                  trimmed calls)
               (insert_all full calls)).
  { clear. induction calls as [|call calls IH]; intros trimmed full Hinv Hne;
      [contradiction|].
    cbn [after_saves insert_all fold_left].
    pose proof (trim_add_tracks L trimmed full (call_name call)
                  (call_state call) (call_now call) Hinv) as Hstep.
    destruct calls as [|call' calls]; [exact Hstep|].
    apply IH; [now right | discriminate]. }
  apply (H calls st0 st0); auto.
Qed.

Lemma or_default_nonneg d limit : 0 <= d -> limit_ok limit -> 0 <= or_default d limit.
Proof. destruct limit; simpl; auto. Qed.

(** C1. Save-with-trim: along every sequence of completed saves into the
    saved-states collection ([saveState], default limit 5) or the
    saved-parking collection ([saveParking], default limit 20), each save
    leaves at most [L] records, and they are the [L] most recent by
    timestamp: of the records present after the insertion, and so of all
    the records that were ever in the collection. *)
Theorem save_with_trim_keeps_most_recent
  (limit : option Z) (st0 : objectStore blob) (calls : list (saveCall blob)) :
  store_ok st0 -> limit_ok limit ->
  Forall (keeps_most_recent (or_default 5 limit))
    (saves (fun st s nm now => saveState st s nm limit now) st0 calls)
  /\ Forall (keeps_most_recent (or_default 20 limit))
    (saves (fun st s nm now => saveParking st s nm limit now) st0 calls)
  /\ (calls <> [] ->
      Permutation
        (records (after_saves (fun st s nm now => saveState st s nm limit now)
                    st0 calls))
        (most_recent (or_default 5 limit) (insert_all st0 calls)))
  /\ (calls <> [] ->
      Permutation
        (records (after_saves (fun st s nm now => saveParking st s nm limit now)
                    st0 calls))
        (most_recent (or_default 20 limit) (insert_all st0 calls))).
Proof.
  intros Hok Hl. split; [|split; [|split]].
  - apply saves_keep_most_recent; [exact Hok|].
    apply or_default_nonneg; [lia | exact Hl].
  - apply saves_keep_most_recent; [exact Hok|].
    apply or_default_nonneg; [lia | exact Hl].
  - intros Hne. now apply (after_saves_most_recent (or_default 5 limit)).
  - intros Hne. now apply (after_saves_most_recent (or_default 20 limit)).
Qed.

End PersistenceFacts.

Lemma emptyStore_ok {blob} : store_ok (@emptyStore blob).
Proof. split; constructor. Qed.

(** Seven saves with the default limits, from an empty store. *)
Definition seven_calls : list (saveCall nat) :=
  map (fun n => mkCall n "snapshot"%string (1000 + Z.of_nat n))
    (seq 0 7).

Lemma save_with_trim_keeps_most_recent_witness :
  Forall (keeps_most_recent 5)
    (saves (fun st s nm now => saveState st s nm None now)
       emptyStore seven_calls)
  /\ Forall (keeps_most_recent 20)
    (saves (fun st s nm now => saveParking st s nm None now)
       emptyStore seven_calls)
  /\ (seven_calls <> [] ->
      Permutation
        (records (after_saves (fun st s nm now => saveState st s nm None now)
                    emptyStore seven_calls))
        (most_recent 5 (insert_all emptyStore seven_calls)))
  /\ (seven_calls <> [] ->
      Permutation
        (records (after_saves (fun st s nm now => saveParking st s nm None now)
                    emptyStore seven_calls))
        (most_recent 20 (insert_all emptyStore seven_calls))).
Proof.
  exact (save_with_trim_keeps_most_recent None emptyStore seven_calls
           emptyStore_ok I).
Defined.

Example saveState_seven_times :
  map id (records (after_saves (fun st s nm now => saveState st s nm None now)
                     emptyStore seven_calls))
  = [3; 4; 5; 6; 7]
  /\ map id (records (after_saves (fun st s nm now => saveParking st s nm None now)
                        emptyStore seven_calls))
  = [1; 2; 3; 4; 5; 6; 7].
Proof. split; reflexivity. Qed.


(** *** The two transactions of a save *)

(** The number of records a reader of the database finds. *)
Definition size {blob} (st : objectStore blob) : Z :=
  Z.of_nat (length (records st)).

(** A reader never finds the collection over its limit. *)
Definition within_limit {blob} (limit : Z) (p : phase blob) : Prop :=
  size (visible p) <= limit.

Lemma add_size {blob} (st : objectStore blob) nm s now :
  size (add st nm s now) = size st + 1.
Proof. unfold size. simpl. rewrite length_app. simpl. lia. Qed.

Lemma trim_size {blob} (st : objectStore blob) limit :
  store_ok st -> 0 <= limit -> size (trim limit st) <= limit.
Proof.
  intros [Hnd _] HL. unfold size.
  rewrite (Permutation_length (trim_records limit st Hnd)).
  unfold most_recent. pose proof (firstn_le_length (Z.to_nat limit) (openCursor_prev st)).
  lia.
Qed.

(** A full collection of one snapshot, limit 1. *)
Definition one_snapshot : objectStore nat :=
  mkStore [mkSaved 1 "first"%string 0%nat 1000] 2.




End Store.

(** ** JavaScript numbers

    A finite Number is modelled by the rational it denotes.  Every
    arithmetic operation of the source is the exact operation followed by
    [to_double], IEEE 754 binary64 round-to-nearest-even (53 significant
    bits, subnormal numbers down to [2^-1074]).  Counting totals are
    integers, which binary64 holds exactly below [2^53]; magnitudes of
    [2^1024] and more (JavaScript's [Infinity]) are outside the model, and
    no operation of the dashboard reaches them from such totals. *)

Module Number.
Local Open Scope Q_scope.

(** The integer nearest to [x], the even one of two. *)
Definition round_half_even (x : Q) : Z :=
  let f := Qfloor x in
  match ((x - inject_Z f) ?= (1 # 2))%Q with
  | Lt => f
  | Gt => (f + 1)%Z
  | Eq => if Z.even f then f else (f + 1)%Z
  end.

(** [floor (log2 x)] for [0 < x]. *)
Definition ilog2 (x : Q) : Z :=
  let e := (Z.log2 (Qnum x) - Z.log2 (Zpos (Qden x)))%Z in
  if Qle_bool (2 ^ e)%Q x then e else (e - 1)%Z.

(** Rounding of [0 < x]: the significand is an integer multiple of
    [2^p], [p] being 52 below the exponent of [x] and never below -1074. *)
Definition round_pos (x : Q) : Q :=
  let p := Z.max (ilog2 x - 52) (-1074) in
  inject_Z (round_half_even (x * 2 ^ (- p))) * 2 ^ p.

Definition to_double (x : Q) : Q :=
  Qred match x ?= 0 with
       | Eq => 0
       | Gt => round_pos x
       | Lt => - round_pos (- x)
       end.

(** [a + b], [a - b], [a * b] and [a / b] (for [b] other than 0). *)
Definition add (a b : Q) : Q := to_double (a + b).
Definition sub (a b : Q) : Q := to_double (a - b).
Definition mul (a b : Q) : Q := to_double (a * b).
Definition div (a b : Q) : Q := to_double (a / b).

(** An integer total as a Number. *)
Definition of_Z (n : Z) : Q := to_double (inject_Z n).

(** [a % n] for [n] other than 0: the remainder has the sign of [a];
    it is always exact. *)
Definition rem (a n : Q) : Q :=
  let q := a / n in
  let t := if Qle_bool 0 q then Qfloor q else Qceiling q in
  Qred (a - n * inject_Z t).

(** [Math.floor(a)] *)
Definition floor (a : Q) : Z := Qfloor a.

Declare Scope js_scope.
Delimit Scope js_scope with js.
Infix "+" := add : js_scope.
Infix "-" := sub : js_scope.
Infix "*" := mul : js_scope.
Infix "/" := div : js_scope.

(** [x.toFixed(f)], as the value of the decimal string it returns: for
    [|x| < 10^21] the string is [n / 10^f] written with [f] decimals,
    [n] the integer nearest to [|x| * 10^f], the larger one of two, with
    the sign of [x] in front; above that it is [ToString(x)]. *)
Definition toFixed (f : Z) (x : Q) : Q :=
  if Qle_bool (10 ^ 21) (Qabs x) then x
  else
    let n := Qfloor (Qabs x * 10 ^ f + (1 # 2)) in
    let v := inject_Z n / 10 ^ f in
    if Qle_bool 0 x then v else - v.

(** [Number(x.toFixed(f))] *)
Definition Number_toFixed (f : Z) (x : Q) : Q := to_double (toFixed f x).

(** [const safeDiv = (a, b) => b === 0 ? 0 : a / b;] *)
Definition safeDiv (a b : Q) : Q :=
  if Qeq_bool b 0 then 0 else div a b.


(** *** Agreement with the Standard Library's binary64

    [SpecFloat] is the Standard Library's specification of IEEE 754
    arithmetic; at precision 53 and maximal exponent 1024 its division is
    the one of JavaScript.  [to_double] of a quotient of integers is
    compared with it on a grid of numerators and denominators. *)

Definition SF_of_Z (n : Z) : SpecFloat.spec_float :=
  SpecFloat.binary_normalize 53 1024 n 0 false.

Definition Q_of_SF (x : SpecFloat.spec_float) : option Q :=
  match x with
  | SpecFloat.S754_zero _ => Some 0
  | SpecFloat.S754_finite s m e =>
      Some (Qred ((if s then - inject_Z (Zpos m) else inject_Z (Zpos m)) * 2 ^ e))
  | _ => None
  end.

Definition agrees_on (n d : Z) : bool :=
  match Q_of_SF (SpecFloat.SFdiv 53 1024 (SF_of_Z n) (SF_of_Z d)) with
  | Some q => Qeq_bool q (div (of_Z n) (of_Z d))
  | None => false
  end.

Example div_agrees_with_SpecFloat :
  forallb (fun nd => agrees_on (fst nd) (snd nd))
    (list_prod (map Z.of_nat (seq 0 40)) (map Z.of_nat (seq 1 60))) = true
  /\ forallb (fun nd => agrees_on (fst nd * 7919 - 50000) (snd nd * 104729 + 3))
       (list_prod (map Z.of_nat (seq 1 20)) (map Z.of_nat (seq 1 30))) = true.
Proof. split; vm_compute; reflexivity. Qed.

(** *** Facts about rounding *)

Lemma round_half_even_nonneg x : 0 <= x -> (0 <= round_half_even x)%Z.
Proof.
  intros Hx. unfold round_half_even.
  assert (Hf : (0 <= Qfloor x)%Z).
  { change 0%Z with (Qfloor 0). now apply Qfloor_resp_le. }
  destruct (x - inject_Z (Qfloor x) ?= 1 # 2); [destruct (Z.even _)| |]; lia.
Qed.

Lemma round_half_even_le_Z x (k : Z) :
  x <= inject_Z k -> (round_half_even x <= k)%Z.
Proof.
  intros Hx. unfold round_half_even.
  assert (Hf : (Qfloor x <= k)%Z).
  { rewrite <- (Qfloor_Z k). now apply Qfloor_resp_le. }
  destruct (Z.eq_dec (Qfloor x) k) as [E|E].
  - assert (Hlt : x - inject_Z (Qfloor x) < 1 # 2).
    { rewrite E.
      apply Qle_lt_trans with (y := 0); [|reflexivity].
      apply (Qplus_le_l _ _ (inject_Z k)). ring_simplify. exact Hx. }
    rewrite Qlt_alt in Hlt. rewrite Hlt. lia.
  - destruct (x - inject_Z (Qfloor x) ?= 1 # 2); [destruct (Z.even _)| |]; lia.
Qed.

Lemma ilog2_nonpos x : 0 < x -> x <= 1 -> (ilog2 x <= 0)%Z.
Proof.
  intros Hpos Hle. unfold ilog2.
  assert (He : (Z.log2 (Qnum x) - Z.log2 (Zpos (Qden x)) <= 0)%Z).
  { destruct x as [n d]. unfold Qle in Hle. cbn [Qnum Qden] in *.
    assert ((n <= Zpos d)%Z) by lia.
    pose proof (Z.log2_le_mono n (Zpos d)). lia. }
  destruct (Qle_bool _ _); lia.
Qed.

Lemma pow2_pos (e : Z) : 0 < 2 ^ e.
Proof. apply Qpower_0_lt. reflexivity. Qed.

Lemma pow2_cancel (e : Z) : 2 ^ (- e) * 2 ^ e == 1.
Proof.
  rewrite Qpower_opp, Qmult_comm. apply Qmult_inv_r.
  intros H. pose proof (pow2_pos e) as Hp. rewrite H in Hp.
  now apply Qlt_irrefl in Hp.
Qed.

Lemma round_pos_unit x : 0 < x -> x <= 1 -> 0 <= round_pos x <= 1.
Proof.
  intros Hpos Hle. unfold round_pos.
  pose proof (ilog2_nonpos x Hpos Hle) as Hlog.
  set (p := Z.max (ilog2 x - 52) (-1074)).
  assert (Hp : (p <= 0)%Z) by (unfold p; lia).
  pose proof (pow2_pos p) as Hpp. pose proof (pow2_pos (- p)) as Hpn.
  assert (Hx0 : 0 <= x * 2 ^ (- p)).
  { apply Qmult_le_0_compat; apply Qlt_le_weak; assumption. }
  assert (Hx1 : x * 2 ^ (- p) <= inject_Z (2 ^ (- p))).
  { rewrite Zpower_Qpower by lia. change (inject_Z 2) with 2.
    apply Qle_trans with (y := 1 * 2 ^ (- p)).
    - apply Qmult_le_compat_r; [exact Hle | now apply Qlt_le_weak].
    - rewrite Qmult_1_l. apply Qle_refl. }
  apply round_half_even_nonneg in Hx0.
  apply round_half_even_le_Z in Hx1.
  set (m := round_half_even (x * 2 ^ (- p))) in *.
  split.
  - apply Qmult_le_0_compat; [|now apply Qlt_le_weak].
    change 0 with (inject_Z 0). now rewrite <- Zle_Qle.
  - apply Qle_trans with (y := inject_Z (2 ^ (- p)) * 2 ^ p).
    + apply Qmult_le_compat_r; [|now apply Qlt_le_weak].
      now rewrite <- Zle_Qle.
    + rewrite Zpower_Qpower by lia. change (inject_Z 2) with 2.
      rewrite pow2_cancel. apply Qle_refl.
Qed.

(** Rounding to binary64 keeps a value of the unit interval in it. *)
Lemma to_double_unit x : 0 <= x <= 1 -> 0 <= to_double x <= 1.
Proof.
  intros [H0 H1]. unfold to_double. rewrite Qred_correct.
  destruct (x ?= 0) eqn:E.
  - split; [apply Qle_refl | discriminate].
  - rewrite <- Qlt_alt in E. exfalso.
    apply (Qlt_irrefl 0). now apply Qle_lt_trans with (y := x).
  - rewrite <- Qgt_alt in E. now apply round_pos_unit.
Qed.

Lemma pow10_pos (f : Z) : 0 < 10 ^ f.
Proof. apply Qpower_0_lt. reflexivity. Qed.

Lemma Qabs_nonneg_eq x : 0 <= x -> Qabs x = x.
Proof.
  destruct x as [n d]. unfold Qle. cbn [Qnum Qden]. intros H.
  unfold Qabs. f_equal. apply Z.abs_eq. lia.
Qed.

(** So does [toFixed]. *)
Lemma toFixed_unit f x : (0 <= f)%Z -> 0 <= x <= 1 -> 0 <= toFixed f x <= 1.
Proof.
  intros Hf [H0 H1]. unfold toFixed.
  rewrite (Qabs_nonneg_eq x H0).
  destruct (Qle_bool (10 ^ 21) x) eqn:Ebig.
  - now split.
  - assert (E0 : Qle_bool 0 x = true) by now apply Qle_bool_iff.
    rewrite E0. pose proof (pow10_pos f) as Hp.
    set (n := Qfloor (x * 10 ^ f + (1 # 2))).
    assert (Hn0 : (0 <= n)%Z).
    { change 0%Z with (Qfloor 0). apply Qfloor_resp_le.
      apply Qle_trans with (y := 0 + 0); [discriminate|].
      apply Qplus_le_compat; [|discriminate].
      apply Qmult_le_0_compat; [exact H0 | now apply Qlt_le_weak]. }
    assert (Hn1 : (n <= 10 ^ f)%Z).
    { assert (Hlt : (n < 10 ^ f + 1)%Z); [|lia].
      rewrite Zlt_Qlt.
      apply Qle_lt_trans with (y := x * 10 ^ f + (1 # 2)).
      - apply Qfloor_le.
      - rewrite inject_Z_plus, Zpower_Qpower by lia.
        change (inject_Z 10) with 10.
        rewrite (Qplus_comm (x * 10 ^ f)), (Qplus_comm (10 ^ f)).
        apply Qplus_lt_le_compat; [reflexivity|].
        apply Qle_trans with (y := 1 * 10 ^ f).
        + apply Qmult_le_compat_r; [exact H1 | now apply Qlt_le_weak].
        + rewrite Qmult_1_l. apply Qle_refl. }
    split.
    + apply Qle_shift_div_l; [exact Hp|].
      rewrite Qmult_0_l. change 0 with (inject_Z 0). now rewrite <- Zle_Qle.
    + apply Qle_shift_div_r; [exact Hp|].
      rewrite Qmult_1_l. rewrite Zle_Qle, Zpower_Qpower in Hn1 by lia.
      exact Hn1.
Qed.

Lemma Number_toFixed_unit f x :
  (0 <= f)%Z -> 0 <= x <= 1 -> 0 <= Number_toFixed f x <= 1.
Proof. intros Hf Hx. apply to_double_unit. now apply toFixed_unit. Qed.

Lemma safeDiv_by_zero a b : b == 0 -> safeDiv a b = 0.
Proof.
  intros H. unfold safeDiv.
  apply Qeq_bool_iff in H. now rewrite H.
Qed.

Lemma of_Z_0 : of_Z 0 = 0.
Proof. reflexivity. Qed.

End Number.

(** ** JavaScript strings

    A string is modelled by its UTF-8 bytes.  The separators the source
    splits on and the decimal digits are ASCII, which UTF-8 never uses
    inside the encoding of another character. *)

Module Text.
Local Open Scope string_scope.

Definition code (c : ascii) : N := N_of_ascii c.

(** Length in bytes of the white space or line terminator character a
    string starts with (0 when it starts with none): TAB, LF, VT, FF, CR,
    SP, U+00A0, U+1680, U+2000..U+200A, U+2028, U+2029, U+202F, U+205F,
    U+3000, U+FEFF. *)
Definition ws_len (s : string) : nat :=
  match s with
  | String a r =>
      let a := code a in
      if ((9 <=? a) && (a <=? 13) || (a =? 32))%N then 1%nat
      else
        match r with
        | String b r' =>
            let b := code b in
            if ((a =? 194) && (b =? 160))%N then 2%nat
            else
              match r' with
              | String c _ =>
                  let c := code c in
                  if ((a =? 225) && (b =? 154) && (c =? 128)
                      || (a =? 226) && (b =? 128)
                         && ((128 <=? c) && (c <=? 138)
                             || (c =? 168) || (c =? 169) || (c =? 175))
                      || (a =? 226) && (b =? 129) && (c =? 159)
                      || (a =? 227) && (b =? 128) && (c =? 128)
                      || (a =? 239) && (b =? 187) && (c =? 191))%N
                  then 3%nat else 0%nat
              | EmptyString => 0%nat
              end
        | EmptyString => 0%nat
        end
  | EmptyString => 0%nat
  end.

Fixpoint drop (n : nat) (s : string) : string :=
  match n, s with
  | S n', String _ s' => drop n' s'
  | _, _ => s
  end.

Fixpoint trimStart_loop (fuel : nat) (s : string) : string :=
  match fuel with
  | O => s
  | S fuel' =>
      match ws_len s with
      | O => s
      | k => trimStart_loop fuel' (drop k s)
      end
  end.

(** [s.trimStart()] *)
Definition trimStart (s : string) : string :=
  trimStart_loop (String.length s) s.

Fixpoint rev_append (s acc : string) : string :=
  match s with
  | EmptyString => acc
  | String c s' => rev_append s' (String c acc)
  end.

Definition rev (s : string) : string := rev_append s "".

(** [ws_len] of a string read backwards: the bytes of a character come
    last byte first. *)
Definition ws_len_rev (s : string) : nat :=
  match s with
  | String c (String b (String a _)) =>
      if (ws_len (String a (String b (String c ""))) =? 3)%nat then 3%nat
      else if (ws_len (String b (String c "")) =? 2)%nat then 2%nat
      else if (ws_len (String c "") =? 1)%nat then 1%nat else 0%nat
  | String c (String b EmptyString) =>
      if (ws_len (String b (String c "")) =? 2)%nat then 2%nat
      else if (ws_len (String c "") =? 1)%nat then 1%nat else 0%nat
  | String c EmptyString => if (ws_len (String c "") =? 1)%nat then 1%nat else 0%nat
  | EmptyString => 0%nat
  end.

Fixpoint trimEnd_loop (fuel : nat) (s : string) : string :=
  match fuel with
  | O => s
  | S fuel' =>
      match ws_len_rev s with
      | O => s
      | k => trimEnd_loop fuel' (drop k s)
      end
  end.

(** [s.trimEnd()] *)
Definition trimEnd (s : string) : string :=
  rev (trimEnd_loop (String.length s) (rev s)).

(** [s.trim()] *)
Definition trim (s : string) : string := trimEnd (trimStart s).

(** [s.split(sep)] for a separator that is one character out of a set:
    [split(',')], [split('\n')], [split(/[-/]/)]. *)
Fixpoint split (sep : ascii -> bool) (s : string) : list string :=
  match s with
  | EmptyString => [""]
  | String c s' =>
      if sep c then "" :: split sep s'
      else
        match split sep s' with
        | p :: ps => String c p :: ps
        | [] => [String c ""]
        end
  end.

Definition is_comma (c : ascii) : bool := (code c =? 44)%N.
Definition is_newline (c : ascii) : bool := (code c =? 10)%N.
Definition is_dash_or_slash (c : ascii) : bool :=
  ((code c =? 45) || (code c =? 47))%N.

(** [s.includes(sub)] *)
Fixpoint includes (s sub : string) : bool :=
  String.prefix sub s
  || match s with
     | EmptyString => false
     | String _ s' => includes s' sub
     end.

(** A string as a condition: [""] is falsy. *)
Definition truthy (s : string) : bool := negb (s =? "").

Definition is_digit (c : ascii) : bool := ((48 <=? code c) && (code c <=? 57))%N.

(** The value of the longest prefix of decimal digits; [None] when the
    string starts with no digit. *)
Fixpoint digits (s : string) (acc : option Z) : option Z :=
  match s with
  | String c s' =>
      if is_digit c then
        digits s'
          (Some (10 * match acc with Some n => n | None => 0 end
                 + (Z.of_N (code c) - 48))%Z)
      else acc
  | EmptyString => acc
  end.

(** [parseInt(s, 10)]; [None] is [NaN]. *)
Definition parseInt (s : string) : option Z :=
  match trimStart s with
  | String "-" s' => option_map Z.opp (digits s' None)
  | String "+" s' => digits s' None
  | s' => digits s' None
  end.

Example split_date : split is_dash_or_slash "2024-04-15" = ["2024"; "04"; "15"].
Proof. reflexivity. Qed.

Example split_empty : split is_newline "" = [""].
Proof. reflexivity. Qed.

Example parseInt_examples :
  parseInt "04" = Some 4%Z /\ parseInt " 15T10:00" = Some 15%Z
  /\ parseInt "" = None /\ parseInt "x1" = None.
Proof. repeat split. Qed.

Example trim_examples :
  trim "  a b
" = "a b" /\ trim "" = "" /\ trim "   " = "".
Proof. repeat split. Qed.

End Text.

(** ** Parsed rows

    [parseCSV] builds one object per data line, with a property per
    header.  A cell is a Number or a string.  The columns the statistics
    read as numbers are modelled for cells that hold a Number or are
    blank or missing; the columns read as text, for cells that hold a
    string or are missing. *)

Module Rows.
Local Open Scope string_scope.

Inductive cell : Type :=
  | Num (q : Q)
  | Str (s : string).

(** An object, as its properties in insertion order. *)
Definition object (V : Type) : Type := list (string * V).

Definition row : Type := object cell.

(** [o[k]] *)
Fixpoint get {V} (o : object V) (k : string) : option V :=
  match o with
  | [] => None
  | (k', v) :: o' => if k' =? k then Some v else get o' k
  end.

(** [o[k] = v] *)
Fixpoint set {V} (o : object V) (k : string) (v : V) : object V :=
  match o with
  | [] => [(k, v)]
  | (k', v') :: o' => if k' =? k then (k', v) :: o' else (k', v') :: set o' k v
  end.

(** [k in o] *)
Definition has {V} (o : object V) (k : string) : bool :=
  match get o k with Some _ => true | None => false end.

(** [row[k] || 0] for a numeric column. *)
Definition number_or_0 (r : row) (k : string) : Q :=
  match get r k with
  | Some (Num q) => q
  | _ => 0
  end.

(** [row[k]] for a text column. *)
Definition text (r : row) (k : string) : option string :=
  match get r k with
  | Some (Str s) => Some s
  | _ => None
  end.

(** [row[k] || ''] for a text column. *)
Definition text_or_empty (r : row) (k : string) : string :=
  match text r k with Some s => s | None => "" end.

End Rows.

(** ** Dates

    A [Date] object is modelled by its time value, milliseconds since the
    epoch in UTC; [None] is the invalid date (time value [NaN]). *)

Module Dates.
Local Open Scope Z_scope.

Definition Date : Type := option Z.

Definition msPerDay : Z := 86400000.

(** ECMAScript's [DayFromYear]: the day number of 1 January of [y]. *)
Definition DayFromYear (y : Z) : Z :=
  365 * (y - 1970) + (y - 1969) / 4 - (y - 1901) / 100 + (y - 1601) / 400.

Definition InLeapYear (y : Z) : bool :=
  ((y mod 4 =? 0) && negb (y mod 100 =? 0)) || (y mod 400 =? 0).

(** Days before the first of month [mn] (0 is January). *)
Definition month_start (mn : Z) (leap : bool) : Z :=
  let l := if leap then 1 else 0 in
  match mn with
  | 0 => 0
  | 1 => 31
  | 2 => 59 + l
  | 3 => 90 + l
  | 4 => 120 + l
  | 5 => 151 + l
  | 6 => 181 + l
  | 7 => 212 + l
  | 8 => 243 + l
  | 9 => 273 + l
  | 10 => 304 + l
  | _ => 334 + l
  end.

(** [MakeDay(year, month, date)]: months beyond 0..11 carry into the
    year, days beyond the month into the following months. *)
Definition MakeDay (year month date : Z) : Z :=
  let ym := year + month / 12 in
  let mn := month mod 12 in
  DayFromYear ym + month_start mn (InLeapYear ym) + date - 1.

(** [TimeClip]: a time value is within 100,000,000 days of the epoch. *)
Definition TimeClip (t : Z) : Date :=
  if Z.abs t <=? 8640000000000000 then Some t else None.

(** [d.getTime()] is [NaN] *)
Definition invalid (d : Date) : bool :=
  match d with Some _ => false | None => true end.

(** Relational comparison of two [Date] objects, through their time
    values; a comparison with [NaN] is false. *)
Definition lt (a b : Date) : bool :=
  match a, b with Some x, Some y => x <? y | _, _ => false end.

Definition ge (a b : Date) : bool :=
  match a, b with Some x, Some y => y <=? x | _, _ => false end.

(** [new Date(0)] *)
Definition epoch : Date := Some 0.

Section LocalTime.

(** The offset of local time from UTC in milliseconds (a zone without
    daylight-saving changes, such as Asia/Tokyo at 32400000). *)
Variable LocalTZA : Z.

(** [Date.parse(dateStr)]: the time value read from a string, [None]
    when it is [NaN].  What it reads from strings outside the ISO format
    is left to the implementation. *)
Variable Date_parse : string -> option Z.

(** [new Date(year, month, date)]: the time is local midnight; years
    0 to 99 stand for 1900 to 1999. *)
Definition Date_local (year month date : Z) : Date :=
  let yr := if (0 <=? year) && (year <=? 99) then 1900 + year else year in
  TimeClip (MakeDay yr month date * msPerDay - LocalTZA).

(** [d.setDate(d.getDate() + 1)]: [MakeDay] of the local year, month and
    day of month plus one is the following day; the time within the day
    is kept. *)
Definition next_day (d : Date) : Date :=
  match d with
  | Some t => TimeClip (t + msPerDay)
  | None => None
  end.

(** [new Date(dateStr)] for a string *)
Definition Date_of_string (dateStr : string) : Date :=
  match Date_parse dateStr with
  | Some t => TimeClip t
  | None => None
  end.

(** The fallback of [parseDate]. *)
Definition fallback (dateStr : string) : Date :=
  let fb := Date_of_string dateStr in
  if negb (invalid fb) then fb else epoch.

(** The three numeric parts of [dateStr.split(/[-/]/)], when there are
    exactly three parts and [parseInt] reads a number from each. *)
Definition numeric_parts (dateStr : string) : option (Z * Z * Z) :=
  match Text.split Text.is_dash_or_slash dateStr with
  | [p0; p1; p2] =>
      match Text.parseInt p0, Text.parseInt p1, Text.parseInt p2 with
      | Some year, Some month, Some day => Some (year, month, day)
      | _, _, _ => None
      end
  | _ => None
  end.

(** [parseDate(dateStr)]; [None] as argument is [undefined]. *)
Definition parseDate (dateStr : option string) : Date :=
  match dateStr with
  | None => epoch
  | Some s =>
      if negb (Text.truthy s) then epoch
      else
        match numeric_parts s with
        | Some (year, month, day) =>
            let d := Date_local year (month - 1) day in
            if negb (invalid d) then d else fallback s
        | None => fallback s
        end
  end.

End LocalTime.

(** A calendar date of the Gregorian calendar. *)
Definition days_in_month (y m : Z) : Z :=
  match m with
  | 2 => if InLeapYear y then 29 else 28
  | 4 | 6 | 9 | 11 => 30
  | _ => 31
  end.

Definition calendar_date (y m d : Z) : Prop :=
  1 <= m <= 12 /\ 1 <= d <= days_in_month y m.

(** The day number of a calendar date: days since 1 January 1970. *)
Definition day_number (y m d : Z) : Z :=
  DayFromYear y + month_start (m - 1) (InLeapYear y) + d - 1.


Section ParseDateFacts.
Variable LocalTZA : Z.
Variable Date_parse : string -> option Z.

Local Abbreviation parseDate := (parseDate LocalTZA Date_parse).
Local Abbreviation fallback := (fallback Date_parse).
Local Abbreviation Date_of_string := (Date_of_string Date_parse).

Lemma TimeClip_Some t t' : TimeClip t = Some t' -> t' = t.
Proof. unfold TimeClip. destruct (_ <=? _); congruence. Qed.

Lemma TimeClip_range t t' :
  TimeClip t = Some t' -> Z.abs t' <= 8640000000000000.
Proof.
  unfold TimeClip. destruct (Z.abs t <=? 8640000000000000) eqn:E; [|discriminate].
  intros H. injection H as <-. now apply Z.leb_le.
Qed.

Lemma TimeClip_None t : TimeClip t = None -> 8640000000000000 < Z.abs t.
Proof.
  unfold TimeClip. destruct (Z.abs t <=? 8640000000000000) eqn:E; [discriminate|].
  intros _. now apply Z.leb_gt.
Qed.

Lemma TimeClip_in_range t :
  Z.abs t <= 8640000000000000 -> TimeClip t = Some t.
Proof. intros H. unfold TimeClip. apply Z.leb_le in H. now rewrite H. Qed.

Lemma fallback_spec s :
  fallback s = match Date_of_string s with Some t => Some t | None => epoch end.
Proof. unfold Dates.fallback. now destruct (Date_of_string s). Qed.

Lemma fallback_range s t : fallback s = Some t -> Z.abs t <= 8640000000000000.
Proof.
  rewrite fallback_spec. unfold Dates.Date_of_string.
  destruct (Date_parse s) as [u|].
  - destruct (TimeClip u) eqn:E.
    + intros H. injection H as <-. now apply TimeClip_range in E.
    + intros H. injection H as <-. simpl. lia.
  - intros H. injection H as <-. simpl. lia.
Qed.

Lemma truthy_nonempty s : s <> ""%string -> Text.truthy s = true.
Proof.
  intros H. unfold Text.truthy. apply negb_true_iff.
  now apply String.eqb_neq.
Qed.

(** The two exits of [parseDate] for a string that is not empty. *)
Lemma parseDate_nonempty s :
  s <> ""%string ->
  parseDate (Some s)
  = match numeric_parts s with
    | Some (year, month, day) =>
        match Date_local LocalTZA year (month - 1) day with
        | Some t => Some t
        | None => fallback s
        end
    | None => fallback s
    end.
Proof.
  intros Hs. unfold Dates.parseDate. rewrite (truthy_nonempty s Hs).
  cbn [negb]. destruct (numeric_parts s) as [[[y m] d]|]; [|reflexivity].
  now destruct (Date_local LocalTZA y (m - 1) d).
Qed.

Lemma parseDate_empty dateStr :
  dateStr = None \/ dateStr = Some ""%string -> parseDate dateStr = epoch.
Proof. intros [->| ->]; reflexivity. Qed.

(** Every result of [parseDate] is a time value within range. *)
Lemma parseDate_range dateStr :
  exists t, parseDate dateStr = Some t /\ Z.abs t <= 8640000000000000.
Proof.
  assert (H0 : exists t, epoch = Some t /\ Z.abs t <= 8640000000000000)
    by (exists 0; split; [reflexivity | simpl; lia]).
  assert (Hfb : forall s, exists t,
               fallback s = Some t /\ Z.abs t <= 8640000000000000).
  { intros s. destruct (fallback s) as [t|] eqn:E.
    - exists t. split; [reflexivity | now apply (fallback_range s)].
    - rewrite fallback_spec in E. destruct (Date_of_string s); discriminate. }
  destruct dateStr as [s|]; [|exact H0].
  destruct (string_dec s "") as [->|Hs]; [exact H0|].
  rewrite (parseDate_nonempty s Hs).
  destruct (numeric_parts s) as [[[y m] d]|]; [|apply Hfb].
  destruct (Date_local LocalTZA y (m - 1) d) as [t|] eqn:E; [|apply Hfb].
  exists t. split; [reflexivity|]. unfold Date_local in E.
  now apply TimeClip_range in E.
Qed.

Lemma parseDate_valid dateStr : invalid (parseDate dateStr) = false.
Proof. destruct (parseDate_range dateStr) as (t & -> & _). reflexivity. Qed.

Lemma DayFromYear_bounds y :
  100 <= y <= 275000 -> -700000 <= DayFromYear y <= 99750000.
Proof. unfold DayFromYear. intros H. Z.div_mod_to_equations. lia. Qed.

Lemma month_start_bounds mn leap : 0 <= month_start mn leap <= 335.
Proof.
  unfold month_start.
  destruct leap;
    repeat match goal with
           | |- context [match ?p with _ => _ end] => destruct p
           end; lia.
Qed.

Lemma days_in_month_bounds y m : 28 <= days_in_month y m <= 31.
Proof.
  unfold days_in_month.
  destruct (InLeapYear y);
    repeat match goal with
           | |- context [match ?p with _ => _ end] => destruct p
           end; lia.
Qed.

(** A calendar date of the years 100 to 275000 is read as it stands. *)
Lemma Date_local_calendar y m d :
  Z.abs LocalTZA <= msPerDay -> 100 <= y <= 275000 -> calendar_date y m d ->
  Date_local LocalTZA y (m - 1) d
  = Some (day_number y m d * msPerDay - LocalTZA).
Proof.
  intros Htz Hy [Hm Hd]. unfold Date_local.
  replace ((0 <=? y) && (y <=? 99)) with false
    by (symmetry; apply andb_false_iff; right; apply Z.leb_gt; lia).
  assert (E : MakeDay y (m - 1) d = day_number y m d).
  { unfold MakeDay, day_number.
    rewrite (Z.div_small (m - 1) 12), (Z.mod_small (m - 1) 12) by lia.
    now rewrite Z.add_0_r. }
  rewrite E. apply TimeClip_in_range.
  pose proof (DayFromYear_bounds y Hy).
  pose proof (month_start_bounds (m - 1) (InLeapYear y)).
  pose proof (days_in_month_bounds y m).
  unfold day_number, msPerDay in *. lia.
Qed.

Lemma Date_local_midnight y m d t :
  Date_local LocalTZA y m d = Some t -> (t + LocalTZA) mod msPerDay = 0.
Proof.
  unfold Date_local. intros H. apply TimeClip_Some in H. subst t.
  replace (_ - LocalTZA + LocalTZA) with
    (MakeDay (if (0 <=? y) && (y <=? 99) then 1900 + y else y) m d
     * msPerDay) by lia.
  apply Z.mod_mul. discriminate.
Qed.

Lemma parseDate_calendar s y m d :
  s <> ""%string -> numeric_parts s = Some (y, m, d) ->
  Z.abs LocalTZA <= msPerDay -> 100 <= y <= 275000 -> calendar_date y m d ->
  parseDate (Some s) = Some (day_number y m d * msPerDay - LocalTZA).
Proof.
  intros Hs Hparts Htz Hy Hcal.
  rewrite (parseDate_nonempty s Hs), Hparts.
  now rewrite (Date_local_calendar y m d Htz Hy Hcal).
Qed.

(** C7, amended. The Date Normalizer is a total function that always
    returns a valid date: the epoch for an empty or undefined input; for
    an input of exactly three numeric parts of which the [Date]
    constructor makes a valid date, that date, which is a local midnight
    (the constructor carries months and days out of range over and reads
    the years 0 to 99 as 1900 to 1999; a calendar date of the years 100
    to 275000 is returned as it stands); in every other case the result
    of the generic parse when that is a valid date, and the epoch
    otherwise. *)
Theorem parseDate_total_with_sentinel (dateStr : option string) :
  invalid (parseDate dateStr) = false
  /\ (dateStr = None \/ dateStr = Some ""%string -> parseDate dateStr = epoch)
  /\ (forall s y m d t,
        dateStr = Some s -> s <> ""%string ->
        numeric_parts s = Some (y, m, d) ->
        Date_local LocalTZA y (m - 1) d = Some t ->
        parseDate dateStr = Some t /\ (t + LocalTZA) mod msPerDay = 0)
  /\ (forall s y m d,
        dateStr = Some s -> s <> ""%string ->
        numeric_parts s = Some (y, m, d) ->
        Z.abs LocalTZA <= msPerDay -> 100 <= y <= 275000 ->
        calendar_date y m d ->
        parseDate dateStr = Some (day_number y m d * msPerDay - LocalTZA))
  /\ (forall s,
        dateStr = Some s -> s <> ""%string ->
        (numeric_parts s = None
         \/ exists y m d, numeric_parts s = Some (y, m, d)
                          /\ Date_local LocalTZA y (m - 1) d = None) ->
        parseDate dateStr
        = match Date_of_string s with Some t => Some t | None => epoch end).
Proof.
  split; [apply parseDate_valid|].
  split; [apply parseDate_empty|].
  split; [|split].
  - intros s y m d t -> Hs Hparts Hd.
    rewrite (parseDate_nonempty s Hs), Hparts, Hd. split; [reflexivity|].
    now apply Date_local_midnight in Hd.
  - intros s y m d -> Hs Hparts Htz Hy Hcal. now apply parseDate_calendar.
  - intros s -> Hs H. rewrite (parseDate_nonempty s Hs).
    destruct H as [-> | (y & m & d & -> & ->)]; apply fallback_spec.
Qed.

End ParseDateFacts.

(** In Tokyo: a date in either accepted form, an input left to the
    generic parse, the sentinel. *)
Example parseDate_examples :
  let JST := 32400000 in
  let no_parse := fun _ : string => None in
  parseDate JST no_parse (Some "2024-04-15"%string)
    = Some (19828 * msPerDay - JST)
  /\ parseDate JST no_parse (Some "2024/04/15"%string)
    = Some (19828 * msPerDay - JST)
  /\ parseDate JST (fun _ => Some 86400000) (Some "April 15"%string)
    = Some 86400000
  /\ parseDate JST no_parse (Some "yesterday"%string) = epoch
  /\ parseDate JST no_parse None = epoch.
Proof. vm_compute. repeat split. Qed.

(** C7, as stated, fails. "2024-02-31" has three numeric parts that form
    no calendar date, and with a generic parse that reads nothing the
    claim gives the sentinel: the result is 2 March 2024 at local
    midnight, the generic parse is not tried.  "0050-01-02" is a calendar
    date: the result is 2 January 1950. *)
Lemma parseDate_carries_over :
  let JST := 32400000 in
  let no_parse := fun _ : string => None in
  numeric_parts "2024-02-31" = Some (2024, 2, 31)
  /\ ~ calendar_date 2024 2 31
  /\ Date_of_string no_parse "2024-02-31" = None
  /\ parseDate JST no_parse (Some "2024-02-31"%string)
     = Some (day_number 2024 3 2 * msPerDay - JST)
  /\ parseDate JST no_parse (Some "2024-02-31"%string) <> epoch
  /\ numeric_parts "0050-01-02" = Some (50, 1, 2)
  /\ calendar_date 50 1 2
  /\ parseDate JST no_parse (Some "0050-01-02"%string)
     = Some (day_number 1950 1 2 * msPerDay - JST)
  /\ parseDate JST no_parse (Some "0050-01-02"%string)
     <> Some (day_number 50 1 2 * msPerDay - JST).
Proof.
  cbv zeta.
  split; [vm_compute; reflexivity|].
  split; [unfold calendar_date; vm_compute; intros [_ [_ H]]; now apply H|].
  split; [vm_compute; reflexivity|].
  split; [vm_compute; reflexivity|].
  split; [vm_compute; discriminate|].
  split; [vm_compute; reflexivity|].
  split; [unfold calendar_date; vm_compute; repeat split; discriminate|].
  split; [vm_compute; reflexivity|].
  vm_compute; discriminate.
Qed.

End Dates.

(** ** The record filter *)

Module Filter.
Import Rows Dates.
Local Open Scope string_scope.

(** The [filters] state: an empty string is "no bound", the category
    ["all"] is "every category". *)
Record filters : Type := mkFilters
  { startDate : string; endDate : string;
    teamKeyword : string; category : string }.

Section FilterData.
Variable LocalTZA : Z.
Variable Date_parse : string -> option Z.

(** [String.prototype.toLowerCase], the case mapping of Unicode. *)
Variable toLowerCase : string -> string.

Local Abbreviation parseDate := (Dates.parseDate LocalTZA Date_parse).

(** [start && rowDate < start] *)
Definition before_start (f : filters) (r : row) : bool :=
  let rowDate := parseDate (text r "日付") in
  let start :=
    if Text.truthy (startDate f)
    then Some (parseDate (Some (startDate f))) else None in
  match start with Some st => lt rowDate st | None => false end.

(** [end && rowDate >= end], [end] being the end date moved on by
    [end.setDate(end.getDate() + 1)]. *)
Definition after_end (f : filters) (r : row) : bool :=
  let rowDate := parseDate (text r "日付") in
  let end_ :=
    if Text.truthy (endDate f)
    then Some (next_day (parseDate (Some (endDate f)))) else None in
  match end_ with Some e => ge rowDate e | None => false end.

(** The team keyword is set and neither team name contains it. *)
Definition other_teams (f : filters) (r : row) : bool :=
  Text.truthy (teamKeyword f)
  && (let kw := toLowerCase (teamKeyword f) in
      let teamA := toLowerCase (text_or_empty r "先攻") in
      let teamB := toLowerCase (text_or_empty r "後攻") in
      negb (Text.includes teamA kw) && negb (Text.includes teamB kw)).

(** [filters.category !== 'all' && row['タイトル'] !== filters.category] *)
Definition other_category (f : filters) (r : row) : bool :=
  negb (category f =? "all")
  && negb match get r "タイトル" with
          | Some (Str s) => s =? category f
          | _ => false
          end.

(** The predicate [filterData] hands to [data.filter]: four tests, each
    of which returns [false] when it fails. *)
Definition keeps (f : filters) (r : row) : bool :=
  if before_start f r then false
  else if after_end f r then false
  else if other_teams f r then false
  else if other_category f r then false
  else true.

Definition filterData (f : filters) (data : list row) : list row :=
  filter (keeps f) data.

End FilterData.

(** "The normalized date is strictly less than the normalized end date
    plus one day", on time values. *)
Definition before_next_day (rowDate endDate : Date) : bool :=
  match rowDate, endDate with
  | Some x, Some t => (x <? t + msPerDay)%Z
  | _, _ => false
  end.

(** The criteria with the end date cleared. *)
Definition without_end (f : filters) : filters :=
  mkFilters (startDate f) "" (teamKeyword f) (category f).

(** Game records of April 2024, one a day. *)
Definition two_digits (n : Z) : string :=
  String (ascii_of_N (48 + Z.to_N (n / 10)))
    (String (ascii_of_N (48 + Z.to_N (n mod 10))) "").

Definition dated (day : Z) : row :=
  [("日付", Str ("2024-04-" ++ two_digits day)); ("打数", Num 4)].

Definition days_1_to_30 : list Z := map Z.of_nat (seq 1 30).

Definition april_2024 : list row := map dated days_1_to_30.

Definition until_april_15 : filters := mkFilters "" "2024-04-15" "" "all".

Section FilterFacts.
Local Open Scope Z_scope.
Variable LocalTZA : Z.
Variable Date_parse : string -> option Z.
Variable toLowerCase : string -> string.

Local Abbreviation parseDate := (Dates.parseDate LocalTZA Date_parse).
Local Abbreviation keeps := (keeps LocalTZA Date_parse toLowerCase).
Local Abbreviation filterData := (filterData LocalTZA Date_parse toLowerCase).
Local Abbreviation after_end := (after_end LocalTZA Date_parse).

(** The test of the source, on a date moved on by a day and clipped, is
    the comparison with the end date plus one day. *)
Lemma after_end_spec f r :
  Text.truthy (endDate f) = true ->
  negb (after_end f r)
  = before_next_day (parseDate (text r "日付")) (parseDate (Some (endDate f))).
Proof.
  intros Hend. unfold Filter.after_end. rewrite Hend.
  destruct (parseDate_range LocalTZA Date_parse (text r "日付"))
    as (x & -> & Hx).
  destruct (parseDate_range LocalTZA Date_parse (Some (endDate f)))
    as (t & -> & Ht).
  unfold next_day, before_next_day.
  destruct (TimeClip (t + msPerDay)) as [u|] eqn:E.
  - apply TimeClip_Some in E. subst u. unfold ge.
    symmetry. apply Z.ltb_antisym.
  - apply TimeClip_None in E. unfold ge. cbn [negb]. symmetry.
    apply Z.ltb_lt. unfold msPerDay in *. lia.
Qed.

Lemma keeps_without_end f r :
  Text.truthy (endDate f) = true ->
  keeps f r = keeps (without_end f) r && negb (after_end f r).
Proof.
  intros Hend. unfold Filter.keeps.
  change (before_start LocalTZA Date_parse (without_end f) r)
    with (before_start LocalTZA Date_parse f r).
  change (other_teams toLowerCase (without_end f) r)
    with (other_teams toLowerCase f r).
  change (other_category (without_end f) r) with (other_category f r).
  change (Filter.after_end LocalTZA Date_parse (without_end f) r) with false.
  destruct (before_start LocalTZA Date_parse f r); [reflexivity|].
  destruct (after_end f r).
  - now rewrite andb_false_r.
  - now rewrite andb_true_r.
Qed.

Lemma keeps_end_only f r :
  startDate f = "" -> teamKeyword f = "" -> category f = "all" ->
  keeps f r = negb (after_end f r).
Proof.
  intros Hs Ht Hc. unfold Filter.keeps, before_start, other_teams, other_category.
  rewrite Hs, Ht, Hc. cbn [Text.truthy String.eqb negb andb].
  change (Text.truthy "") with false. cbv iota.
  change ("all" =? "all")%string with true. cbn [negb andb].
  now destruct (after_end f r).
Qed.

Lemma filter_andb {A} (p q : A -> bool) (l : list A) :
  filter (fun a => p a && q a) l = filter q (filter p l).
Proof.
  induction l as [|a l IH]; simpl; [reflexivity|].
  destruct (p a); simpl; rewrite IH; [|reflexivity].
  now destruct (q a).
Qed.

Lemma two_digits_parts day :
  In day days_1_to_30 ->
  numeric_parts ("2024-04-" ++ two_digits day) = Some (2024, 4, day)
  /\ calendar_date 2024 4 day.
Proof.
  unfold days_1_to_30. cbn [map seq Z.of_nat Pos.of_succ_nat Pos.succ In].
  intros H.
  repeat (destruct H as [<-|H];
          [split; [vm_compute; reflexivity
                  | unfold calendar_date; vm_compute; repeat split; discriminate]|]).
  contradiction.
Qed.

Lemma dated_parseDate day :
  Z.abs LocalTZA <= msPerDay -> In day days_1_to_30 ->
  parseDate (text (dated day) "日付")
  = Some (day_number 2024 4 day * msPerDay - LocalTZA).
Proof.
  intros Htz Hin. destruct (two_digits_parts day Hin) as [Hparts Hcal].
  change (text (dated day) "日付") with (Some ("2024-04-" ++ two_digits day)%string).
  apply parseDate_calendar; auto; try lia.
  cbn [append]. discriminate.
Qed.

Lemma filter_map_comm {A B} (g : A -> B) (P : B -> bool) (l : list A) :
  filter P (map g l) = map g (filter (fun a => P (g a)) l).
Proof.
  induction l as [|a l IH]; simpl; [reflexivity|].
  rewrite IH. now destruct (P (g a)).
Qed.

Lemma day_number_april d : day_number 2024 4 d = 19813 + d.
Proof.
  unfold day_number.
  change (DayFromYear 2024) with 19723.
  change (month_start (4 - 1) (InLeapYear 2024)) with 91. lia.
Qed.

Lemma april_until_15 :
  Z.abs LocalTZA <= msPerDay ->
  filterData until_april_15 april_2024 = firstn 15 april_2024.
Proof.
  intros Htz. unfold Filter.filterData, april_2024.
  rewrite filter_map_comm.
  rewrite (filter_ext_in _ (fun day => day <=? 15)).
  - vm_compute. reflexivity.
  - intros day Hin.
    rewrite keeps_end_only by reflexivity.
    rewrite after_end_spec by reflexivity.
    rewrite (dated_parseDate day Htz Hin).
    assert (H15 : In 15 days_1_to_30) by (vm_compute; tauto).
    pose proof (dated_parseDate 15 Htz H15) as E.
    change (text (dated 15) "日付") with (Some "2024-04-15"%string) in E.
    change (endDate until_april_15) with "2024-04-15"%string.
    rewrite E. unfold before_next_day. rewrite !day_number_april.
    unfold msPerDay.
    destruct (day <=? 15) eqn:Ed.
    + apply Z.leb_le in Ed. apply Z.ltb_lt. lia.
    + apply Z.leb_gt in Ed. apply Z.ltb_ge. lia.
Qed.

(** C6. With an end date set, the filter keeps, of the rows that pass
    the other criteria, exactly those whose normalized date is strictly
    before the normalized end date plus one day; with no other criterion
    set, exactly those rows of the record set.  A row dated the end date
    itself passes the test and a row dated the day after does not.  Of
    the records dated 2024-04-01 to 2024-04-30, the criteria
    [{endDate: "2024-04-15"}] keep exactly those dated up to
    2024-04-15. *)
Theorem filterData_end_date_inclusive (f : filters) (data : list row) :
  Text.truthy (endDate f) = true ->
  filterData f data
  = filter (fun r => before_next_day (parseDate (text r "日付"))
                       (parseDate (Some (endDate f))))
      (filterData (without_end f) data)
  /\ (startDate f = "" -> teamKeyword f = "" -> category f = "all" ->
      filterData f data
      = filter (fun r => before_next_day (parseDate (text r "日付"))
                           (parseDate (Some (endDate f))))
          data)
  /\ (forall r, parseDate (text r "日付") = parseDate (Some (endDate f)) ->
                before_next_day (parseDate (text r "日付"))
                  (parseDate (Some (endDate f))) = true)
  /\ (forall r t, parseDate (Some (endDate f)) = Some t ->
                  parseDate (text r "日付") = Some (t + msPerDay) ->
                  before_next_day (parseDate (text r "日付"))
                    (parseDate (Some (endDate f))) = false)
  /\ (Z.abs LocalTZA <= msPerDay ->
      filterData until_april_15 april_2024 = firstn 15 april_2024).
Proof.
  intros Hend. split; [|split; [|split; [|split]]].
  - unfold Filter.filterData. rewrite <- filter_andb. apply filter_ext.
    intros r. rewrite <- after_end_spec by exact Hend.
    now apply keeps_without_end.
  - intros Hs Ht Hc. unfold Filter.filterData. apply filter_ext.
    intros r. rewrite <- after_end_spec by exact Hend.
    now apply keeps_end_only.
  - intros r ->.
    destruct (parseDate_range LocalTZA Date_parse (Some (endDate f)))
      as (t & -> & _).
    unfold before_next_day, msPerDay. apply Z.ltb_lt. lia.
  - intros r t -> ->. unfold before_next_day. apply Z.ltb_irrefl.
  - apply april_until_15.
Qed.

End FilterFacts.

Lemma filterData_end_date_inclusive_witness :
  let JST := 32400000%Z in
  let no_parse := fun _ : string => None in
  let lower := fun s : string => s in
  let f := until_april_15 in
  let data := april_2024 in
  filterData JST no_parse lower f data
  = filter (fun r => before_next_day (parseDate JST no_parse (text r "日付"))
                       (parseDate JST no_parse (Some (endDate f))))
      (filterData JST no_parse lower (without_end f) data)
  /\ (startDate f = "" -> teamKeyword f = "" -> category f = "all" ->
      filterData JST no_parse lower f data
      = filter (fun r => before_next_day (parseDate JST no_parse (text r "日付"))
                           (parseDate JST no_parse (Some (endDate f))))
          data)
  /\ (forall r, parseDate JST no_parse (text r "日付")
                = parseDate JST no_parse (Some (endDate f)) ->
                before_next_day (parseDate JST no_parse (text r "日付"))
                  (parseDate JST no_parse (Some (endDate f))) = true)
  /\ (forall r t, parseDate JST no_parse (Some (endDate f)) = Some t ->
                  parseDate JST no_parse (text r "日付") = Some (t + msPerDay)%Z ->
                  before_next_day (parseDate JST no_parse (text r "日付"))
                    (parseDate JST no_parse (Some (endDate f))) = false)
  /\ ((Z.abs JST <= msPerDay)%Z ->
      filterData JST no_parse lower until_april_15 april_2024
      = firstn 15 april_2024).
Proof.
  apply (filterData_end_date_inclusive 32400000%Z (fun _ => None)
           (fun s => s) until_april_15 april_2024).
  reflexivity.
Defined.

(** With no criterion set the filter is the identity. *)
Theorem filterData_no_criteria
  (LocalTZA : Z) (Date_parse : string -> option Z)
  (toLowerCase : string -> string) (data : list row) :
  filterData LocalTZA Date_parse toLowerCase (mkFilters "" "" "" "all") data
  = data.
Proof.
  unfold filterData. induction data as [|r data IH]; [reflexivity|].
  cbn [filter]. rewrite IH.
  replace (keeps LocalTZA Date_parse toLowerCase (mkFilters "" "" "" "all") r)
    with true; reflexivity.
Qed.

(** Criteria that also name a category: the end bound applies to the
    rows of that category. *)
Example filterData_end_and_category :
  let JST := 32400000%Z in
  let data :=
    [[("日付", Str "2024-04-10"); ("タイトル", Str "公式戦")];
     [("日付", Str "2024-04-15"); ("タイトル", Str "練習試合")];
     [("日付", Str "2024-04-15"); ("タイトル", Str "公式戦")];
     [("日付", Str "2024-04-16"); ("タイトル", Str "公式戦")]] in
  filterData JST (fun _ => None) (fun s => s)
    (mkFilters "" "2024-04-15" "" "公式戦") data
  = [[("日付", Str "2024-04-10"); ("タイトル", Str "公式戦")];
     [("日付", Str "2024-04-15"); ("タイトル", Str "公式戦")]].
Proof. vm_compute. reflexivity. Qed.

End Filter.

(** ** CSV import *)

Module CsvImport.
Import Rows.
Local Open Scope string_scope.

(** U+FEFF, the byte order mark. *)
Definition BOM : string :=
  String (ascii_of_N 239) (String (ascii_of_N 187) (String (ascii_of_N 191) "")).

(** The identifier and text columns, which stay strings. *)
Definition text_columns : list string :=
  ["選手ID"; "名前"; "日付"; "試合ID"; "スコア"; "カテゴリ"; "球場";
   "タイトル"; "背番号"; "先攻"; "後攻"].

Section ParseCSV.

(** [Number(val)] of a string; [None] when it is [NaN]. *)
Variable StringToNumber : string -> option Q.

(** The cell stored for the value [val] of column [header]. *)
Definition convert (header val : string) : cell :=
  if negb (existsb (String.eqb header) text_columns) then
    match StringToNumber val with
    | Some q => if negb (val =? "") then Num q else Str val
    | None => Str val
    end
  else Str val.

(** The inner loop over [headers]; [fields] is [currentline] from index
    [j] on. *)
Fixpoint fill (headers fields : list string) (obj : row) : row :=
  match headers with
  | [] => obj
  | h :: headers' =>
      let val :=
        match fields with
        | f :: _ => if Text.truthy f then Text.trim f else ""
        | [] => ""
        end in
      fill headers' (tl fields) (set obj h (convert h val))
  end.

(** [parseCSV(text)] *)
Definition parseCSV (text : string) : list row :=
  let lines := Text.split Text.is_newline (Text.trim text) in
  if (length lines <? 2)%nat then []
  else
    match lines with
    | [] => []
    | headerLine :: rest =>
        let headerLine :=
          if String.prefix BOM headerLine then Text.drop 3 headerLine
          else headerLine in
        let headers := map Text.trim (Text.split Text.is_comma headerLine) in
        flat_map
          (fun line =>
             let currentline := Text.split Text.is_comma line in
             if (length currentline <=? 1)%nat then []
             else [fill headers currentline []])
          rest
    end.

(** A picked file: its name and its text. *)
Record file : Type := mkFile { file_name : string; file_text : string }.

(** The import status line of the page. *)
Inductive status : Type :=
  | Idle                      (* [""] *)
  | Loading                   (* ["読み込み中..."] *)
  | Imported (count : nat).   (* the count, then ["ファイルをインポートしました"] *)

(** What the handler reads and sets of the component's state. *)
Record app : Type := mkApp
  { battingData : list row; pitchingData : list row; importStatus : status }.

(** The result of running the handler: it returns, or an exception
    leaves it with the state set so far. *)
Inductive outcome : Type :=
  | Returned (st : app)
  | Threw (error : string) (st : app).

(** How the body of the loop disposes of one file. *)
Inductive verdict : Type :=
  | Batting
  | Pitching
  | Dropped
  | Raises (error : string).

(** [data[0] && k in data[0]], as a condition. *)
Definition first_has (data : list row) (k : string) : bool :=
  match data with
  | r :: _ => has r k
  | [] => false
  end.

(** The two conditions of the loop body.  [&&] binds tighter than [||]:
    the second condition is
    [name.includes('_p.csv') || ((data[0] && '投球回' in data[0]) || '球数' in data[0])],
    and [in] with [undefined] on its right throws a [TypeError]. *)
Definition classify (f : file) (data : list row) : verdict :=
  if Text.includes (file_name f) "_b.csv" || first_has data "打席数"
  then Batting
  else if Text.includes (file_name f) "_p.csv" then Pitching
  else if first_has data "投球回" then Pitching
  else
    match data with
    | r :: _ => if has r "球数" then Pitching else Dropped
    | [] => Raises "TypeError: Cannot use 'in' operator to search for '球数' in undefined"
    end.

(** The loop over the files, from the values of [newBatting],
    [newPitching] and [importedCount] reached so far. *)
Fixpoint import_files (files : list file)
  (newBatting newPitching : list row) (importedCount : nat)
  : (list row * list row * nat) + string :=
  match files with
  | [] => inl (newBatting, newPitching, importedCount)
  | f :: files' =>
      let data := parseCSV (file_text f) in
      match classify f data with
      | Batting => import_files files' data newPitching (S importedCount)
      | Pitching => import_files files' newBatting data (S importedCount)
      | Dropped => import_files files' newBatting newPitching importedCount
      | Raises e => inr e
      end
  end.

(** [handleFileUpload(event)], [files] being [event.target.files]. *)
Definition handleFileUpload (st : app) (files : list file) : outcome :=
  let loading := mkApp (battingData st) (pitchingData st) Loading in
  match import_files files (battingData st) (pitchingData st) 0 with
  | inl (newBatting, newPitching, importedCount) =>
      Returned (mkApp newBatting newPitching (Imported importedCount))
  | inr e => Threw e loading
  end.

End ParseCSV.

(** Decimal integers, enough of [Number(val)] for the examples. *)
Definition decimal (val : string) : option Q :=
  match Text.digits val None with
  | Some n =>
      if (String.length val =? String.length (Text.trimStart val))%nat
         && forallb Text.is_digit (list_ascii_of_string val)
      then Some (inject_Z n) else None
  | None => None
  end.

Example parseCSV_round_trip :
  parseCSV decimal "日付,打数,安打
2024-04-01,4,2
" = [[("日付", Str "2024-04-01"); ("打数", Num 4); ("安打", Num 2)]].
Proof. reflexivity. Qed.

Example parseCSV_without_rows :
  parseCSV decimal "" = [] /\ parseCSV decimal "日付,打数,安打" = []
  /\ parseCSV decimal "shopping list
milk
eggs" = [].
Proof. repeat split. Qed.


Section ImportFacts.
Variable StringToNumber : string -> option Q.

(** A file that matches neither signature and has a first row is
    dropped: nothing is imported, nothing is raised. *)
Lemma unclassified_file_with_rows_dropped (st : app) (f : file) r rows :
  parseCSV StringToNumber (file_text f) = r :: rows ->
  Text.includes (file_name f) "_b.csv" = false ->
  Text.includes (file_name f) "_p.csv" = false ->
  has r "打席数" = false -> has r "投球回" = false -> has r "球数" = false ->
  handleFileUpload StringToNumber st [f]
  = Returned (mkApp (battingData st) (pitchingData st) (Imported 0)).
Proof.
  intros Hdata Hb Hp H1 H2 H3.
  unfold handleFileUpload, import_files, classify.
  rewrite Hdata, Hb, Hp. simpl. now rewrite H1, H2, H3.
Qed.

(** C8, where the code departs from it: a file that matches neither
    signature and parses to no row (an empty file, a header on its own,
    a text without commas) makes the handler throw while it tests the
    pitching signature; the status line stays at "loading" and no count
    is shown. *)
Theorem unclassified_file_without_rows_throws (st : app) :
  handleFileUpload StringToNumber st [mkFile "memo.txt" ""]
  = Threw "TypeError: Cannot use 'in' operator to search for '球数' in undefined"
      (mkApp (battingData st) (pitchingData st) Loading)
  /\ handleFileUpload StringToNumber st [mkFile "roster.csv" "名前,背番号"]
  = Threw "TypeError: Cannot use 'in' operator to search for '球数' in undefined"
      (mkApp (battingData st) (pitchingData st) Loading).
Proof. split; reflexivity. Qed.

End ImportFacts.

End CsvImport.

(** ** The aggregator *)

Module Aggregator.
Import Rows.
Import Number.
Local Open Scope string_scope.
Local Open Scope Q_scope.

(** The value the source hands to [Array.prototype.sort] is inspected
    for its sign only, and the sign of the binary64 difference of two
    finite Numbers is the sign of their exact difference: the comparator
    [(a, b) => f(a) - f(b)] is modelled by the exact difference. *)
Definition sort_by {A} (compareFn : A -> A -> Q) (l : list A) : list A :=
  StableSort.sort (fun a b => Qle_bool (compareFn a b) 0) l.

(** An array index among property keys: the canonical decimal form of an
    integer up to [2^32 - 2]. *)
Definition array_index (k : string) : option Z :=
  match k with
  | EmptyString => None
  | String c rest =>
      if forallb Text.is_digit (list_ascii_of_string k)
         && (negb (Text.code c =? 48)%N || (rest =? ""))
      then
        match Text.digits k None with
        | Some n => if (n <=? 4294967294)%Z then Some n else None
        | None => None
        end
      else None
  end.

(** [Object.values(o)]: the values of the array-index keys in ascending
    numeric order, then those of the other keys in insertion order. *)
Definition Object_values {V} (o : object V) : list V :=
  let indexed :=
    flat_map (fun kv => match array_index (fst kv) with
                        | Some n => [(n, snd kv)]
                        | None => []
                        end) o in
  let others :=
    filter (fun kv => match array_index (fst kv) with
                      | Some _ => false
                      | None => true
                      end) o in
  map snd (StableSort.sort (fun a b => (fst a <=? fst b)%Z) indexed)
  ++ map snd others.

(** [row['選手ID'] || row['名前']], as the property key it is used for. *)
Definition player_key (r : row) : string :=
  match text r "選手ID" with
  | Some s =>
      if Text.truthy s then s
      else match text r "名前" with Some n => n | None => "undefined" end
  | None => match text r "名前" with Some n => n | None => "undefined" end
  end.

(** *** Batting *)

Record battingStats : Type := mkBatting
  { id : option string; name : option string; number : option string;
    games : Q; pa : Q; ab : Q; h : Q; doubles : Q; triples : Q; hr : Q;
    rbi : Q; runs : Q; so : Q; bb : Q; hbp : Q; sb : Q; sf : Q; sac : Q }.

(** The object a player's first row creates. *)
Definition battingStats_of (r : row) : battingStats :=
  mkBatting (text r "選手ID") (text r "名前") (text r "背番号")
    0 0 0 0 0 0 0 0 0 0 0 0 0 0 0.

(** The fifteen [+=] of the fold. *)
Definition add_batting (s : battingStats) (r : row) : battingStats :=
  {| id := id s; name := name s; number := number s;
     games := (games s + 1)%js;
     pa := (pa s + number_or_0 r "打席数")%js;
     ab := (ab s + number_or_0 r "打数")%js;
     h := (h s + number_or_0 r "安打")%js;
     doubles := (doubles s + number_or_0 r "二塁打")%js;
     triples := (triples s + number_or_0 r "三塁打")%js;
     hr := (hr s + number_or_0 r "本塁打")%js;
     rbi := (rbi s + number_or_0 r "打点")%js;
     runs := (runs s + number_or_0 r "得点")%js;
     so := (so s + number_or_0 r "三振")%js;
     bb := (bb s + number_or_0 r "四球")%js;
     hbp := (hbp s + number_or_0 r "死球")%js;
     sb := (sb s + number_or_0 r "盗塁")%js;
     sf := (sf s + number_or_0 r "犠飛")%js;
     sac := (sac s + number_or_0 r "犠打")%js |}.

(** [filteredBattingData.forEach(row => ...)] on [stats = {}]. *)
Definition fold_batting (data : list row) : object battingStats :=
  fold_left
    (fun stats r =>
       let key := player_key r in
       let s := match get stats key with
                | Some s => s
                | None => battingStats_of r
                end in
       set stats key (add_batting s r))
    data [].

(** The rate statistics before rounding. *)
Definition avg_of (s : battingStats) : Q := safeDiv (h s) (ab s).

Definition obp_of (s : battingStats) : Q :=
  safeDiv (h s + bb s + hbp s)%js (ab s + bb s + hbp s + sf s)%js.

Definition totalBases_of (s : battingStats) : Q :=
  let singles := (h s - doubles s - triples s - hr s)%js in
  (singles + (doubles s * 2) + (triples s * 3) + (hr s * 4))%js.

Definition slg_of (s : battingStats) : Q := safeDiv (totalBases_of s) (ab s).

Definition ops_of (s : battingStats) : Q := (obp_of s + slg_of s)%js.

Definition bbK_of (s : battingStats) : Q := safeDiv (bb s + hbp s)%js (so s).

Definition isoD_of (s : battingStats) : Q := (obp_of s - avg_of s)%js.

(** An aggregated batting row: [{...s, avg, obp, slg, ops, bbK, isoD}]. *)
Record battingRow : Type := mkBattingRow
  { batting : battingStats;
    avg : Q; obp : Q; slg : Q; ops : Q; bbK : Q; isoD : Q }.

Definition batting_row (s : battingStats) : battingRow :=
  {| batting := s;
     avg := Number_toFixed 3 (avg_of s);
     obp := Number_toFixed 3 (obp_of s);
     slg := Number_toFixed 3 (slg_of s);
     ops := Number_toFixed 3 (ops_of s);
     bbK := Number_toFixed 2 (bbK_of s);
     isoD := Number_toFixed 3 (isoD_of s) |}.

(** [aggregatedBatting], of [filteredBattingData]. *)
Definition aggregatedBatting (data : list row) : list battingRow :=
  sort_by (fun a b => avg b - avg a)
    (map batting_row (Object_values (fold_batting data))).

(** *** Pitching *)

Record pitchingStats : Type := mkPitching
  { p_id : option string; p_name : option string; p_number : option string;
    p_games : Q; outs : Q; p_h : Q; r : Q; er : Q; p_bb : Q; p_so : Q;
    win : Q; loss : Q; sv : Q }.

Definition pitchingStats_of (row : row) : pitchingStats :=
  mkPitching (text row "選手ID") (text row "名前") (text row "背番号")
    0 0 0 0 0 0 0 0 0 0.

Definition add_pitching (s : pitchingStats) (row : row) : pitchingStats :=
  {| p_id := p_id s; p_name := p_name s; p_number := p_number s;
     p_games := (p_games s + 1)%js;
     outs := (outs s + number_or_0 row "アウト数")%js;
     p_h := (p_h s + number_or_0 row "安打")%js;
     r := (r s + number_or_0 row "失点")%js;
     er := (er s + number_or_0 row "自責点")%js;
     p_bb := (p_bb s + number_or_0 row "四球")%js;
     p_so := (p_so s + number_or_0 row "三振")%js;
     win := (win s + number_or_0 row "勝数")%js;
     loss := (loss s + number_or_0 row "負数")%js;
     sv := (sv s + number_or_0 row "セーブ")%js |}.

Definition fold_pitching (data : list row) : object pitchingStats :=
  fold_left
    (fun stats row =>
       let key := player_key row in
       let s := match get stats key with
                | Some s => s
                | None => pitchingStats_of row
                end in
       set stats key (add_pitching s row))
    data [].

(** [safeDiv(s.er * 7, s.outs / 3)] *)
Definition era_of (s : pitchingStats) : Q :=
  safeDiv (er s * 7)%js (outs s / 3)%js.

Definition whip_of (s : pitchingStats) : Q :=
  safeDiv (p_bb s + p_h s)%js (outs s / 3)%js.

Definition kbb_of (s : pitchingStats) : Q := safeDiv (p_so s) (p_bb s).

(** An aggregated pitching row.  [displayInnings] is kept as the two
    numbers its template prints: [Math.floor(s.outs / 3)], and
    [s.outs % 3] when that is positive. *)
Record pitchingRow : Type := mkPitchingRow
  { pitching : pitchingStats;
    displayInnings : Z * option Q;
    era : Q; whip : Q; kbb : Q; inningsVal : Q }.

Definition pitching_row (s : pitchingStats) : pitchingRow :=
  {| pitching := s;
     displayInnings :=
       (floor (outs s / 3)%js,
        if Qlt_le_dec 0 (rem (outs s) 3) then Some (rem (outs s) 3) else None);
     era := Number_toFixed 2 (era_of s);
     whip := Number_toFixed 2 (whip_of s);
     kbb := Number_toFixed 2 (kbb_of s);
     inningsVal := (outs s / 3)%js |}.

(** [aggregatedPitching], of [filteredPitchingData]. *)
Definition aggregatedPitching (data : list row) : list pitchingRow :=
  sort_by (fun a b => era a - era b)
    (map pitching_row (Object_values (fold_pitching data))).


(** *** Facts about the aggregates *)

Lemma StronglySorted_weaken {A} (R R' : A -> A -> Prop) (l : list A) :
  (forall a b, R a b -> R' a b) -> StronglySorted R l -> StronglySorted R' l.
Proof.
  intros HR. induction 1 as [|a l Hs IH Hall]; constructor; auto.
  eapply Forall_impl; [|exact Hall]. auto.
Qed.

Lemma sort_by_perm {A} (compareFn : A -> A -> Q) l :
  Permutation (sort_by compareFn l) l.
Proof. apply StableSort.sort_perm. Qed.

Lemma sort_by_In {A} (compareFn : A -> A -> Q) l x :
  In x (sort_by compareFn l) <-> In x l.
Proof. apply StableSort.sort_In. Qed.

(** A comparator that is the difference of a key sorts by that key. *)
Lemma sort_by_sorted {A} (compareFn : A -> A -> Q) (R : A -> A -> Prop) l :
  (forall a b, compareFn a b <= 0 <-> R a b) ->
  (forall a b, R a b \/ R b a) ->
  (forall a b c, R a b -> R b c -> R a c) ->
  StronglySorted R (sort_by compareFn l).
Proof.
  intros Hcmp Htotal Htrans. unfold sort_by.
  apply StronglySorted_weaken
    with (R := fun a b => Qle_bool (compareFn a b) 0 = true).
  - intros a b H. now apply Hcmp, Qle_bool_iff.
  - apply StableSort.sort_strongly_sorted.
    + intros a b H. apply Qle_bool_iff, Hcmp.
      destruct (Htotal a b) as [Hab|Hba]; [|exact Hba].
      apply Hcmp, Qle_bool_iff in Hab. congruence.
    + intros a b c H1 H2. apply Qle_bool_iff, Hcmp.
      apply Qle_bool_iff, Hcmp in H1. apply Qle_bool_iff, Hcmp in H2.
      eauto.
Qed.

Lemma sort_by_ascending {A} (key : A -> Q) l :
  StronglySorted (fun a b => key a <= key b)
    (sort_by (fun a b => key a - key b) l).
Proof.
  apply sort_by_sorted.
  - intros a b. split; intros H.
    + apply (Qplus_le_l _ _ (- key b)). now rewrite Qplus_opp_r.
    + apply (Qplus_le_l _ _ (- key b)) in H. now rewrite Qplus_opp_r in H.
  - intros a b. destruct (Qlt_le_dec (key b) (key a)) as [H|H]; [right|left].
    + now apply Qlt_le_weak.
    + exact H.
  - intros a b c. apply Qle_trans.
Qed.

Lemma sort_by_descending {A} (key : A -> Q) l :
  StronglySorted (fun a b => key b <= key a)
    (sort_by (fun a b => key b - key a) l).
Proof.
  apply sort_by_sorted.
  - intros a b. split; intros H.
    + apply (Qplus_le_l _ _ (- key a)). now rewrite Qplus_opp_r.
    + apply (Qplus_le_l _ _ (- key a)) in H. now rewrite Qplus_opp_r in H.
  - intros a b. destruct (Qlt_le_dec (key b) (key a)) as [H|H]; [left|right].
    + now apply Qlt_le_weak.
    + exact H.
  - intros a b c H1 H2. now apply Qle_trans with (y := key b).
Qed.

(** Every aggregated row is the row of its own totals. *)
Lemma aggregatedBatting_rows data :
  Forall (fun row => row = batting_row (batting row)) (aggregatedBatting data).
Proof.
  apply Forall_forall. intros row Hin.
  apply sort_by_In, in_map_iff in Hin as (s & <- & _). reflexivity.
Qed.

Lemma aggregatedPitching_rows data :
  Forall (fun row => row = pitching_row (pitching row))
    (aggregatedPitching data).
Proof.
  apply Forall_forall. intros row Hin.
  apply sort_by_In, in_map_iff in Hin as (s & <- & _). reflexivity.
Qed.


Lemma Forall_forallb {A} (P : A -> Prop) (p : A -> bool) (l : list A) :
  (forall a, P a -> p a = true) -> Forall P l -> forallb p l = true.
Proof.
  intros Hp. induction 1 as [|a l Ha _ IH]; simpl; [reflexivity|].
  now rewrite (Hp a Ha), IH.
Qed.

Definition Q_eqb (a b : Q) : bool :=
  (Qnum a =? Qnum b)%Z && (Qden a =? Qden b)%positive.

Lemma Q_eqb_eq a b : a = b -> Q_eqb a b = true.
Proof.
  intros ->. unfold Q_eqb. now rewrite Z.eqb_refl, Pos.eqb_refl.
Qed.

(** The text ["日付,打数,安打\n2024-04-01,4,2\n"] parses to one record,
    and its aggregate has the batting average .500. *)
Theorem parseCSV_then_aggregate :
  let text := "日付,打数,安打
2024-04-01,4,2
" in
  CsvImport.parseCSV CsvImport.decimal text
  = [[("日付", Str "2024-04-01"); ("打数", Num 4); ("安打", Num 2)]]
  /\ map avg (aggregatedBatting (CsvImport.parseCSV CsvImport.decimal text))
     = [1 # 2].
Proof. split; vm_compute; reflexivity. Qed.

(** One game of six innings with three earned runs. *)
Definition six_innings : row :=
  [("名前", Str "A"); ("アウト数", Num 18); ("自責点", Num 3)].

Lemma Number_toFixed_0 f : Number_toFixed f 0 = 0.
Proof.
  unfold Number_toFixed, toFixed. simpl Qle_bool. cbv iota.
  change (Qabs 0) with 0.
  assert (E : Qfloor (0 * 10 ^ f + (1 # 2)) = 0%Z).
  { assert (H : 0 * 10 ^ f + (1 # 2) == 1 # 2) by ring.
    now rewrite H. }
  rewrite E. unfold to_double.
  assert (H0 : inject_Z 0 / 10 ^ f == 0).
  { unfold Qdiv. now rewrite Qmult_0_l. }
  destruct (inject_Z 0 / 10 ^ f ?= 0) eqn:Ec.
  - reflexivity.
  - rewrite <- Qlt_alt, H0 in Ec. discriminate.
  - rewrite <- Qgt_alt, H0 in Ec. discriminate.
Qed.

(** C3, amended. The ERA of every pitching aggregate is its earned runs
    times 7 divided by its innings ([outs / 3]), rounded to two decimals,
    and 0 when the innings are 0; [outs = 18] and [earnedRuns = 3] give
    3.50, which is [3 * 7 / 6]. *)
Theorem era_is_seven_inning_formula (data : list row) :
  Forall (fun row =>
            era row
            = Number_toFixed 2
                (safeDiv (er (pitching row) * 7)%js (outs (pitching row) / 3)%js)
            /\ inningsVal row = (outs (pitching row) / 3)%js
            /\ (inningsVal row == 0 -> era row = 0))
    (aggregatedPitching data)
  /\ map era (aggregatedPitching [six_innings]) = [7 # 2]
  /\ map (fun row => (outs (pitching row), er (pitching row), inningsVal row))
       (aggregatedPitching [six_innings]) = [(18, 3, 6)]
  /\ 3 * 7 / (18 / 3) == 7 # 2.
Proof.
  split; [|split; [|split]].
  - eapply Forall_impl; [|apply aggregatedPitching_rows].
    intros row ->. cbn [era inningsVal pitching pitching_row].
    split; [reflexivity|split; [reflexivity|]].
    intros H0. unfold era_of. rewrite (safeDiv_by_zero _ _ H0).
    apply Number_toFixed_0.
  - vm_compute. reflexivity.
  - vm_compute. reflexivity.
  - vm_compute. reflexivity.
Qed.

(** One game of three innings with one earned run. *)
Definition three_innings : row :=
  [("名前", Str "B"); ("アウト数", Num 9); ("自責点", Num 1)].

(** C3, as stated, fails: one earned run in three innings is stored as
    2.33, which is neither 7/3 nor the Number [1 * 7 / (9 / 3)]. *)
Lemma era_is_rounded :
  map (fun row => (outs (pitching row), er (pitching row), era row))
    (aggregatedPitching [three_innings]) = [(9, 1, to_double (233 # 100))]
  /\ ~ Forall (fun row =>
                era row == er (pitching row) * 7 / (outs (pitching row) / 3))
        (aggregatedPitching [three_innings])
  /\ ~ Forall (fun row =>
                era row = (er (pitching row) * 7 / (outs (pitching row) / 3))%js)
        (aggregatedPitching [three_innings]).
Proof.
  split; [vm_compute; reflexivity|]. split; intros H.
  - apply (Forall_forallb _
             (fun row => Qeq_bool (era row)
                           (er (pitching row) * 7 / (outs (pitching row) / 3))))
      in H.
    + vm_compute in H. discriminate.
    + intros a Ha. now apply Qeq_bool_iff.
  - apply (Forall_forallb _
             (fun row => Q_eqb (era row)
                           (er (pitching row) * 7 / (outs (pitching row) / 3))%js))
      in H.
    + vm_compute in H. discriminate.
    + intros a Ha. now apply Q_eqb_eq.
Qed.

(** One hit in three at-bats. *)
Definition one_for_three : row :=
  [("名前", Str "A"); ("打数", Num 3); ("安打", Num 1)].

(** C4, as stated, fails: on-base and slugging percentage 1/3 are
    stored as .333 each, their sum before rounding as .667. *)
Lemma ops_is_not_sum_of_stored :
  map (fun row => (obp row, slg row, ops row))
    (aggregatedBatting [one_for_three])
  = [(to_double (333 # 1000), to_double (333 # 1000), to_double (667 # 1000))]
  /\ ~ Forall (fun row => ops row == obp row + slg row)
        (aggregatedBatting [one_for_three])
  /\ ~ Forall (fun row => ops row = (obp row + slg row)%js)
        (aggregatedBatting [one_for_three]).
Proof.
  split; [vm_compute; reflexivity|]. split; intros H.
  - apply (Forall_forallb _
             (fun row => Qeq_bool (ops row) (obp row + slg row))) in H.
    + vm_compute in H. discriminate.
    + intros a Ha. now apply Qeq_bool_iff.
  - apply (Forall_forallb _
             (fun row => Q_eqb (ops row) (obp row + slg row)%js)) in H.
    + vm_compute in H. discriminate.
    + intros a Ha. now apply Q_eqb_eq.
Qed.

(** C4, amended. The stored [ops] of every aggregated batting row is
    the sum of the on-base and slugging percentages before rounding,
    rounded to three decimals; the stored [obp] and [slg] are each
    rounded on their own. *)
Theorem ops_is_rounded_sum_of_unrounded (data : list row) :
  Forall (fun row =>
            ops row
            = Number_toFixed 3 (obp_of (batting row) + slg_of (batting row))%js
            /\ obp row = Number_toFixed 3 (obp_of (batting row))
            /\ slg row = Number_toFixed 3 (slg_of (batting row)))
    (aggregatedBatting data).
Proof.
  eapply Forall_impl; [|apply aggregatedBatting_rows].
  intros row ->. cbn [ops obp slg batting batting_row].
  split; [reflexivity|split; reflexivity].
Qed.

(** Two hits entered for one at-bat. *)
Definition two_hits_one_at_bat : row :=
  [("名前", Str "A"); ("打数", Num 1); ("安打", Num 2)].


Lemma safeDiv_unit a b : 0 < b -> 0 <= a <= b -> 0 <= safeDiv a b <= 1.
Proof.
  intros Hb [Ha0 Hab]. unfold safeDiv.
  destruct (Qeq_bool b 0) eqn:E.
  - split; discriminate.
  - apply to_double_unit. split.
    + apply Qle_shift_div_l; [exact Hb|]. now rewrite Qmult_0_l.
    + apply Qle_shift_div_r; [exact Hb|]. now rewrite Qmult_1_l.
Qed.


End Aggregator.

(** ** The ranking engine *)

Module Ranking.
Import Rows.
Import Aggregator.
Local Open Scope string_scope.
Local Open Scope Q_scope.

(** The metric keys: the options of the metric selector, and ['win'],
    which the source lists among the pitching metrics. *)
Inductive metric : Type :=
  | Avg | Ops | HR | RBI | SB | OBP | SLG | BB | SO | ERA | WHIP | KBB | Win.

Definition key (m : metric) : string :=
  match m with
  | Avg => "avg" | Ops => "ops" | HR => "hr" | RBI => "rbi" | SB => "sb"
  | OBP => "obp" | SLG => "slg" | BB => "bb" | SO => "so"
  | ERA => "era" | WHIP => "whip" | KBB => "kbb" | Win => "win"
  end.

(** [list.includes(comparisonMetric)] *)
Definition includes (list : list string) (m : metric) : bool :=
  existsb (String.eqb (key m)) list.

(** [p[comparisonMetric]] on an aggregated batting row; [None] is
    [undefined]. *)
Definition batting_value (m : metric) (p : battingRow) : option Q :=
  match m with
  | Avg => Some (avg p)
  | Ops => Some (ops p)
  | HR => Some (hr (batting p))
  | RBI => Some (rbi (batting p))
  | SB => Some (sb (batting p))
  | OBP => Some (obp p)
  | SLG => Some (slg p)
  | BB => Some (bb (batting p))
  | SO => Some (so (batting p))
  | ERA | WHIP | KBB | Win => None
  end.

(** [p[comparisonMetric]] on an aggregated pitching row. *)
Definition pitching_value (m : metric) (p : pitchingRow) : option Q :=
  match m with
  | ERA => Some (era p)
  | WHIP => Some (whip p)
  | KBB => Some (kbb p)
  | SO => Some (p_so (pitching p))
  | Win => Some (win (pitching p))
  | BB => Some (p_bb (pitching p))
  | Avg | Ops | HR | RBI | SB | OBP | SLG => None
  end.

(** [{ name, value, displayValue }] *)
Record entry : Type := mkEntry
  { entry_name : option string; value : option Q; displayValue : option Q }.

Definition batting_entry (m : metric) (p : battingRow) : entry :=
  mkEntry (name (batting p)) (batting_value m p) (batting_value m p).

Definition pitching_entry (m : metric) (p : pitchingRow) : entry :=
  mkEntry (p_name (pitching p)) (pitching_value m p) (pitching_value m p).

(** [a.value - b.value]; with [undefined] on either side it is [NaN],
    which [sort] takes for 0. *)
Definition value_difference (a b : entry) : Q :=
  match value a, value b with
  | Some x, Some y => x - y
  | _, _ => 0
  end.

(** [rankingData] *)
Definition rankingData (aggregatedBatting : list battingRow)
  (aggregatedPitching : list pitchingRow)
  (comparisonMetric : metric) (comparisonMinPA : Q) : list entry :=
  let isPitching :=
    includes ["era"; "whip"; "kbb"; "so"; "win"] comparisonMetric in
  let data :=
    if isPitching then
      map (pitching_entry comparisonMetric)
        (filter (fun p => Qle_bool comparisonMinPA (inningsVal p))
           aggregatedPitching)
    else
      map (batting_entry comparisonMetric)
        (filter (fun p => Qle_bool comparisonMinPA (pa (batting p)))
           aggregatedBatting) in
  if includes ["era"; "whip"] comparisonMetric
  then sort_by (fun a b => value_difference a b) data
  else sort_by (fun a b => value_difference b a) data.

(** The value of an entry as a number. *)
Definition number_of (e : entry) : Q :=
  match value e with Some v => v | None => 0 end.

Definition pitching_sourced (m : metric) : Prop := In m [ERA; WHIP; KBB; SO; Win].

Definition lower_is_better (m : metric) : Prop := In m [ERA; WHIP].


Lemma StronglySorted_map {A B} (R : B -> B -> Prop) (f : A -> B) (l : list A) :
  StronglySorted (fun a b => R (f a) (f b)) l -> StronglySorted R (map f l).
Proof.
  induction 1 as [|a l Hs IH Hall]; simpl; constructor; auto.
  apply Forall_map. exact Hall.
Qed.

Lemma le_by_difference x y : x - y <= 0 <-> x <= y.
Proof.
  split; intros H.
  - apply (Qplus_le_l _ _ (- y)). now rewrite Qplus_opp_r.
  - apply (Qplus_le_l _ _ (- y)) in H. now rewrite Qplus_opp_r in H.
Qed.

(** Entries whose value is a number are sorted by it, in the direction
    of the comparator. *)
Lemma ranked_ascending {P} (f : P -> entry) (k : P -> Q) (l : list P) :
  (forall p, value (f p) = Some (k p)) ->
  StronglySorted (fun a b => number_of a <= number_of b)
    (sort_by (fun a b => value_difference a b) (map f l)).
Proof.
  intros Hv. unfold sort_by. rewrite StableSort.sort_map.
  apply StronglySorted_map.
  apply (sort_by_sorted (fun a b => value_difference (f a) (f b))).
  - intros a b. unfold value_difference, number_of. rewrite !Hv.
    apply le_by_difference.
  - intros a b. unfold number_of. rewrite !Hv.
    destruct (Qlt_le_dec (k b) (k a)) as [H|H]; [right|left]; auto.
    now apply Qlt_le_weak.
  - intros a b c. apply Qle_trans.
Qed.

Lemma ranked_descending {P} (f : P -> entry) (k : P -> Q) (l : list P) :
  (forall p, value (f p) = Some (k p)) ->
  StronglySorted (fun a b => number_of b <= number_of a)
    (sort_by (fun a b => value_difference b a) (map f l)).
Proof.
  intros Hv. unfold sort_by. rewrite StableSort.sort_map.
  apply StronglySorted_map.
  apply (sort_by_sorted (fun a b => value_difference (f b) (f a))).
  - intros a b. unfold value_difference, number_of. rewrite !Hv.
    apply le_by_difference.
  - intros a b. unfold number_of. rewrite !Hv.
    destruct (Qlt_le_dec (k b) (k a)) as [H|H]; [left|right]; auto.
    now apply Qlt_le_weak.
  - intros a b c H1 H2. now apply Qle_trans with (y := number_of (f b)).
Qed.

Lemma ranked_values {P} (f : P -> entry) (k : P -> Q) (l : list P)
  (entries : list entry) :
  (forall p, value (f p) = Some (k p)) ->
  Permutation entries (map f l) ->
  Forall (fun e => value e <> None) entries.
Proof.
  intros Hv Hperm. apply Forall_forall. intros e He.
  apply (Permutation_in _ Hperm), in_map_iff in He as (p & <- & _).
  rewrite Hv. discriminate.
Qed.

(** The number a metric reads from the rows of its source. *)
Definition pitching_number (m : metric) (p : pitchingRow) : Q :=
  match pitching_value m p with Some v => v | None => 0 end.

Definition batting_number (m : metric) (p : battingRow) : Q :=
  match batting_value m p with Some v => v | None => 0 end.

Lemma pitching_value_defined m p :
  pitching_sourced m -> value (pitching_entry m p) = Some (pitching_number m p).
Proof.
  unfold pitching_sourced. simpl.
  intros [<-|[<-|[<-|[<-|[<-|[]]]]]]; reflexivity.
Qed.

Lemma batting_value_defined m p :
  ~ pitching_sourced m -> value (batting_entry m p) = Some (batting_number m p).
Proof.
  unfold pitching_sourced. simpl. intros H.
  destruct m; try reflexivity; exfalso; apply H; tauto.
Qed.

Lemma isPitching_spec m :
  includes ["era"; "whip"; "kbb"; "so"; "win"] m = true <-> pitching_sourced m.
Proof.
  unfold pitching_sourced.
  destruct m; simpl; split; intros H; try reflexivity; try discriminate;
    try tauto;
    repeat (destruct H as [H|H]; [discriminate H|]); contradiction.
Qed.

Lemma lower_is_better_spec m :
  includes ["era"; "whip"] m = true <-> lower_is_better m.
Proof.
  unfold lower_is_better.
  destruct m; simpl; split; intros H; try reflexivity; try discriminate;
    try tauto;
    repeat (destruct H as [H|H]; [discriminate H|]); contradiction.
Qed.

Lemma lower_is_better_pitching m : lower_is_better m -> pitching_sourced m.
Proof.
  unfold lower_is_better, pitching_sourced. simpl.
  intros [<-|[<-|[]]]; tauto.
Qed.


(** Three pitchers ranked by ERA with at least two innings, and three
    batters by home runs with at least three plate appearances. *)
Example rankingData_examples :
  let pitchers :=
    aggregatedPitching
      [[("名前", Str "A"); ("アウト数", Num 18); ("自責点", Num 3)];
       [("名前", Str "B"); ("アウト数", Num 9); ("自責点", Num 1)];
       [("名前", Str "C"); ("アウト数", Num 3); ("自責点", Num 0)]] in
  let batters :=
    aggregatedBatting
      [[("名前", Str "D"); ("打席数", Num 4); ("本塁打", Num 1)];
       [("名前", Str "E"); ("打席数", Num 5); ("本塁打", Num 2)];
       [("名前", Str "F"); ("打席数", Num 2); ("本塁打", Num 3)]] in
  map (fun e => (entry_name e, value e)) (rankingData batters pitchers ERA 2)
  = [(Some "B", Some (Number.to_double (233 # 100))); (Some "A", Some (7 # 2))]
  /\ map (fun e => (entry_name e, value e)) (rankingData batters pitchers HR 3)
  = [(Some "E", Some 2); (Some "D", Some 1)].
Proof. split; vm_compute; reflexivity. Qed.

End Ranking.

(** * Further properties of the code

    The modules below cover functions of [src/db.js] that the statements
    above do not reach, and relate the functions above to each other. *)

(** ** Integers in binary64

    A JavaScript operation on integers whose result is below [2^53] in
    magnitude is exact. *)

Module Exact.
Import Number.
Local Open Scope Q_scope.

Lemma Qred_inject_Z n : Qred (inject_Z n) = inject_Z n.
Proof. apply Qcanon.Qred_identity. cbn [Qnum Qden inject_Z]. apply Z.gcd_1_r. Qed.

Lemma round_half_even_Z x m : x == inject_Z m -> round_half_even x = m.
Proof.
  intros E. unfold round_half_even.
  assert (Hf : Qfloor x = m) by (rewrite E; apply Qfloor_Z).
  rewrite Hf.
  assert (Hlt : x - inject_Z m < 1 # 2).
  { rewrite E. setoid_replace (inject_Z m - inject_Z m) with 0 by ring. reflexivity. }
  rewrite Qlt_alt in Hlt. now rewrite Hlt.
Qed.

Lemma ilog2_below x (k : Z) :
  0 < x -> (0 <= k)%Z -> x < 2 ^ k -> (ilog2 x <= k - 1)%Z.
Proof.
  intros Hpos Hk Hlt. unfold ilog2.
  set (e := (Z.log2 (Qnum x) - Z.log2 (Z.pos (Qden x)))%Z).
  destruct (Qle_bool (2 ^ e) x) eqn:E.
  - apply Qle_bool_iff in E.
    destruct (Z_lt_le_dec e k) as [H|H]; [lia|]. exfalso.
    apply (Qlt_irrefl x). apply Qlt_le_trans with (y := 2 ^ k); [exact Hlt|].
    apply Qle_trans with (y := 2 ^ e); [|exact E].
    apply Qpower_le_compat_l; [lia | discriminate].
  - assert (e <= k)%Z; [|lia]. unfold e.
    destruct x as [n d]. cbn [Qnum Qden] in *.
    change (2 ^ k) with (inject_Z 2 ^ k) in Hlt.
    rewrite <- (Zpower_Qpower 2 k) in Hlt by lia.
    unfold Qlt in Hpos, Hlt. cbn [Qnum Qden inject_Z] in Hpos, Hlt.
    assert (Hn : (0 < n)%Z) by lia.
    assert (Hd : (Z.pos d < 2 ^ (Z.log2 (Z.pos d) + 1))%Z).
    { pose proof (Z.log2_spec (Z.pos d) ltac:(lia)). 
      replace (Z.log2 (Z.pos d) + 1)%Z with (Z.succ (Z.log2 (Z.pos d))) by lia. lia. }
    assert (Hn2 : (n < 2 ^ (k + (Z.log2 (Z.pos d) + 1)))%Z).
    { rewrite Z.pow_add_r by (pose proof (Z.log2_nonneg (Z.pos d)); lia).
      pose proof (Z.pow_pos_nonneg 2 k ltac:(lia) Hk). nia. }
    apply Z.log2_lt_pow2 in Hn2; lia.
Qed.

Lemma round_pos_Z x n :
  x == inject_Z n -> (0 < n < 2 ^ 53)%Z -> round_pos x == inject_Z n.
Proof.
  intros E Hn. unfold round_pos.
  assert (Hpos : 0 < x).
  { rewrite E. change 0 with (inject_Z 0). rewrite <- Zlt_Qlt. lia. }
  assert (Hlt : x < 2 ^ 53).
  { rewrite E. change (2 ^ 53) with (inject_Z (2 ^ 53)). rewrite <- Zlt_Qlt. lia. }
  pose proof (ilog2_below x 53 Hpos ltac:(lia) Hlt) as Hlog.
  set (p := Z.max (ilog2 x - 52) (-1074)).
  assert (Hp : (p <= 0)%Z) by (unfold p; lia).
  assert (Ex : x * 2 ^ (- p) == inject_Z (n * 2 ^ (- p))).
  { rewrite inject_Z_mult, Zpower_Qpower by lia. rewrite E. reflexivity. }
  rewrite (round_half_even_Z _ _ Ex).
  rewrite inject_Z_mult, Zpower_Qpower by lia.
  change (inject_Z 2) with 2.
  rewrite <- Qmult_assoc, pow2_cancel. ring.
Qed.

(** Binary64 holds an integer below [2^53] exactly. *)
Lemma to_double_Z x n :
  x == inject_Z n -> (Z.abs n < 2 ^ 53)%Z -> to_double x = inject_Z n.
Proof.
  intros E Hn. unfold to_double.
  rewrite <- (Qred_inject_Z n). apply Qred_complete.
  destruct (x ?= 0) eqn:C.
  - apply Qeq_alt in C. rewrite <- E. symmetry. exact C.
  - apply Qlt_alt in C. 
    assert (n < 0)%Z.
    { rewrite Zlt_Qlt. rewrite <- E. exact C. }
    assert (Eo : - x == inject_Z (- n)) by (rewrite inject_Z_opp, E; reflexivity).
    rewrite (round_pos_Z _ _ Eo) by lia.
    rewrite inject_Z_opp. ring.
  - apply Qgt_alt in C.
    assert (0 < n)%Z.
    { rewrite Zlt_Qlt. rewrite <- E. exact C. }
    apply round_pos_Z; [exact E | lia].
Qed.

Lemma add_Z a b (x y : Q) :
  x == inject_Z a -> y == inject_Z b -> (Z.abs (a + b) < 2 ^ 53)%Z ->
  add x y = inject_Z (a + b).
Proof.
  intros Ex Ey H. unfold add. apply to_double_Z; [|exact H].
  rewrite Ex, Ey, inject_Z_plus. reflexivity.
Qed.

Lemma sub_Z a b (x y : Q) :
  x == inject_Z a -> y == inject_Z b -> (Z.abs (a - b) < 2 ^ 53)%Z ->
  sub x y = inject_Z (a - b).
Proof.
  intros Ex Ey H. unfold sub. apply to_double_Z; [|exact H].
  rewrite Ex, Ey. unfold Z.sub. rewrite inject_Z_plus, inject_Z_opp. reflexivity.
Qed.

Lemma mul_Z a b (x y : Q) :
  x == inject_Z a -> y == inject_Z b -> (Z.abs (a * b) < 2 ^ 53)%Z ->
  mul x y = inject_Z (a * b).
Proof.
  intros Ex Ey H. unfold mul. apply to_double_Z; [|exact H].
  rewrite Ex, Ey, inject_Z_mult. reflexivity.
Qed.

End Exact.

(** ** Grouping by player

    [aggregatedBatting] and [aggregatedPitching] collect the records in
    an object keyed by player.  The keys are taken not to name a property
    of [Object.prototype] ([constructor], [toString], ...), which
    [stats[id]] would find on the empty object. *)

Module Grouping.
Import Rows Number Aggregator.
Local Open Scope string_scope.
Local Open Scope Q_scope.

(** The records of one player, in the order of the data. *)
Definition rows_of (key : string) (data : list row) : list row :=
  filter (fun r => player_key r =? key) data.

(** The keys of an object that starts with the keys [acc] and is then
    assigned under each of [keys] in turn: a new key goes last. *)
Definition extend (acc keys : list string) : list string :=
  fold_left
    (fun acc k => if existsb (String.eqb k) acc then acc else (acc ++ [k])%list)
    keys acc.

(** The distinct elements of a list, each at its first occurrence. *)
Definition distinct (keys : list string) : list string := extend [] keys.

(** The totals of one player: the object the first record creates, then
    the [+=] of each record of the player. *)
Definition batting_totals (key : string) (data : list row) : battingStats :=
  fold_left add_batting (rows_of key data)
    (battingStats_of (hd [] (rows_of key data))).

Definition pitching_totals (key : string) (data : list row) : pitchingStats :=
  fold_left add_pitching (rows_of key data)
    (pitchingStats_of (hd [] (rows_of key data))).

Section Objects.
Context {V : Type}.
Implicit Types (o : object V) (k : string) (v : V).

Lemma get_set_same o k v : get (set o k v) k = Some v.
Proof.
  induction o as [|[k' v'] o IH]; simpl.
  - now rewrite String.eqb_refl.
  - destruct (k' =? k) eqn:E; simpl; rewrite E; [reflexivity | exact IH].
Qed.

Lemma get_set_other o k k' v : k <> k' -> get (set o k v) k' = get o k'.
Proof.
  intros Hne. induction o as [|[k0 v0] o IH]; simpl.
  - destruct (k =? k') eqn:E; [|reflexivity].
    apply String.eqb_eq in E. contradiction.
  - destruct (k0 =? k) eqn:E; simpl.
    + apply String.eqb_eq in E. subst k0.
      destruct (k =? k') eqn:E'; [|reflexivity].
      apply String.eqb_eq in E'. contradiction.
    + destruct (k0 =? k'); [reflexivity | exact IH].
Qed.

Lemma existsb_keys o k :
  existsb (String.eqb k) (map fst o)
  = match get o k with Some _ => true | None => false end.
Proof.
  induction o as [|[k' v'] o IH]; simpl; [reflexivity|].
  rewrite (String.eqb_sym k k'). destruct (k' =? k); [reflexivity | exact IH].
Qed.

Lemma keys_set o k v :
  map fst (set o k v)
  = if existsb (String.eqb k) (map fst o) then map fst o else (map fst o ++ [k])%list.
Proof.
  induction o as [|[k' v'] o IH]; simpl; [reflexivity|].
  rewrite (String.eqb_sym k k').
  destruct (k' =? k) eqn:E; simpl; [reflexivity|].
  rewrite IH. now destruct (existsb _ _).
Qed.

(** An object is its keys, each with the value found under it. *)
Lemma object_by_keys o (f : string -> V) :
  NoDup (map fst o) ->
  (forall k, In k (map fst o) -> get o k = Some (f k)) ->
  o = map (fun k => (k, f k)) (map fst o).
Proof.
  induction o as [|[k v] o IH]; intros Hnd Hget; [reflexivity|].
  simpl in *. inversion Hnd as [|? ? Hnot Hnd']; subst.
  f_equal.
  - specialize (Hget k (or_introl eq_refl)).
    rewrite String.eqb_refl in Hget. congruence.
  - apply IH; [exact Hnd'|].
    intros k' Hin. specialize (Hget k' (or_intror Hin)).
    destruct (k =? k') eqn:E; [|exact Hget].
    apply String.eqb_eq in E. subst. contradiction.
Qed.

End Objects.

(** [Object.values] returns every value once. *)
Lemma Object_values_perm {V} (o : object V) :
  Permutation (Object_values o) (map snd o).
Proof.
  unfold Object_values.
  set (indexed := flat_map _ o). set (others := filter _ o).
  transitivity (map snd indexed ++ map snd others)%list.
  - apply Permutation_app_tail, Permutation_map, StableSort.sort_perm.
  - subst indexed others. induction o as [|[k v] o IH]; [reflexivity|].
    cbn [flat_map filter map fst snd]. destruct (array_index k); cbn.
    + now constructor.
    + symmetry. apply Permutation_cons_app. now symmetry.
Qed.

Section Distinct.

Lemma extend_cons acc k keys :
  extend acc (k :: keys)
  = extend (if existsb (String.eqb k) acc then acc else (acc ++ [k])%list) keys.
Proof. reflexivity. Qed.

Lemma existsb_eqb_In k (l : list string) :
  existsb (String.eqb k) l = true <-> In k l.
Proof.
  rewrite existsb_exists. split.
  - intros (x & Hin & E). apply String.eqb_eq in E. now subst.
  - intros Hin. exists k. split; [exact Hin | apply String.eqb_refl].
Qed.

Lemma extend_NoDup keys : forall acc, NoDup acc -> NoDup (extend acc keys).
Proof.
  induction keys as [|k keys IH]; intros acc Hnd; [exact Hnd|].
  rewrite extend_cons. apply IH. destruct (existsb (String.eqb k) acc) eqn:E; [exact Hnd|].
  assert (Hnot : ~ In k acc).
  { intros Hin. apply existsb_eqb_In in Hin. congruence. }
  clear E. induction acc as [|a acc IHa]; simpl.
  - constructor; [intros []|constructor].
  - inversion Hnd; subst. constructor.
    + rewrite in_app_iff. intros [H|[H|[]]]; [contradiction|].
      subst. apply Hnot. now left.
    + apply IHa; [assumption|]. intros H. apply Hnot. now right.
Qed.

Lemma extend_In keys : forall acc k,
  In k (extend acc keys) <-> In k acc \/ In k keys.
Proof.
  induction keys as [|k' keys IH]; intros acc k.
  - cbn. tauto.
  - rewrite extend_cons, IH. simpl. destruct (existsb (String.eqb k') acc) eqn:E.
    + apply existsb_eqb_In in E. split; [tauto|].
      intros [H|[H|H]]; [tauto| subst; tauto | tauto].
    + rewrite in_app_iff. simpl. tauto.
Qed.

Lemma distinct_NoDup keys : NoDup (distinct keys).
Proof. apply (extend_NoDup keys []). constructor. Qed.

Lemma distinct_In keys k : In k (distinct keys) <-> In k keys.
Proof.
  unfold distinct. rewrite extend_In. simpl. tauto.
Qed.

End Distinct.

Section Fold.
Context {S : Type}.
Variable init : row -> S.
Variable step : S -> row -> S.

(** The body of the [forEach] of the two aggregators. *)
Definition assign (stats : object S) (r : row) : object S :=
  let key := player_key r in
  let s := match get stats key with Some s => s | None => init r end in
  set stats key (step s r).

Lemma fold_assign_keys data : forall stats,
  map fst (fold_left assign data stats)
  = extend (map fst stats) (map player_key data).
Proof.
  induction data as [|r data IH]; intros stats; [reflexivity|].
  cbn [fold_left map]. rewrite IH, extend_cons. f_equal.
  unfold assign. cbv zeta. apply keys_set.
Qed.

Lemma fold_assign_get key data : forall stats,
  get (fold_left assign data stats) key
  = match rows_of key data with
    | [] => get stats key
    | first :: _ =>
        Some (fold_left step (rows_of key data)
                (match get stats key with Some s => s | None => init first end))
    end.
Proof.
  induction data as [|r data IH]; intros stats; [reflexivity|].
  cbn [fold_left]. rewrite IH. unfold rows_of. cbn [filter].
  destruct (player_key r =? key) eqn:E.
  - apply String.eqb_eq in E.
    assert (Hget : get (assign stats r) key
                   = Some (step (match get stats key with
                                 | Some s => s
                                 | None => init r
                                 end) r)).
    { unfold assign. cbv zeta. rewrite E. apply get_set_same. }
    rewrite Hget. cbn [fold_left].
    destruct (filter _ data); reflexivity.
  - assert (Hne : player_key r <> key).
    { intros H. apply String.eqb_eq in H. congruence. }
    assert (Hget : get (assign stats r) key = get stats key).
    { unfold assign. cbv zeta. apply get_set_other, Hne. }
    rewrite Hget. reflexivity.
Qed.

End Fold.

Lemma fold_batting_assign data :
  fold_batting data = fold_left (assign battingStats_of add_batting) data [].
Proof. reflexivity. Qed.

Lemma fold_pitching_assign data :
  fold_pitching data = fold_left (assign pitchingStats_of add_pitching) data [].
Proof. reflexivity. Qed.

Lemma fold_assign_object {S} (init : row -> S) step data :
  fold_left (assign init step) data []
  = map (fun k =>
           (k, fold_left step (rows_of k data) (init (hd [] (rows_of k data)))))
      (distinct (map player_key data)).
Proof.
  pose proof (fold_assign_keys init step data []) as Hkeys.
  cbn [map] in Hkeys. fold (distinct (map player_key data)) in Hkeys.
  rewrite <- Hkeys. apply object_by_keys.
  - rewrite Hkeys. apply distinct_NoDup.
  - intros k Hin. rewrite Hkeys, distinct_In, in_map_iff in Hin.
    destruct Hin as (r & Hk & Hin).
    rewrite fold_assign_get. cbn [get].
    assert (Hr : In r (rows_of k data)).
    { apply filter_In. split; [exact Hin | now apply String.eqb_eq]. }
    destruct (rows_of k data); [destruct Hr | reflexivity].
Qed.

(** The players of a record set, each at their first record. *)
Definition players (data : list row) : list string :=
  distinct (map player_key data).

(** The names [stats[id]] finds on the empty object [{}]: the properties
    of [Object.prototype]. *)
Definition Object_prototype : list string :=
  ["constructor"; "__proto__"; "hasOwnProperty"; "isPrototypeOf";
   "propertyIsEnumerable"; "toLocaleString"; "toString"; "valueOf";
   "__defineGetter__"; "__defineSetter__"; "__lookupGetter__";
   "__lookupSetter__"].

(** No player key of the records is one of them: [stats[id]] finds what
    the loop has put there and nothing else. *)
Definition own_keys (data : list row) : bool :=
  forallb (fun r => negb (existsb (String.eqb (player_key r)) Object_prototype))
    data.

Lemma fold_batting_object data :
  fold_batting data
  = map (fun key => (key, batting_totals key data)) (players data).
Proof. rewrite fold_batting_assign. apply fold_assign_object. Qed.

Lemma fold_pitching_object data :
  fold_pitching data
  = map (fun key => (key, pitching_totals key data)) (players data).
Proof. rewrite fold_pitching_assign. apply fold_assign_object. Qed.

Lemma aggregatedBatting_perm data :
  Permutation (aggregatedBatting data)
    (map (fun key => batting_row (batting_totals key data)) (players data)).
Proof.
  unfold aggregatedBatting. rewrite sort_by_perm.
  rewrite Object_values_perm, fold_batting_object, !map_map. reflexivity.
Qed.

Lemma aggregatedPitching_perm data :
  Permutation (aggregatedPitching data)
    (map (fun key => pitching_row (pitching_totals key data)) (players data)).
Proof.
  unfold aggregatedPitching. rewrite sort_by_perm.
  rewrite Object_values_perm, fold_pitching_object, !map_map. reflexivity.
Qed.

Lemma players_spec data key :
  In key (players data) <-> exists r, In r data /\ player_key r = key.
Proof.
  unfold players. rewrite distinct_In, in_map_iff.
  split; intros (r & H1 & H2); exists r; tauto.
Qed.

(** X17. The aggregators group by player: there is one row per player key
    of the records, the row of the totals of that player's records taken
    in order, whatever records of other players lie between them; the
    name and the number are those of the player's first record. *)
Theorem aggregates_group_by_player (batting pitching : list row) :
  own_keys batting = true -> own_keys pitching = true ->
  NoDup (players batting)
  /\ (forall key, In key (players batting)
                  <-> exists r, In r batting /\ player_key r = key)
  /\ Permutation (aggregatedBatting batting)
       (map (fun key => batting_row (batting_totals key batting))
          (players batting))
  /\ NoDup (players pitching)
  /\ (forall key, In key (players pitching)
                  <-> exists r, In r pitching /\ player_key r = key)
  /\ Permutation (aggregatedPitching pitching)
       (map (fun key => pitching_row (pitching_totals key pitching))
          (players pitching)).
Proof.
  intros _ _.
  split; [apply distinct_NoDup|]. split; [intros key; apply players_spec|].
  split; [apply aggregatedBatting_perm|].
  split; [apply distinct_NoDup|]. split; [intros key; apply players_spec|].
  apply aggregatedPitching_perm.
Qed.

(** *** Counting totals are exact

    The cells of the counting columns hold non-negative integers.  As
    long as a column adds up to less than [2^53] over the record set,
    no [+=] of the aggregators rounds. *)

(** [row[col] || 0] as an integer. *)
Definition count (col : string) (r : row) : Z := Qfloor (number_or_0 r col).

Definition is_count (q : Q) : bool :=
  Qeq_bool q (inject_Z (Qfloor q)) && Qle_bool 0 q.

Definition column_sum (col : string) (rows : list row) : Z :=
  fold_right (fun r acc => (count col r + acc)%Z) 0%Z rows.

(** Every cell of the columns [cols] holds a count, and no column adds
    up to [2^53]; nor does the number of records. *)
Definition counts (cols : list string) (data : list row) : bool :=
  forallb (fun r => forallb (fun col => is_count (number_or_0 r col)) cols) data
  && forallb (fun col => (column_sum col data <? 2 ^ 53)%Z) cols
  && (Z.of_nat (length data) <? 2 ^ 53)%Z.

Definition batting_columns : list string :=
  ["打席数"; "打数"; "安打"; "二塁打"; "三塁打"; "本塁打"; "打点"; "得点";
   "三振"; "四球"; "死球"; "盗塁"; "犠飛"; "犠打"].

Definition pitching_columns : list string :=
  ["アウト数"; "安打"; "失点"; "自責点"; "四球"; "三振"; "勝数"; "負数";
   "セーブ"].

Lemma is_count_spec q :
  is_count q = true -> q == inject_Z (Qfloor q) /\ (0 <= Qfloor q)%Z.
Proof.
  unfold is_count. intros H. apply andb_true_iff in H as [H1 H2].
  apply Qeq_bool_iff in H1. apply Qle_bool_iff in H2. split; [exact H1|].
  change 0%Z with (Qfloor 0). now apply Qfloor_resp_le.
Qed.

Lemma counts_cell cols data r col :
  counts cols data = true -> In r data -> In col cols ->
  number_or_0 r col == inject_Z (count col r) /\ (0 <= count col r)%Z.
Proof.
  unfold counts. intros H Hr Hc.
  apply andb_true_iff in H as [H _]. apply andb_true_iff in H as [H _].
  rewrite forallb_forall in H. specialize (H r Hr).
  rewrite forallb_forall in H. specialize (H col Hc).
  now apply is_count_spec.
Qed.

Lemma counts_sum cols data col :
  counts cols data = true -> In col cols -> (column_sum col data < 2 ^ 53)%Z.
Proof.
  unfold counts. intros H Hc.
  apply andb_true_iff in H as [H _]. apply andb_true_iff in H as [_ H].
  rewrite forallb_forall in H. specialize (H col Hc). lia.
Qed.

Lemma counts_length cols data :
  counts cols data = true -> (Z.of_nat (length data) < 2 ^ 53)%Z.
Proof.
  unfold counts. intros H. apply andb_true_iff in H as [_ H]. lia.
Qed.

(** A running total of counts is their sum. *)
Lemma running_total_exact {A} (g : A -> Q) (n : A -> Z) (l : list A) :
  forall a : Z,
  (0 <= a)%Z ->
  (forall x, In x l -> g x == inject_Z (n x) /\ (0 <= n x)%Z) ->
  (a + fold_right (fun x acc => n x + acc) 0 l < 2 ^ 53)%Z ->
  fold_left (fun acc x => (acc + g x)%js) l (inject_Z a)
  = inject_Z (a + fold_right (fun x acc => n x + acc) 0 l)%Z.
Proof.
  induction l as [|x l IH]; intros a Ha Hg Hsum; cbn [fold_left fold_right] in *.
  - now rewrite Z.add_0_r.
  - destruct (Hg x (or_introl eq_refl)) as [Ex Hx].
    assert (Htail : (0 <= fold_right (fun x acc => n x + acc) 0 l)%Z).
    { clear - Hg. induction l as [|y l IH]; cbn; [lia|].
      destruct (Hg y (or_intror (or_introl eq_refl))) as [_ Hy].
      assert (0 <= fold_right (fun x acc => n x + acc) 0 l)%Z; [|lia].
      apply IH. intros z [Hz|Hz]; apply Hg; [now left | now right; right]. }
    rewrite (Exact.add_Z a (n x) (inject_Z a) (g x)); [|reflexivity|exact Ex|lia].
    rewrite IH; [f_equal; lia | lia | |lia].
    intros y Hy. apply Hg. now right.
Qed.

Lemma field_total {S} (field : S -> Q) (step : S -> row -> S) (g : row -> Q) :
  (forall s r, field (step s r) = (field s + g r)%js) ->
  forall rows s,
  field (fold_left step rows s)
  = fold_left (fun acc r => (acc + g r)%js) rows (field s).
Proof.
  intros Hstep. induction rows as [|r rows IH]; intros s; [reflexivity|].
  cbn [fold_left]. now rewrite IH, Hstep.
Qed.

Lemma column_sum_cons col r rows :
  column_sum col (r :: rows) = (count col r + column_sum col rows)%Z.
Proof. reflexivity. Qed.

Lemma column_sum_nonneg cols data col rows :
  counts cols data = true -> In col cols -> incl rows data ->
  (0 <= column_sum col rows)%Z.
Proof.
  intros Hc Hcol. induction rows as [|r rows IH]; intros Hincl;
    [cbn; lia | rewrite column_sum_cons].
  destruct (counts_cell cols data r col Hc (Hincl r (or_introl eq_refl)) Hcol).
  assert (0 <= column_sum col rows)%Z; [|lia].
  apply IH. intros x Hx. apply Hincl. now right.
Qed.

Lemma column_sum_filter cols data col (p : row -> bool) :
  counts cols data = true -> In col cols ->
  forall rows, incl rows data ->
  (column_sum col (filter p rows) <= column_sum col rows)%Z.
Proof.
  intros Hc Hcol. induction rows as [|r rows IH]; intros Hincl;
    [cbn; lia | cbn [filter]].
  destruct (counts_cell cols data r col Hc (Hincl r (or_introl eq_refl)) Hcol).
  assert (column_sum col (filter p rows) <= column_sum col rows)%Z.
  { apply IH. intros x Hx. apply Hincl. now right. }
  destruct (p r); rewrite !column_sum_cons; lia.
Qed.

(** The total of a counting column over records of the data. *)
Lemma column_total_exact cols data col rows :
  counts cols data = true -> In col cols -> incl rows data ->
  (column_sum col rows <= column_sum col data)%Z ->
  fold_left (fun acc r => (acc + number_or_0 r col)%js) rows 0
  = inject_Z (column_sum col rows).
Proof.
  intros Hc Hcol Hincl Hle.
  pose proof (counts_sum cols data col Hc Hcol) as Hlt.
  change 0 with (inject_Z 0).
  rewrite (running_total_exact (fun r => number_or_0 r col) (count col) rows 0).
  - reflexivity.
  - lia.
  - intros r Hr. apply (counts_cell cols data); auto.
  - change (0 + column_sum col rows < 2 ^ 53)%Z. lia.
Qed.

Lemma games_total_exact {A} (l : list A) :
  (Z.of_nat (length l) < 2 ^ 53)%Z ->
  fold_left (fun acc _ => (acc + 1)%js) l 0 = inject_Z (Z.of_nat (length l)).
Proof.
  intros Hlt. change 0 with (inject_Z 0).
  assert (E : fold_right (fun (_ : A) acc => (1 + acc)%Z) 0%Z l
              = Z.of_nat (length l)).
  { induction l as [|x l IH]; [reflexivity|].
    cbn [fold_right length]. rewrite IH by (cbn [length] in Hlt; lia). lia. }
  rewrite (running_total_exact (fun _ => 1) (fun _ => 1%Z) l 0).
  - now rewrite E.
  - lia.
  - intros x _. split; [reflexivity | lia].
  - rewrite E. lia.
Qed.

(** All the counts of the record set in the columns [cols]. *)
Definition grand_total (cols : list string) (data : list row) : Z :=
  fold_right (fun col acc => (column_sum col data + acc)%Z) 0%Z cols.

Lemma column_sum_perm col l l' :
  Permutation l l' -> column_sum col l = column_sum col l'.
Proof.
  induction 1; rewrite ?column_sum_cons; try lia; reflexivity.
Qed.

Lemma rows_of_incl key data : incl (rows_of key data) data.
Proof. intros r Hr. now apply filter_In in Hr. Qed.

Lemma rows_of_length key data : (length (rows_of key data) <= length data)%nat.
Proof. apply filter_length_le. Qed.

(** The counting fields of a batting aggregate, each with the column it
    adds up. *)
Definition batting_fields : list (string * (battingStats -> Q)) :=
  [("打席数", pa); ("打数", ab); ("安打", h); ("二塁打", doubles);
   ("三塁打", triples); ("本塁打", hr); ("打点", rbi); ("得点", runs);
   ("三振", so); ("四球", bb); ("死球", hbp); ("盗塁", sb); ("犠飛", sf);
   ("犠打", sac)].

Definition pitching_fields : list (string * (pitchingStats -> Q)) :=
  [("アウト数", outs); ("安打", p_h); ("失点", r); ("自責点", er);
   ("四球", p_bb); ("三振", p_so); ("勝数", win); ("負数", loss);
   ("セーブ", sv)].

Lemma batting_games_exact data key :
  counts batting_columns data = true ->
  games (batting_totals key data)
  = inject_Z (Z.of_nat (length (rows_of key data))).
Proof.
  intros Hc. unfold batting_totals.
  rewrite (field_total games add_batting (fun _ => 1)) by reflexivity.
  apply games_total_exact.
  pose proof (counts_length _ _ Hc). pose proof (rows_of_length key data). lia.
Qed.

Lemma batting_fields_exact data key :
  counts batting_columns data = true ->
  Forall (fun cf =>
            snd cf (batting_totals key data)
            = inject_Z (column_sum (fst cf) (rows_of key data)))
    batting_fields.
Proof.
  intros Hc. unfold batting_totals.
  repeat constructor; cbn [fst snd];
    (rewrite (field_total _ add_batting (fun r => number_or_0 r _))
       by reflexivity;
     apply (column_total_exact batting_columns data);
     [exact Hc | cbn; tauto | apply rows_of_incl
     | apply (column_sum_filter batting_columns data);
       [exact Hc | cbn; tauto | apply incl_refl]]).
Qed.

Lemma pitching_games_exact data key :
  counts pitching_columns data = true ->
  p_games (pitching_totals key data)
  = inject_Z (Z.of_nat (length (rows_of key data))).
Proof.
  intros Hc. unfold pitching_totals.
  rewrite (field_total p_games add_pitching (fun _ => 1)) by reflexivity.
  apply games_total_exact.
  pose proof (counts_length _ _ Hc). pose proof (rows_of_length key data). lia.
Qed.

Lemma pitching_fields_exact data key :
  counts pitching_columns data = true ->
  Forall (fun cf =>
            snd cf (pitching_totals key data)
            = inject_Z (column_sum (fst cf) (rows_of key data)))
    pitching_fields.
Proof.
  intros Hc. unfold pitching_totals.
  repeat constructor; cbn [fst snd];
    (rewrite (field_total _ add_pitching (fun r => number_or_0 r _))
       by reflexivity;
     apply (column_total_exact pitching_columns data);
     [exact Hc | cbn; tauto | apply rows_of_incl
     | apply (column_sum_filter pitching_columns data);
       [exact Hc | cbn; tauto | apply incl_refl]]).
Qed.

Lemma In_fields {S} (fields : list (string * (S -> Q)))
  (P : string * (S -> Q) -> Prop) cf :
  Forall P fields -> In cf fields -> P cf.
Proof. intros H. now apply Forall_forall. Qed.

Lemma batting_field_exact data key col field :
  counts batting_columns data = true -> In (col, field) batting_fields ->
  field (batting_totals key data)
  = inject_Z (column_sum col (rows_of key data)).
Proof.
  intros Hc Hin.
  apply (In_fields batting_fields _ (col, field)
           (batting_fields_exact data key Hc) Hin).
Qed.

Lemma pitching_field_exact data key col field :
  counts pitching_columns data = true -> In (col, field) pitching_fields ->
  field (pitching_totals key data)
  = inject_Z (column_sum col (rows_of key data)).
Proof.
  intros Hc Hin.
  apply (In_fields pitching_fields _ (col, field)
           (pitching_fields_exact data key Hc) Hin).
Qed.

Lemma column_sum_le_grand_total cols data col :
  counts cols data = true -> In col cols ->
  (0 <= column_sum col data <= grand_total cols data)%Z.
Proof.
  intros Hc Hin.
  assert (Hnn : forall c, In c cols -> (0 <= column_sum c data)%Z).
  { intros c Hc'. apply (column_sum_nonneg cols data); auto using incl_refl. }
  split; [now apply Hnn|].
  unfold grand_total. clear Hc. induction cols as [|c cols IH]; [destruct Hin|].
  cbn [fold_right].
  assert (H0 : (0 <= fold_right (fun col acc => column_sum col data + acc) 0 cols)%Z).
  { clear - Hnn. induction cols as [|c' cols IH]; cbn [fold_right]; [lia|].
    pose proof (Hnn c' (or_intror (or_introl eq_refl))).
    assert (0 <= fold_right (fun col acc => column_sum col data + acc) 0 cols)%Z;
      [|lia].
    apply IH. intros x [Hx|Hx]; apply Hnn; [now left | now right; right]. }
  destruct Hin as [->|Hin]; [lia|].
  pose proof (Hnn c (or_introl eq_refl)).
  assert (column_sum col data
          <= fold_right (fun col acc => column_sum col data + acc) 0 cols)%Z;
    [|lia].
  apply IH; [exact Hin|]. intros x Hx. apply Hnn. now right.
Qed.

(** X18. For records whose counting cells are non-negative integers adding
    up to less than [2^53], every total of a player is the exact sum of
    the column over the player's records, and [games] is the number of
    those records: no addition of the two folds rounds. *)
Theorem counting_totals_are_exact_sums
  (batting pitching : list row) (key : string) :
  counts batting_columns batting = true ->
  counts pitching_columns pitching = true ->
  games (batting_totals key batting)
  = inject_Z (Z.of_nat (length (rows_of key batting)))
  /\ Forall (fun cf =>
               snd cf (batting_totals key batting)
               = inject_Z (column_sum (fst cf) (rows_of key batting)))
       batting_fields
  /\ p_games (pitching_totals key pitching)
     = inject_Z (Z.of_nat (length (rows_of key pitching)))
  /\ Forall (fun cf =>
               snd cf (pitching_totals key pitching)
               = inject_Z (column_sum (fst cf) (rows_of key pitching)))
       pitching_fields.
Proof.
  intros Hb Hp.
  split; [now apply batting_games_exact|].
  split; [now apply batting_fields_exact|].
  split; [now apply pitching_games_exact | now apply pitching_fields_exact].
Qed.

(** Three batting records of two players and two pitching records of
    one. *)
Definition sample_batting : list row :=
  [[("選手ID", Str "p1"); ("名前", Str "A"); ("日付", Str "2024-04-07");
    ("試合ID", Str "g2"); ("打席数", Num 4); ("打数", Num 3); ("安打", Num 1);
    ("四球", Num 1)];
   [("選手ID", Str "p2"); ("名前", Str "B"); ("日付", Str "2024-04-07");
    ("試合ID", Str "g2"); ("打席数", Num 4); ("打数", Num 4); ("安打", Num 2);
    ("二塁打", Num 1)];
   [("選手ID", Str "p1"); ("名前", Str "A"); ("日付", Str "2024-04-01");
    ("試合ID", Str "g1"); ("打席数", Num 5); ("打数", Num 4); ("安打", Num 3);
    ("本塁打", Num 1); ("犠飛", Num 1)]].

Definition sample_pitching : list row :=
  [[("選手ID", Str "p1"); ("名前", Str "A"); ("日付", Str "2024-04-07");
    ("アウト数", Num 9); ("自責点", Num 1); ("四球", Num 2); ("安打", Num 3);
    ("三振", Num 4)];
   [("選手ID", Str "p1"); ("名前", Str "A"); ("日付", Str "2024-04-01");
    ("アウト数", Num 12); ("自責点", Num 2); ("四球", Num 1); ("安打", Num 5);
    ("三振", Num 6)]].

Lemma aggregates_group_by_player_witness :
  NoDup (players sample_batting)
  /\ (forall key, In key (players sample_batting)
                  <-> exists r, In r sample_batting /\ player_key r = key)
  /\ Permutation (aggregatedBatting sample_batting)
       (map (fun key => batting_row (batting_totals key sample_batting))
          (players sample_batting))
  /\ NoDup (players sample_pitching)
  /\ (forall key, In key (players sample_pitching)
                  <-> exists r, In r sample_pitching /\ player_key r = key)
  /\ Permutation (aggregatedPitching sample_pitching)
       (map (fun key => pitching_row (pitching_totals key sample_pitching))
          (players sample_pitching)).
Proof.
  apply (aggregates_group_by_player sample_batting sample_pitching);
    reflexivity.
Defined.

Lemma counting_totals_are_exact_sums_witness :
  games (batting_totals "p1" sample_batting)
  = inject_Z (Z.of_nat (length (rows_of "p1" sample_batting)))
  /\ Forall (fun cf =>
               snd cf (batting_totals "p1" sample_batting)
               = inject_Z (column_sum (fst cf) (rows_of "p1" sample_batting)))
       batting_fields
  /\ p_games (pitching_totals "p1" sample_pitching)
     = inject_Z (Z.of_nat (length (rows_of "p1" sample_pitching)))
  /\ Forall (fun cf =>
               snd cf (pitching_totals "p1" sample_pitching)
               = inject_Z (column_sum (fst cf) (rows_of "p1" sample_pitching)))
       pitching_fields.
Proof.
  apply (counting_totals_are_exact_sums sample_batting sample_pitching "p1");
    vm_compute; reflexivity.
Defined.

Example sample_totals :
  map (fun row => (name (batting row), games (batting row), ab (batting row),
                   h (batting row), avg row))
    (aggregatedBatting sample_batting)
  = [(Some "A", 2, 7, 4, to_double (571 # 1000));
     (Some "B", 1, 4, 2, 1 # 2)].
Proof. vm_compute. reflexivity. Qed.

End Grouping.

(** ** Team figures *)

Module Team.
Import Rows Number Aggregator Grouping.
Local Open Scope string_scope.
Local Open Scope Q_scope.

(** [new Set(values)]: the distinct values, each where it was first
    added.  The values are the [試合ID] cells of the records, strings or
    [undefined]. *)
Definition same_value (a b : option string) : bool :=
  match a, b with
  | Some x, Some y => x =? y
  | None, None => true
  | _, _ => false
  end.

Definition Set_of (values : list (option string)) : list (option string) :=
  fold_left
    (fun s v => if existsb (same_value v) s then s else (s ++ [v])%list)
    values [].

(** [array.reduce((acc, cur) => acc + f(cur), 0)] *)
Definition reduce_sum {A} (f : A -> Q) (array : list A) : Q :=
  fold_left (fun acc cur => (acc + f cur)%js) array 0.

(** [{ totalGames, teamAvg, totalR, totalHR, teamERA }]; [teamAvg] and
    [teamERA] are the decimal strings of [toFixed], kept by their value. *)
Record team : Type := mkTeam
  { totalGames : nat; teamAvg : Q; totalR : Q; totalHR : Q; teamERA : Q }.

(** [teamStats], of [filteredBattingData] and [filteredPitchingData];
    [None] is [null]. *)
Definition teamStats (filteredBattingData filteredPitchingData : list row)
  : option team :=
  if (length filteredBattingData =? 0)%nat then None
  else
    let aggregatedBatting := aggregatedBatting filteredBattingData in
    let aggregatedPitching := aggregatedPitching filteredPitchingData in
    let gameIds :=
      Set_of (map (fun r => text r "試合ID") filteredBattingData) in
    let totalAB := reduce_sum (fun cur => ab (batting cur)) aggregatedBatting in
    let totalH := reduce_sum (fun cur => h (batting cur)) aggregatedBatting in
    let totalR := reduce_sum (fun cur => runs (batting cur)) aggregatedBatting in
    let totalHR := reduce_sum (fun cur => hr (batting cur)) aggregatedBatting in
    let teamAvg := toFixed 3 (safeDiv totalH totalAB) in
    let totalER := reduce_sum (fun cur => er (pitching cur)) aggregatedPitching in
    let totalOuts :=
      reduce_sum (fun cur => outs (pitching cur)) aggregatedPitching in
    let teamERA := toFixed 2 (safeDiv (totalER * 7)%js (totalOuts / 3)%js) in
    Some {| totalGames := length gameIds; teamAvg := teamAvg;
            totalR := totalR; totalHR := totalHR; teamERA := teamERA |}.

(** The team figures taken from the records directly. *)
Definition team_of_records (b p : list row) : team :=
  {| totalGames := length (Set_of (map (fun r => text r "試合ID") b));
     teamAvg :=
       toFixed 3 (safeDiv (inject_Z (column_sum "安打" b))
                    (inject_Z (column_sum "打数" b)));
     totalR := inject_Z (column_sum "得点" b);
     totalHR := inject_Z (column_sum "本塁打" b);
     teamERA :=
       toFixed 2 (safeDiv (inject_Z (column_sum "自責点" p) * 7)%js
                    (inject_Z (column_sum "アウト数" p) / 3)%js) |}.

Definition zsum (l : list Z) : Z := fold_right Z.add 0%Z l.

Lemma zsum_perm l l' : Permutation l l' -> zsum l = zsum l'.
Proof. unfold zsum. induction 1; cbn in *; lia. Qed.

Lemma zsum_indicator (key : string) (c : Z) (ks : list string) :
  NoDup ks -> In key ks ->
  zsum (map (fun k => if key =? k then c else 0%Z) ks) = c.
Proof.
  induction ks as [|k ks IH]; intros Hnd Hin; [destruct Hin|].
  inversion Hnd as [|? ? Hnot Hnd']; subst. cbn [map zsum fold_right].
  destruct (key =? k) eqn:E.
  - apply String.eqb_eq in E. subst k.
    assert (H0 : fold_right Z.add 0%Z
                   (map (fun k => if key =? k then c else 0%Z) ks) = 0%Z).
    { clear - Hnot. induction ks as [|k ks IH]; [reflexivity|].
      cbn. destruct (key =? k) eqn:E.
      - apply String.eqb_eq in E. subst. exfalso. apply Hnot. now left.
      - rewrite IH; [reflexivity|]. intros H. apply Hnot. now right. }
    rewrite H0. lia.
  - destruct Hin as [->|Hin]; [now rewrite String.eqb_refl in E|].
    change (fold_right Z.add 0%Z ?l) with (zsum l). rewrite IH; auto.
Qed.

(** The sum of a column over the records is the sum over the players of
    the sums over their records. *)
Lemma column_sum_by_player col data : forall ks,
  NoDup ks -> (forall r, In r data -> In (player_key r) ks) ->
  zsum (map (fun k => column_sum col (rows_of k data)) ks)
  = column_sum col data.
Proof.
  induction data as [|r data IH]; intros ks Hnd Hall.
  - clear. unfold zsum. induction ks as [|k ks IH]; [reflexivity|].
    cbn [map fold_right]. rewrite IH. reflexivity.
  - rewrite column_sum_cons, <- (IH ks Hnd) by (intros; apply Hall; now right).
    rewrite <- (zsum_indicator (player_key r) (count col r) ks Hnd)
      by (apply Hall; now left).
    clear. unfold zsum. induction ks as [|k ks IH]; [reflexivity|].
    cbn [map fold_right]. rewrite IH.
    unfold rows_of at 1. cbn [filter]. fold (rows_of k data).
    destruct (player_key r =? k).
    + rewrite column_sum_cons. lia.
    + lia.
Qed.

Lemma reduce_sum_exact {A} (f : A -> Q) (n : A -> Z) (l : list A) :
  (forall x, In x l -> f x = inject_Z (n x) /\ (0 <= n x)%Z) ->
  (zsum (map n l) < 2 ^ 53)%Z ->
  reduce_sum f l = inject_Z (zsum (map n l)).
Proof.
  intros Hf Hlt. unfold reduce_sum. change 0 with (inject_Z 0).
  assert (E : fold_right (fun x acc => (n x + acc)%Z) 0%Z l = zsum (map n l)).
  { clear. induction l as [|x l IH]; [reflexivity|]. cbn. now rewrite IH. }
  rewrite (running_total_exact f n l 0).
  - now rewrite E.
  - lia.
  - intros x Hx. destruct (Hf x Hx) as [-> H]. split; [reflexivity | exact H].
  - rewrite E. lia.
Qed.

(** A team total over the aggregated batting rows is the sum of the
    column over all records. *)
Lemma batting_team_total data col field :
  counts batting_columns data = true -> In (col, field) batting_fields ->
  reduce_sum (fun cur => field (batting cur)) (aggregatedBatting data)
  = inject_Z (column_sum col data).
Proof.
  intros Hc Hin.
  assert (Hcol : In col batting_columns).
  { cbn in Hin. cbn.
    repeat (destruct Hin as [Hin|Hin]; [inversion Hin; tauto|]). destruct Hin. }
  pose (n := fun cur : battingRow => Qfloor (field (batting cur))).
  assert (Hrows : forall key,
             field (batting_totals key data)
             = inject_Z (column_sum col (rows_of key data))).
  { intros key.
    apply (In_fields batting_fields _ (col, field)
             (batting_fields_exact data key Hc) Hin). }
  assert (Hn : map n (map (fun key => batting_row (batting_totals key data))
                        (players data))
               = map (fun key => column_sum col (rows_of key data))
                   (players data)).
  { rewrite map_map. apply map_ext. intros key. unfold n.
    cbn [batting batting_row]. rewrite Hrows. apply Qfloor_Z. }
  assert (Hsum : zsum (map n (aggregatedBatting data)) = column_sum col data).
  { rewrite (zsum_perm _ _ (Permutation_map n (aggregatedBatting_perm data))).
    rewrite Hn. apply column_sum_by_player.
    - apply distinct_NoDup.
    - intros r Hr. apply players_spec. now exists r. }
  rewrite (reduce_sum_exact _ n).
  - now rewrite Hsum.
  - intros cur Hcur.
    apply (Permutation_in _ (aggregatedBatting_perm data)) in Hcur.
    apply in_map_iff in Hcur as (key & <- & _). unfold n.
    cbn [batting batting_row]. rewrite Hrows, Qfloor_Z. split; [reflexivity|].
    apply (column_sum_nonneg batting_columns data);
      [exact Hc | exact Hcol | apply rows_of_incl].
  - rewrite Hsum. now apply (counts_sum batting_columns).
Qed.

Lemma pitching_team_total data col field :
  counts pitching_columns data = true -> In (col, field) pitching_fields ->
  reduce_sum (fun cur => field (pitching cur)) (aggregatedPitching data)
  = inject_Z (column_sum col data).
Proof.
  intros Hc Hin.
  assert (Hcol : In col pitching_columns).
  { cbn in Hin. cbn.
    repeat (destruct Hin as [Hin|Hin]; [inversion Hin; tauto|]). destruct Hin. }
  pose (n := fun cur : pitchingRow => Qfloor (field (pitching cur))).
  assert (Hrows : forall key,
             field (pitching_totals key data)
             = inject_Z (column_sum col (rows_of key data))).
  { intros key.
    apply (In_fields pitching_fields _ (col, field)
             (pitching_fields_exact data key Hc) Hin). }
  assert (Hn : map n (map (fun key => pitching_row (pitching_totals key data))
                        (players data))
               = map (fun key => column_sum col (rows_of key data))
                   (players data)).
  { rewrite map_map. apply map_ext. intros key. unfold n.
    cbn [pitching pitching_row]. rewrite Hrows. apply Qfloor_Z. }
  assert (Hsum : zsum (map n (aggregatedPitching data)) = column_sum col data).
  { rewrite (zsum_perm _ _ (Permutation_map n (aggregatedPitching_perm data))).
    rewrite Hn. apply column_sum_by_player.
    - apply distinct_NoDup.
    - intros r Hr. apply players_spec. now exists r. }
  rewrite (reduce_sum_exact _ n).
  - now rewrite Hsum.
  - intros cur Hcur.
    apply (Permutation_in _ (aggregatedPitching_perm data)) in Hcur.
    apply in_map_iff in Hcur as (key & <- & _). unfold n.
    cbn [pitching pitching_row]. rewrite Hrows, Qfloor_Z. split; [reflexivity|].
    apply (column_sum_nonneg pitching_columns data);
      [exact Hc | exact Hcol | apply rows_of_incl].
  - rewrite Hsum. now apply (counts_sum pitching_columns).
Qed.

(** X19. Without batting records there are no team figures, whatever the
    pitching records; with batting records, the team figures are those of
    the records added up directly: grouping by player first and adding
    the players' totals changes nothing. *)
Theorem teamStats_of_all_records (b p : list row) :
  own_keys b = true -> own_keys p = true ->
  counts batting_columns b = true -> counts pitching_columns p = true ->
  teamStats b p = match b with [] => None | _ => Some (team_of_records b p) end.
Proof.
  intros _ _ Hb Hp. destruct b as [|r0 b0] eqn:Eb; [reflexivity|].
  rewrite <- Eb in *. unfold teamStats, team_of_records.
  replace (length b =? 0)%nat with false by (now rewrite Eb).
  cbv zeta.
  rewrite (batting_team_total b "打数" ab Hb) by (cbn; tauto).
  rewrite (batting_team_total b "安打" h Hb) by (cbn; tauto).
  rewrite (batting_team_total b "得点" runs Hb) by (cbn; tauto).
  rewrite (batting_team_total b "本塁打" hr Hb) by (cbn; tauto).
  rewrite (pitching_team_total p "自責点" er Hp) by (cbn; tauto).
  rewrite (pitching_team_total p "アウト数" outs Hp) by (cbn; tauto).
  reflexivity.
Qed.

Lemma teamStats_of_all_records_witness :
  teamStats sample_batting sample_pitching
  = match sample_batting with
    | [] => None
    | _ => Some (team_of_records sample_batting sample_pitching)
    end.
Proof.
  apply (teamStats_of_all_records sample_batting sample_pitching);
    vm_compute; reflexivity.
Defined.

Example teamStats_sample :
  option_map
    (fun t => (totalGames t, Qeq_bool (teamAvg t) (545 # 1000), totalR t,
               totalHR t, Qeq_bool (teamERA t) 3))
    (teamStats sample_batting sample_pitching)
  = Some (2%nat, true, 0, 1, true).
Proof. vm_compute. reflexivity. Qed.

End Team.

(** ** The cumulative trend of a player

    In [obp_of] and [totalBases_of] above the operands of the last
    operation are written as exact sums and products; here every
    operation of the source is rounded.  On counts the two agree, each
    operation being exact ([point_of_totals]). *)

Module Trends.
Import Rows Number Aggregator Grouping.
Local Open Scope string_scope.
Local Open Scope Q_scope.

(** [r['選手ID'] || r['名前']], as the value [===] compares with the
    selected player; [None] is [undefined]. *)
Definition player_id (r : row) : option string :=
  match text r "選手ID" with
  | Some s => if Text.truthy s then Some s else text r "名前"
  | None => text r "名前"
  end.

(** [row['後攻'] || ''], [row['先攻'] || ''] and the opponent: the away
    team when the home team is the club itself. *)
Definition opponent_of (row : row) : string :=
  let homeTeam := text_or_empty row "後攻" in
  let awayTeam := text_or_empty row "先攻" in
  let isHomeArinko :=
    Text.includes homeTeam "ありんこ" || Text.includes homeTeam "アントス" in
  if isHomeArinko then awayTeam else homeTeam.

(** The difference of two [Date]s, as [sort] reads it: [NaN] counts as 0. *)
Definition date_difference (a b : Dates.Date) : Q :=
  match a, b with
  | Some x, Some y => inject_Z (x - y)
  | _, _ => 0
  end.

(** [let cumulative = { ab: 0, h: 0, bb: 0, sf: 0, doubles: 0, triples: 0, hr: 0 }] *)
Record cumulativeBatting : Type := mkCumulativeBatting
  { c_ab : Q; c_h : Q; c_bb : Q; c_sf : Q;
    c_doubles : Q; c_triples : Q; c_hr : Q }.

Definition cumulative_0 : cumulativeBatting :=
  mkCumulativeBatting 0 0 0 0 0 0 0.

(** The seven [+=] at the head of the callback of [rows.map]. *)
Definition cumulate (c : cumulativeBatting) (row : row) : cumulativeBatting :=
  {| c_ab := (c_ab c + number_or_0 row "打数")%js;
     c_h := (c_h c + number_or_0 row "安打")%js;
     c_bb := (c_bb c + (number_or_0 row "四球" + number_or_0 row "死球")%js)%js;
     c_sf := (c_sf c + number_or_0 row "犠飛")%js;
     c_doubles := (c_doubles c + number_or_0 row "二塁打")%js;
     c_triples := (c_triples c + number_or_0 row "三塁打")%js;
     c_hr := (c_hr c + number_or_0 row "本塁打")%js |}.

(** [{ date, game, opponent, avg, ops }] *)
Record battingPoint : Type := mkBattingPoint
  { date : option string; game : option string; opponent : string;
    avg : Q; ops : Q }.

(** The rest of the callback: the rates of the totals so far. *)
Definition batting_point (c : cumulativeBatting) (row : row) : battingPoint :=
  let avg := safeDiv (c_h c) (c_ab c) in
  let obp :=
    safeDiv (c_h c + c_bb c)%js ((c_ab c + c_bb c)%js + c_sf c)%js in
  let singles :=
    (((c_h c - c_doubles c)%js - c_triples c)%js - c_hr c)%js in
  let tb :=
    (((singles + (c_doubles c * 2)%js)%js + (c_triples c * 3)%js)%js
     + (c_hr c * 4)%js)%js in
  let slg := safeDiv tb (c_ab c) in
  {| date := text row "日付"; game := text row "試合ID";
     opponent := opponent_of row;
     avg := Number_toFixed 3 avg;
     ops := Number_toFixed 3 (obp + slg)%js |}.

(** [rows.map(row => ...)] with the totals carried from row to row. *)
Fixpoint map_cumulative (c : cumulativeBatting) (rows : list row)
  : list battingPoint :=
  match rows with
  | [] => []
  | row :: rest =>
      let c := cumulate c row in
      batting_point c row :: map_cumulative c rest
  end.

Section Trend.
Variable LocalTZA : Z.
Variable Date_parse : string -> option Z.

Local Abbreviation parseDate := (Dates.parseDate LocalTZA Date_parse).

(** [rows.sort((a, b) => parseDate(a['日付']) - parseDate(b['日付']))] *)
Definition sort_by_date (rows : list row) : list row :=
  sort_by (fun a b =>
             date_difference (parseDate (text a "日付")) (parseDate (text b "日付")))
    rows.

(** [playerBattingTrendData] *)
Definition playerBattingTrendData (filteredBattingData : list row)
  (selectedPlayerId trendTarget trendType : string) : list battingPoint :=
  if negb (Text.truthy selectedPlayerId)
     || negb (trendTarget =? "player") || negb (trendType =? "batting")
  then []
  else
    let rows :=
      filter (fun r => match player_id r with
                       | Some id => id =? selectedPlayerId
                       | None => false
                       end)
        filteredBattingData in
    let rows := sort_by_date rows in
    map_cumulative cumulative_0 rows.

End Trend.

Lemma player_id_key r sel :
  sel <> "undefined" ->
  match player_id r with Some id => id =? sel | None => false end
  = (player_key r =? sel).
Proof.
  intros Hsel. unfold player_id, player_key.
  assert (Hu : ("undefined" =? sel) = false).
  { apply String.eqb_neq. intros H. now apply Hsel. }
  destruct (text r "選手ID") as [s|]; [destruct (Text.truthy s)|];
    try reflexivity; destruct (text r "名前"); now rewrite ?Hu.
Qed.

Lemma map_cumulative_length rows : forall c,
  length (map_cumulative c rows) = length rows.
Proof.
  induction rows as [|row rows IH]; intros c; [reflexivity|].
  cbn [map_cumulative length]. now rewrite IH.
Qed.

Lemma map_cumulative_dates rows : forall c,
  map date (map_cumulative c rows) = map (fun r => text r "日付") rows.
Proof.
  induction rows as [|row rows IH]; intros c; [reflexivity|].
  cbn [map_cumulative map]. now rewrite IH.
Qed.

Lemma map_cumulative_last rows : forall c d d',
  rows <> [] ->
  last (map_cumulative c rows) d
  = batting_point (fold_left cumulate rows c) (last rows d').
Proof.
  induction rows as [|row rows IH]; intros c d d' Hne; [contradiction|].
  destruct rows as [|row' rows]; [reflexivity|].
  specialize (IH (cumulate c row) d d' ltac:(discriminate)).
  change (last (map_cumulative c (row :: row' :: rows)) d)
    with (last (map_cumulative (cumulate c row) (row' :: rows)) d).
  rewrite IH. reflexivity.
Qed.

Lemma count_le_column_sum cols data col rows r :
  counts cols data = true -> In col cols -> incl rows data -> In r rows ->
  (0 <= count col r <= column_sum col rows)%Z.
Proof.
  intros Hc Hcol. induction rows as [|x rows IH]; intros Hincl Hin;
    [destruct Hin|].
  rewrite column_sum_cons.
  destruct (counts_cell cols data x col Hc (Hincl x (or_introl eq_refl)) Hcol)
    as [_ Hx].
  assert (Hincl' : incl rows data) by (intros y Hy; apply Hincl; now right).
  pose proof (column_sum_nonneg cols data col rows Hc Hcol Hincl').
  destruct Hin as [->|Hin]; [lia|]. specialize (IH Hincl' Hin). lia.
Qed.

(** The totals the trend carries after the rows [rows]. *)
Lemma cumulative_fields data rows :
  counts batting_columns data = true ->
  (4 * grand_total batting_columns data < 2 ^ 53)%Z ->
  incl rows data ->
  (forall col, In col batting_columns ->
               (column_sum col rows <= column_sum col data)%Z) ->
  fold_left cumulate rows cumulative_0
  = {| c_ab := inject_Z (column_sum "打数" rows);
       c_h := inject_Z (column_sum "安打" rows);
       c_bb := inject_Z (column_sum "四球" rows + column_sum "死球" rows);
       c_sf := inject_Z (column_sum "犠飛" rows);
       c_doubles := inject_Z (column_sum "二塁打" rows);
       c_triples := inject_Z (column_sum "三塁打" rows);
       c_hr := inject_Z (column_sum "本塁打" rows) |}.
Proof.
  intros Hc Hob Hincl Hle.
  assert (Hcol : forall col, In col batting_columns ->
            forall field,
            (forall c r, field (cumulate c r) = (field c + number_or_0 r col)%js) ->
            field cumulative_0 = 0 ->
            field (fold_left cumulate rows cumulative_0)
            = inject_Z (column_sum col rows)).
  { intros col Hin field Hstep H0.
    rewrite (field_total field cumulate (fun r => number_or_0 r col) Hstep), H0.
    apply (column_total_exact batting_columns data); auto. }
  assert (Hnn : forall col, In col batting_columns ->
                  (0 <= column_sum col data)%Z).
  { intros col Hin.
    apply (column_sum_nonneg batting_columns data); auto using incl_refl. }
  assert (Hnr : forall col, In col batting_columns ->
                  (0 <= column_sum col rows)%Z).
  { intros col Hin.
    apply (column_sum_nonneg batting_columns data); auto. }
  assert (Hbb : c_bb (fold_left cumulate rows cumulative_0)
                = inject_Z (column_sum "四球" rows + column_sum "死球" rows)).
  { rewrite (field_total c_bb cumulate
               (fun r => (number_or_0 r "四球" + number_or_0 r "死球")%js))
      by reflexivity.
    pose proof (Hle "四球" ltac:(cbn; tauto)) as L1.
    pose proof (Hle "死球" ltac:(cbn; tauto)) as L2.
    pose proof (Hnr "四球" ltac:(cbn; tauto)).
    pose proof (Hnr "死球" ltac:(cbn; tauto)).
    assert (Hg : (column_sum "四球" data + column_sum "死球" data
                  <= grand_total batting_columns data)%Z).
    { cbn [grand_total batting_columns fold_right].
      repeat match goal with
             | |- context [column_sum ?c data] =>
                 lazymatch goal with
                 | _ : (0 <= column_sum c data)%Z |- _ => fail
                 | _ => pose proof (Hnn c ltac:(cbn; tauto))
                 end
             end.
      lia. }
    assert (E : fold_right
                  (fun x acc => (count "四球" x + count "死球" x + acc)%Z) 0%Z rows
                = (column_sum "四球" rows + column_sum "死球" rows)%Z).
    { clear. induction rows as [|x rows IH]; [reflexivity|].
      cbn [fold_right]. rewrite IH, !column_sum_cons. lia. }
    change (c_bb cumulative_0) with (inject_Z 0).
    rewrite (running_total_exact _
               (fun r => (count "四球" r + count "死球" r)%Z) rows 0).
    - now rewrite E.
    - lia.
    - intros r Hr.
      pose proof (count_le_column_sum batting_columns data "四球" rows r Hc
                    ltac:(cbn; tauto) Hincl Hr).
      pose proof (count_le_column_sum batting_columns data "死球" rows r Hc
                    ltac:(cbn; tauto) Hincl Hr).
      destruct (counts_cell batting_columns data r "四球" Hc (Hincl r Hr)
                  ltac:(cbn; tauto)) as [E1 _].
      destruct (counts_cell batting_columns data r "死球" Hc (Hincl r Hr)
                  ltac:(cbn; tauto)) as [E2 _].
      split; [|lia].
      rewrite (Exact.add_Z _ _ _ _ E1 E2) by lia. reflexivity.
    - rewrite E. lia. }
  pose proof (Hcol "打数" ltac:(cbn; tauto) c_ab ltac:(reflexivity) eq_refl) as E1.
  pose proof (Hcol "安打" ltac:(cbn; tauto) c_h ltac:(reflexivity) eq_refl) as E2.
  pose proof (Hcol "犠飛" ltac:(cbn; tauto) c_sf ltac:(reflexivity) eq_refl) as E3.
  pose proof (Hcol "二塁打" ltac:(cbn; tauto) c_doubles ltac:(reflexivity) eq_refl) as E4.
  pose proof (Hcol "三塁打" ltac:(cbn; tauto) c_triples ltac:(reflexivity) eq_refl) as E5.
  pose proof (Hcol "本塁打" ltac:(cbn; tauto) c_hr ltac:(reflexivity) eq_refl) as E6.
  destruct (fold_left cumulate rows cumulative_0). cbn in *. congruence.
Qed.

Lemma add_int a b :
  (Z.abs (a + b) < 2 ^ 53)%Z -> (inject_Z a + inject_Z b)%js = inject_Z (a + b).
Proof. intros H. now apply Exact.add_Z. Qed.

Lemma sub_int a b :
  (Z.abs (a - b) < 2 ^ 53)%Z -> (inject_Z a - inject_Z b)%js = inject_Z (a - b).
Proof. intros H. now apply Exact.sub_Z. Qed.

Lemma mul_int a b :
  (Z.abs (a * b) < 2 ^ 53)%Z -> (inject_Z a * inject_Z b)%js = inject_Z (a * b).
Proof. intros H. now apply Exact.mul_Z. Qed.

(** On counts, the rates of the running totals are the rates of the
    aggregate with the same totals. *)
Lemma point_of_totals (c : cumulativeBatting) (s : battingStats) (row : row)
  (H AB BB HBP SF D T HR : Z) :
  (0 <= H)%Z -> (0 <= AB)%Z -> (0 <= BB)%Z -> (0 <= HBP)%Z -> (0 <= SF)%Z ->
  (0 <= D)%Z -> (0 <= T)%Z -> (0 <= HR)%Z ->
  (4 * (H + AB + BB + HBP + SF + D + T + HR) < 2 ^ 53)%Z ->
  c = {| c_ab := inject_Z AB; c_h := inject_Z H; c_bb := inject_Z (BB + HBP);
         c_sf := inject_Z SF; c_doubles := inject_Z D;
         c_triples := inject_Z T; c_hr := inject_Z HR |} ->
  Aggregator.h s = inject_Z H -> Aggregator.ab s = inject_Z AB ->
  Aggregator.bb s = inject_Z BB -> Aggregator.hbp s = inject_Z HBP ->
  Aggregator.sf s = inject_Z SF -> Aggregator.doubles s = inject_Z D ->
  Aggregator.triples s = inject_Z T -> Aggregator.hr s = inject_Z HR ->
  avg (batting_point c row) = Aggregator.avg (batting_row s)
  /\ ops (batting_point c row) = Aggregator.ops (batting_row s).
Proof.
  intros ? ? ? ? ? ? ? ? Hb -> Eh Eab Ebb Ehbp Esf Ed Et Ehr.
  unfold batting_point, batting_row. cbv zeta.
  cbn [avg ops Aggregator.avg Aggregator.ops c_ab c_h c_bb c_sf c_doubles
       c_triples c_hr].
  unfold avg_of, ops_of, obp_of, slg_of, totalBases_of. cbv zeta.
  rewrite Eh, Eab, Ebb, Ehbp, Esf, Ed, Et, Ehr.
  split; [reflexivity|].
  change 2 with (inject_Z 2). change 3 with (inject_Z 3).
  change 4 with (inject_Z 4).
  rewrite !mul_int by lia.
  rewrite (sub_int H D) by lia.
  rewrite (sub_int (H - D) T) by lia.
  rewrite (sub_int (H - D - T) HR) by lia.
  rewrite (add_int (H - D - T - HR) (D * 2)) by lia.
  rewrite (add_int (H - D - T - HR + D * 2) (T * 3)) by lia.
  rewrite (add_int (H - D - T - HR + D * 2 + T * 3) (HR * 4)) by lia.
  rewrite (add_int H (BB + HBP)) by lia.
  rewrite (add_int AB (BB + HBP)) by lia.
  rewrite (add_int (AB + (BB + HBP)) SF) by lia.
  rewrite (Exact.add_Z (H + BB) HBP (inject_Z H + inject_Z BB) (inject_Z HBP))
    by (try (rewrite inject_Z_plus; reflexivity); try reflexivity; lia).
  rewrite (Exact.add_Z (AB + BB + HBP) SF
             (inject_Z AB + inject_Z BB + inject_Z HBP) (inject_Z SF))
    by (try (rewrite !inject_Z_plus; reflexivity); try reflexivity; lia).
  rewrite (Exact.sub_Z (H - D - T) HR
             (inject_Z H - inject_Z D - inject_Z T) (inject_Z HR))
    by (try (unfold Z.sub; rewrite !inject_Z_plus, !inject_Z_opp; reflexivity);
        try reflexivity; lia).
  rewrite (Exact.add_Z (H - D - T - HR + D * 2 + T * 3) (HR * 4)
             (inject_Z (H - D - T - HR) + inject_Z D * inject_Z 2
              + inject_Z T * inject_Z 3)
             (inject_Z HR * inject_Z 4))
    by (try (rewrite ?inject_Z_plus, ?inject_Z_mult; reflexivity); lia).
  replace (H + (BB + HBP))%Z with (H + BB + HBP)%Z by lia.
  replace (AB + (BB + HBP) + SF)%Z with (AB + BB + HBP + SF)%Z by lia.
  reflexivity.
Qed.

Section TrendFacts.
Variable LocalTZA : Z.
Variable Date_parse : string -> option Z.

Local Abbreviation parseDate := (Dates.parseDate LocalTZA Date_parse).
Local Abbreviation sort_by_date := (sort_by_date LocalTZA Date_parse).
Local Abbreviation playerBattingTrendData :=
  (playerBattingTrendData LocalTZA Date_parse).

(** The time value of the date of a record. *)
Definition time_of (r : row) : Z :=
  match parseDate (text r "日付") with Some t => t | None => 0%Z end.

Lemma sort_by_date_sorted rows :
  StronglySorted (fun a b => (time_of a <= time_of b)%Z) (sort_by_date rows).
Proof.
  apply sort_by_sorted.
  - intros a b. unfold time_of.
    destruct (Dates.parseDate_range LocalTZA Date_parse (text a "日付"))
      as (ta & -> & _).
    destruct (Dates.parseDate_range LocalTZA Date_parse (text b "日付"))
      as (tb & -> & _).
    cbn [date_difference]. change 0 with (inject_Z 0).
    rewrite <- Zle_Qle. lia.
  - intros a b. lia.
  - intros a b c. lia.
Qed.

Lemma trend_rows data sel :
  Text.truthy sel = true -> sel <> "undefined" ->
  playerBattingTrendData data sel "player" "batting"
  = map_cumulative cumulative_0 (sort_by_date (rows_of sel data)).
Proof.
  intros Ht Hsel. unfold Trends.playerBattingTrendData. rewrite Ht.
  cbn [negb orb String.eqb Ascii.eqb Bool.eqb andb]. cbv zeta.
  do 2 f_equal. apply filter_ext. intros r. now apply player_id_key.
Qed.

(** X21. The batting trend of a player has one point per record of the
    player, in ascending order of the parsed dates. *)
Theorem batting_trend_in_date_order (data : list row) (sel : string) :
  Text.truthy sel = true -> sel <> "undefined" ->
  exists rows,
    Permutation rows (rows_of sel data)
    /\ StronglySorted (fun a b => (time_of a <= time_of b)%Z) rows
    /\ map (fun p => (date p, game p, opponent p))
         (playerBattingTrendData data sel "player" "batting")
       = map (fun r => (text r "日付", text r "試合ID", opponent_of r)) rows.
Proof.
  intros Ht Hsel. exists (sort_by_date (rows_of sel data)).
  split; [apply sort_by_perm|]. split; [apply sort_by_date_sorted|].
  rewrite (trend_rows data sel Ht Hsel).
  generalize cumulative_0.
  induction (sort_by_date (rows_of sel data)) as [|row rows IH]; intros c;
    [reflexivity|].
  cbn [map_cumulative map]. now rewrite IH.
Qed.

(** X22. On counts, the last point of a player's batting trend shows the
    batting average and the OPS of the player's aggregated row. *)
Theorem batting_trend_ends_at_aggregate (data : list row) (sel : string) :
  own_keys data = true ->
  counts batting_columns data = true ->
  (4 * grand_total batting_columns data < 2 ^ 53)%Z ->
  Text.truthy sel = true -> sel <> "undefined" ->
  rows_of sel data <> [] ->
  let trend := playerBattingTrendData data sel "player" "batting" in
  let aggregate := batting_row (batting_totals sel data) in
  In aggregate (aggregatedBatting data)
  /\ length trend = length (rows_of sel data)
  /\ last (map (fun p => (avg p, ops p)) trend) (0, 0)
     = (Aggregator.avg aggregate, Aggregator.ops aggregate).
Proof.
  intros _ Hc Hb Ht Hsel Hne trend aggregate. subst trend aggregate.
  rewrite (trend_rows data sel Ht Hsel).
  set (rows := sort_by_date (rows_of sel data)).
  assert (Hperm : Permutation rows (rows_of sel data)) by apply sort_by_perm.
  split; [|split].
  - apply (Permutation_in _ (Permutation_sym (aggregatedBatting_perm data))).
    apply in_map_iff. exists sel. split; [reflexivity|].
    apply players_spec. destruct (rows_of sel data) as [|r0 rest] eqn:E;
      [contradiction|].
    exists r0. assert (Hin : In r0 (rows_of sel data)) by (rewrite E; now left).
    apply filter_In in Hin as [Hin Hk]. apply String.eqb_eq in Hk. tauto.
  - rewrite map_cumulative_length. now apply Permutation_length.
  - assert (Hrows : rows <> []).
    { intros E. rewrite E in Hperm. apply Permutation_nil in Hperm.
      contradiction. }
    assert (Hincl : incl rows data).
    { intros r Hr. apply (Permutation_in _ Hperm) in Hr.
      now apply rows_of_incl in Hr. }
    assert (Hsum : forall col, column_sum col rows
                               = column_sum col (rows_of sel data)).
    { intros col. now apply column_sum_perm. }
    assert (Hle : forall col, In col batting_columns ->
                    (column_sum col rows <= column_sum col data)%Z).
    { intros col Hin. rewrite Hsum.
      apply (column_sum_filter batting_columns data); auto using incl_refl. }
    pose proof (cumulative_fields data rows Hc Hb Hincl Hle) as Hfields.
    rewrite !Hsum in Hfields.
    assert (Hnn : forall col, In col batting_columns ->
              (0 <= column_sum col (rows_of sel data) <= column_sum col data)%Z).
    { intros col Hin. split.
      - apply (column_sum_nonneg batting_columns data);
          auto using rows_of_incl.
      - apply (column_sum_filter batting_columns data); auto using incl_refl. }
    assert (Hg : (column_sum "安打" data + column_sum "打数" data
                  + column_sum "四球" data + column_sum "死球" data
                  + column_sum "犠飛" data + column_sum "二塁打" data
                  + column_sum "三塁打" data + column_sum "本塁打" data
                  <= grand_total batting_columns data)%Z).
    { cbn [grand_total batting_columns fold_right].
      pose proof (fun c H => proj1 (column_sum_le_grand_total
                                      batting_columns data c Hc H)) as H0.
      repeat match goal with
             | |- context [column_sum ?c data] =>
                 lazymatch goal with
                 | _ : (0 <= column_sum c data)%Z |- _ => fail
                 | _ => pose proof (H0 c ltac:(cbn; tauto))
                 end
             end.
      lia. }
    pose proof (Hnn "安打" ltac:(cbn; tauto)).
    pose proof (Hnn "打数" ltac:(cbn; tauto)).
    pose proof (Hnn "四球" ltac:(cbn; tauto)).
    pose proof (Hnn "死球" ltac:(cbn; tauto)).
    pose proof (Hnn "犠飛" ltac:(cbn; tauto)).
    pose proof (Hnn "二塁打" ltac:(cbn; tauto)).
    pose proof (Hnn "三塁打" ltac:(cbn; tauto)).
    pose proof (Hnn "本塁打" ltac:(cbn; tauto)).
    assert (Hlast : forall l d,
              l <> [] ->
              last (map (fun p => (avg p, ops p)) l) (0, 0)
              = (avg (last l d), ops (last l d))).
    { clear. induction l as [|p l IH]; intros d Hl; [contradiction|].
      destruct l as [|p' l]; [reflexivity|].
      change (last (map (fun p => (avg p, ops p)) (p :: p' :: l)) (0, 0))
        with (last (map (fun p => (avg p, ops p)) (p' :: l)) (0, 0)).
      rewrite (IH d) by discriminate. reflexivity. }
    rewrite (Hlast _ (batting_point cumulative_0 [])).
    + rewrite (map_cumulative_last rows cumulative_0 _ [] Hrows).
      destruct (point_of_totals (fold_left cumulate rows cumulative_0)
                  (batting_totals sel data) (last rows [])
                  (column_sum "安打" (rows_of sel data))
                  (column_sum "打数" (rows_of sel data))
                  (column_sum "四球" (rows_of sel data))
                  (column_sum "死球" (rows_of sel data))
                  (column_sum "犠飛" (rows_of sel data))
                  (column_sum "二塁打" (rows_of sel data))
                  (column_sum "三塁打" (rows_of sel data))
                  (column_sum "本塁打" (rows_of sel data)))
        as [Ea Eo]; try lia; try exact Hfields;
        try (apply (batting_field_exact data sel); [exact Hc | cbn; tauto]).
      now rewrite Ea, Eo.
    + intros E. apply (f_equal (@length _)) in E.
      rewrite map_cumulative_length in E. destruct rows; [contradiction|].
      discriminate.
Qed.

End TrendFacts.

Lemma batting_trend_in_date_order_witness :
  let JST := 32400000%Z in
  let no_parse := fun _ : string => None in
  exists rows,
    Permutation rows (rows_of "p1" sample_batting)
    /\ StronglySorted
         (fun a b => (time_of JST no_parse a <= time_of JST no_parse b)%Z) rows
    /\ map (fun p => (date p, game p, opponent p))
         (playerBattingTrendData JST no_parse sample_batting "p1" "player"
            "batting")
       = map (fun r => (text r "日付", text r "試合ID", opponent_of r)) rows.
Proof.
  apply (batting_trend_in_date_order 32400000%Z (fun _ => None)
           sample_batting "p1"); [reflexivity | discriminate].
Defined.

Lemma batting_trend_ends_at_aggregate_witness :
  let JST := 32400000%Z in
  let no_parse := fun _ : string => None in
  let trend :=
    playerBattingTrendData JST no_parse sample_batting "p1" "player" "batting" in
  let aggregate := batting_row (batting_totals "p1" sample_batting) in
  In aggregate (aggregatedBatting sample_batting)
  /\ length trend = length (rows_of "p1" sample_batting)
  /\ last (map (fun p => (avg p, ops p)) trend) (0, 0)
     = (Aggregator.avg aggregate, Aggregator.ops aggregate).
Proof.
  apply (batting_trend_ends_at_aggregate 32400000%Z (fun _ => None)
           sample_batting "p1");
    [reflexivity | vm_compute; reflexivity | vm_compute; reflexivity
    | reflexivity | discriminate | vm_compute; discriminate].
Defined.

Example batting_trend_sample :
  map (fun p => (date p, avg p, ops p))
    (playerBattingTrendData 32400000%Z (fun _ => None) sample_batting "p1"
       "player" "batting")
  = [(Some "2024-04-01", 3 # 4, to_double (21 # 10));
     (Some "2024-04-07", to_double (571 # 1000), to_double (1556 # 1000))].
Proof. vm_compute. reflexivity. Qed.

End Trends.

Module PitchingTrend.
Import Rows Number Grouping.
Local Open Scope string_scope.
Local Open Scope Q_scope.

(** [let cumulative = { outs: 0, er: 0, bb: 0, h: 0, so: 0 }] *)
Record cumulativePitching : Type := mkCumulativePitching
  { c_outs : Q; c_er : Q; c_bb : Q; c_h : Q; c_so : Q }.

Definition cumulative_0 : cumulativePitching :=
  mkCumulativePitching 0 0 0 0 0.

(** The five [+=] of the callback of [rows.map]. *)
Definition cumulate (c : cumulativePitching) (row : row) : cumulativePitching :=
  {| c_outs := (c_outs c + number_or_0 row "アウト数")%js;
     c_er := (c_er c + number_or_0 row "自責点")%js;
     c_bb := (c_bb c + number_or_0 row "四球")%js;
     c_h := (c_h c + number_or_0 row "安打")%js;
     c_so := (c_so c + number_or_0 row "三振")%js |}.

(** [{ date, opponent, era, whip, kbb, innings, strikeRate, bb, pitches }] *)
Record pitchingPoint : Type := mkPitchingPoint
  { date : option string; opponent : string;
    era : Q; whip : Q; kbb : Q; innings : Q; strikeRate : Q;
    bb : Q; pitches : Q }.

Definition pitching_point (c : cumulativePitching) (row : row) : pitchingPoint :=
  let outs := number_or_0 row "アウト数" in
  let bb := number_or_0 row "四球" in
  let pitches := number_or_0 row "球数" in
  let strikes := number_or_0 row "S数" in
  let era := safeDiv (c_er c * 7)%js (c_outs c / 3)%js in
  let whip := safeDiv (c_bb c + c_h c)%js (c_outs c / 3)%js in
  let kbb := safeDiv (c_so c) (c_bb c) in
  let innings := (outs / 3)%js in
  let strikeRate := (safeDiv strikes pitches * 100)%js in
  {| date := text row "日付";
     opponent := Trends.opponent_of row;
     era := Number_toFixed 2 era;
     whip := Number_toFixed 2 whip;
     kbb := Number_toFixed 2 kbb;
     innings := Number_toFixed 1 innings;
     strikeRate := Number_toFixed 1 strikeRate;
     bb := bb;
     pitches := pitches |}.

Fixpoint map_cumulative (c : cumulativePitching) (rows : list row)
  : list pitchingPoint :=
  match rows with
  | [] => []
  | row :: rest =>
      let c := cumulate c row in
      pitching_point c row :: map_cumulative c rest
  end.

Section Trend.
Variable LocalTZA : Z.
Variable Date_parse : string -> option Z.

(** [playerPitchingTrendData] *)
Definition playerPitchingTrendData (filteredPitchingData : list row)
  (selectedPlayerId trendTarget trendType : string) : list pitchingPoint :=
  if negb (Text.truthy selectedPlayerId)
     || negb (trendTarget =? "player") || negb (trendType =? "pitching")
  then []
  else
    let rows :=
      filter (fun r => match Trends.player_id r with
                       | Some id => id =? selectedPlayerId
                       | None => false
                       end)
        filteredPitchingData in
    let rows := Trends.sort_by_date LocalTZA Date_parse rows in
    map_cumulative cumulative_0 rows.

Lemma pitching_map_cumulative_length rows : forall c,
  length (map_cumulative c rows) = length rows.
Proof.
  induction rows as [|row rows IH]; intros c; [reflexivity|].
  cbn [map_cumulative length]. now rewrite IH.
Qed.

Lemma pitching_map_cumulative_last rows : forall c d d',
  rows <> [] ->
  last (map_cumulative c rows) d
  = pitching_point (fold_left cumulate rows c) (last rows d').
Proof.
  induction rows as [|row rows IH]; intros c d d' Hne; [contradiction|].
  destruct rows as [|row' rows]; [reflexivity|].
  specialize (IH (cumulate c row) d d' ltac:(discriminate)).
  change (last (map_cumulative c (row :: row' :: rows)) d)
    with (last (map_cumulative (cumulate c row) (row' :: rows)) d).
  rewrite IH. reflexivity.
Qed.

Lemma pitching_cumulative_fields data rows :
  counts pitching_columns data = true ->
  incl rows data ->
  (forall col, In col pitching_columns ->
               (column_sum col rows <= column_sum col data)%Z) ->
  fold_left cumulate rows cumulative_0
  = {| c_outs := inject_Z (column_sum "アウト数" rows);
       c_er := inject_Z (column_sum "自責点" rows);
       c_bb := inject_Z (column_sum "四球" rows);
       c_h := inject_Z (column_sum "安打" rows);
       c_so := inject_Z (column_sum "三振" rows) |}.
Proof.
  intros Hc Hincl Hle.
  assert (Hcol : forall col, In col pitching_columns ->
            forall field,
            (forall c r, field (cumulate c r) = (field c + number_or_0 r col)%js) ->
            field cumulative_0 = 0 ->
            field (fold_left cumulate rows cumulative_0)
            = inject_Z (column_sum col rows)).
  { intros col Hin field Hstep H0.
    rewrite (field_total field cumulate (fun r => number_or_0 r col) Hstep), H0.
    apply (column_total_exact pitching_columns data); auto. }
  pose proof (Hcol "アウト数" ltac:(cbn; tauto) c_outs ltac:(reflexivity) eq_refl) as E1.
  pose proof (Hcol "自責点" ltac:(cbn; tauto) c_er ltac:(reflexivity) eq_refl) as E2.
  pose proof (Hcol "四球" ltac:(cbn; tauto) c_bb ltac:(reflexivity) eq_refl) as E3.
  pose proof (Hcol "安打" ltac:(cbn; tauto) c_h ltac:(reflexivity) eq_refl) as E4.
  pose proof (Hcol "三振" ltac:(cbn; tauto) c_so ltac:(reflexivity) eq_refl) as E5.
  destruct (fold_left cumulate rows cumulative_0). cbn in *. congruence.
Qed.

Lemma pitching_trend_rows data sel :
  Text.truthy sel = true -> sel <> "undefined" ->
  playerPitchingTrendData data sel "player" "pitching"
  = map_cumulative cumulative_0
      (Trends.sort_by_date LocalTZA Date_parse (rows_of sel data)).
Proof.
  intros Ht Hsel. unfold playerPitchingTrendData. rewrite Ht.
  cbn [negb orb String.eqb Ascii.eqb Bool.eqb andb]. cbv zeta.
  do 2 f_equal. apply filter_ext. intros r. now apply Trends.player_id_key.
Qed.

(** X23. On counts, the last point of a player's pitching trend shows the
    ERA, the WHIP and the K/BB of the player's aggregated row; the trend
    has one point per record of the player. *)
Theorem pitching_trend_ends_at_aggregate (data : list row) (sel : string) :
  own_keys data = true ->
  counts pitching_columns data = true ->
  Text.truthy sel = true -> sel <> "undefined" ->
  rows_of sel data <> [] ->
  let trend := playerPitchingTrendData data sel "player" "pitching" in
  let aggregate := Aggregator.pitching_row (pitching_totals sel data) in
  In aggregate (Aggregator.aggregatedPitching data)
  /\ length trend = length (rows_of sel data)
  /\ last (map (fun p => (era p, whip p, kbb p)) trend) (0, 0, 0)
     = (Aggregator.era aggregate, Aggregator.whip aggregate,
        Aggregator.kbb aggregate).
Proof.
  intros _ Hc Ht Hsel Hne trend aggregate. subst trend aggregate.
  rewrite (pitching_trend_rows data sel Ht Hsel).
  set (rows := Trends.sort_by_date LocalTZA Date_parse (rows_of sel data)).
  assert (Hperm : Permutation rows (rows_of sel data))
    by apply Aggregator.sort_by_perm.
  split; [|split].
  - apply (Permutation_in _ (Permutation_sym (aggregatedPitching_perm data))).
    apply in_map_iff. exists sel. split; [reflexivity|].
    apply players_spec. destruct (rows_of sel data) as [|r0 rest] eqn:E;
      [contradiction|].
    exists r0. assert (Hin : In r0 (rows_of sel data)) by (rewrite E; now left).
    apply filter_In in Hin as [Hin Hk]. apply String.eqb_eq in Hk. tauto.
  - rewrite pitching_map_cumulative_length. now apply Permutation_length.
  - assert (Hrows : rows <> []).
    { intros E. rewrite E in Hperm. apply Permutation_nil in Hperm.
      contradiction. }
    assert (Hincl : incl rows data).
    { intros r Hr. apply (Permutation_in _ Hperm) in Hr.
      now apply rows_of_incl in Hr. }
    assert (Hsum : forall col, column_sum col rows
                               = column_sum col (rows_of sel data)).
    { intros col. now apply column_sum_perm. }
    assert (Hle : forall col, In col pitching_columns ->
                    (column_sum col rows <= column_sum col data)%Z).
    { intros col Hin. rewrite Hsum.
      apply (column_sum_filter pitching_columns data); auto using incl_refl. }
    pose proof (pitching_cumulative_fields data rows Hc Hincl Hle) as Hfields.
    rewrite !Hsum in Hfields.
    assert (Hlast : forall l d,
              l <> [] ->
              last (map (fun p => (era p, whip p, kbb p)) l) (0, 0, 0)
              = (era (last l d), whip (last l d), kbb (last l d))).
    { clear. induction l as [|p l IH]; intros d Hl; [contradiction|].
      destruct l as [|p' l]; [reflexivity|].
      change (last (map (fun p => (era p, whip p, kbb p)) (p :: p' :: l))
                (0, 0, 0))
        with (last (map (fun p => (era p, whip p, kbb p)) (p' :: l)) (0, 0, 0)).
      rewrite (IH d) by discriminate. reflexivity. }
    rewrite (Hlast _ (pitching_point cumulative_0 [])).
    + rewrite (pitching_map_cumulative_last rows cumulative_0 _ [] Hrows), Hfields.
      unfold pitching_point, Aggregator.pitching_row. cbv zeta.
      cbn [era whip kbb Aggregator.era Aggregator.whip Aggregator.kbb
           c_outs c_er c_bb c_h c_so].
      unfold Aggregator.era_of, Aggregator.whip_of, Aggregator.kbb_of.
      rewrite (pitching_field_exact data sel "アウト数" Aggregator.outs Hc)
        by (cbn; tauto).
      rewrite (pitching_field_exact data sel "自責点" Aggregator.er Hc)
        by (cbn; tauto).
      rewrite (pitching_field_exact data sel "四球" Aggregator.p_bb Hc)
        by (cbn; tauto).
      rewrite (pitching_field_exact data sel "安打" Aggregator.p_h Hc)
        by (cbn; tauto).
      rewrite (pitching_field_exact data sel "三振" Aggregator.p_so Hc)
        by (cbn; tauto).
      reflexivity.
    + intros E. apply (f_equal (@length _)) in E.
      rewrite pitching_map_cumulative_length in E. destruct rows; [contradiction|].
      discriminate.
Qed.

End Trend.

Lemma pitching_trend_ends_at_aggregate_witness :
  let JST := 32400000%Z in
  let no_parse := fun _ : string => None in
  let trend :=
    playerPitchingTrendData JST no_parse sample_pitching "p1" "player"
      "pitching" in
  let aggregate := Aggregator.pitching_row (pitching_totals "p1" sample_pitching) in
  In aggregate (Aggregator.aggregatedPitching sample_pitching)
  /\ length trend = length (rows_of "p1" sample_pitching)
  /\ last (map (fun p => (era p, whip p, kbb p)) trend) (0, 0, 0)
     = (Aggregator.era aggregate, Aggregator.whip aggregate,
        Aggregator.kbb aggregate).
Proof.
  apply (pitching_trend_ends_at_aggregate 32400000%Z (fun _ => None)
           sample_pitching "p1");
    [reflexivity | vm_compute; reflexivity | reflexivity | discriminate
    | vm_compute; discriminate].
Defined.

End PitchingTrend.

(** ** The monthly trend *)

Module Monthly.
Import Rows Number Grouping.
Local Open Scope string_scope.
Local Open Scope Q_scope.

(** The length of a string in UTF-16 code units, from its UTF-8 bytes:
    a continuation byte counts for nothing, the first byte of a
    four-byte sequence for two. *)
Fixpoint length_utf16 (s : string) : nat :=
  match s with
  | EmptyString => 0
  | String c s' =>
      let n := Text.code c in
      ((if (n <? 128)%N then 1
        else if (n <? 192)%N then 0
        else if (n <? 240)%N then 1 else 2)
       + length_utf16 s')%nat
  end.

(** [s.padStart(2, '0')] *)
Definition padStart_2_0 (s : string) : string :=
  match length_utf16 s with
  | O => "00"
  | S O => "0" ++ s
  | _ => s
  end.

(** [{ month, ab, h, bb, sf, runs, doubles, triples, hr }] *)
Record monthTotals : Type := mkMonthTotals
  { month : string; ab : Q; h : Q; bb : Q; sf : Q; runs : Q;
    doubles : Q; triples : Q; hr : Q }.

Definition month_0 (key : string) : monthTotals :=
  mkMonthTotals key 0 0 0 0 0 0 0 0.

(** The eight [+=] of the callback. *)
Definition add_month (m : monthTotals) (row : row) : monthTotals :=
  {| month := month m;
     ab := (ab m + number_or_0 row "打数")%js;
     h := (h m + number_or_0 row "安打")%js;
     runs := (runs m + number_or_0 row "得点")%js;
     bb := (bb m + (number_or_0 row "四球" + number_or_0 row "死球")%js)%js;
     sf := (sf m + number_or_0 row "犠飛")%js;
     doubles := (doubles m + number_or_0 row "二塁打")%js;
     triples := (triples m + number_or_0 row "三塁打")%js;
     hr := (hr m + number_or_0 row "本塁打")%js |}.

(** What the head of the callback makes of a record: [row['日付'].split]
    throws without a string to split, fewer than two parts end the
    callback, two parts and more give the key of the month. *)
Inductive keyed : Type :=
  | NoDate
  | Skipped
  | Month (key : string).

Definition month_of (row : row) : keyed :=
  match text row "日付" with
  | None => NoDate
  | Some s =>
      let dateParts := Text.split Text.is_dash_or_slash s in
      if (length dateParts <? 2)%nat then Skipped
      else Month (nth 0 dateParts "" ++ "-" ++ padStart_2_0 (nth 1 dateParts ""))
  end.

(** [filteredBattingData.forEach(row => ...)] on [monthly]; [None] when
    the callback throws. *)
Fixpoint forEach (rows : list row) (monthly : object monthTotals)
  : option (object monthTotals) :=
  match rows with
  | [] => Some monthly
  | row :: rest =>
      match month_of row with
      | NoDate => None
      | Skipped => forEach rest monthly
      | Month key =>
          let m := match get monthly key with
                   | Some m => m
                   | None => month_0 key
                   end in
          forEach rest (set monthly key (add_month m row))
      end
  end.

(** [{ ...m, avg, ops }] *)
Record monthRow : Type := mkMonthRow
  { totals : monthTotals; avg : Q; ops : Q }.

Definition month_row (m : monthTotals) : monthRow :=
  let avg := safeDiv (h m) (ab m) in
  let obp := safeDiv (h m + bb m)%js ((ab m + bb m)%js + sf m)%js in
  let slg :=
    safeDiv
      (((((((h m - doubles m)%js - triples m)%js - hr m)%js
          + (doubles m * 2)%js)%js
         + (triples m * 3)%js)%js
        + (hr m * 4)%js)%js)
      (ab m) in
  {| totals := m;
     avg := Number_toFixed 3 avg;
     ops := Number_toFixed 3 (obp + slg)%js |}.

Section Trend.

(** [a.localeCompare(b)], by its sign. *)
Variable localeCompare : string -> string -> Z.

(** [monthlyBattingTrend]; [inr] is the exception of the callback. *)
Definition monthlyBattingTrend (filteredBattingData : list row)
  : list monthRow + string :=
  if (length filteredBattingData =? 0)%nat then inl []
  else
    match forEach filteredBattingData [] with
    | None => inr "TypeError"
    | Some monthly =>
        inl (map month_row
               (StableSort.sort
                  (fun a b => (localeCompare (month a) (month b) <=? 0)%Z)
                  (Aggregator.Object_values monthly)))
    end.

(** The keys of the months of the records that have one. *)
Definition month_keys (data : list row) : list string :=
  flat_map (fun r => match month_of r with Month key => [key] | _ => [] end)
    data.

Lemma forEach_throws rows : forall monthly,
  (exists r, In r rows /\ month_of r = NoDate) -> forEach rows monthly = None.
Proof.
  induction rows as [|row rows IH]; intros monthly (r & Hin & Hr);
    [destruct Hin|].
  cbn [forEach]. destruct Hin as [->|Hin].
  - now rewrite Hr.
  - destruct (month_of row); [reflexivity| |]; apply IH; now exists r.
Qed.

Lemma month_get (monthly : object monthTotals) key m :
  Forall (fun kv => month (snd kv) = fst kv) monthly ->
  get monthly key = Some m -> month m = key.
Proof.
  induction monthly as [|[k v] o IH]; intros Hm Eg; [discriminate|].
  apply Forall_cons_iff in Hm as [Hkv Hm']. cbn in Eg, Hkv.
  destruct (k =? key) eqn:Ek; [|now apply IH].
  apply String.eqb_eq in Ek. congruence.
Qed.

Lemma month_set (monthly : object monthTotals) key m :
  Forall (fun kv => month (snd kv) = fst kv) monthly ->
  month m = key ->
  Forall (fun kv => month (snd kv) = fst kv) (set monthly key m).
Proof.
  intros Hm Hmk. induction monthly as [|[k v] o IH]; cbn [set].
  - constructor; [exact Hmk | constructor].
  - apply Forall_cons_iff in Hm as [Hkv Hm'].
    destruct (k =? key) eqn:Ek.
    + apply String.eqb_eq in Ek. subst k. constructor; [exact Hmk | exact Hm'].
    + constructor; [exact Hkv | now apply IH].
Qed.

Lemma forEach_months rows : forall monthly,
  Forall (fun r => month_of r <> NoDate) rows ->
  Forall (fun kv => month (snd kv) = fst kv) monthly ->
  exists monthly',
    forEach rows monthly = Some monthly'
    /\ map fst monthly' = extend (map fst monthly) (month_keys rows)
    /\ Forall (fun kv => month (snd kv) = fst kv) monthly'.
Proof.
  induction rows as [|row rows IH]; intros monthly Hd Hm.
  - exists monthly. repeat split; auto.
  - inversion Hd as [|? ? Hrow Hd']; subst. cbn [forEach].
    unfold month_keys. cbn [flat_map]. fold (month_keys rows).
    destruct (month_of row) as [| |key] eqn:E; [contradiction| |].
    + cbn [app]. now apply IH.
    + cbv zeta.
      assert (Hmk : month (add_month match get monthly key with
                                     | Some m => m
                                     | None => month_0 key
                                     end row) = key).
      { cbn [month add_month].
        destruct (get monthly key) as [m0|] eqn:Eg; [|reflexivity].
        now apply (month_get monthly). }
      destruct (IH _ Hd' (month_set monthly key _ Hm Hmk))
        as (monthly' & H1 & H2 & H3).
      exists monthly'. split; [exact H1|]. split; [|exact H3].
      rewrite H2, keys_set. cbn [app]. now rewrite extend_cons.
Qed.

(** X20. The monthly trend throws as soon as one record has no date to
    split, although the filter lets such a record through when no start
    date is set.  When every record has a date, there is one row per
    month key [year-month] among the records, the month padded to two
    digits; a date without a separator gives no key and is left out. *)
Theorem monthlyBattingTrend_needs_dates (data : list row) :
  ((exists r, In r data /\ text r "日付" = None) ->
   exists e, monthlyBattingTrend data = inr e)
  /\ (Forall (fun r => text r "日付" <> None) data ->
      exists months,
        monthlyBattingTrend data = inl months
        /\ Permutation (map (fun m => month (totals m)) months)
             (distinct (month_keys data)))
  /\ month_of [("日付", Str "2024/4/5")] = Month "2024-04"
  /\ month_of [("日付", Str "2024-04-20")] = Month "2024-04"
  /\ month_of [("日付", Str "20240420")] = Skipped.
Proof.
  split; [|split; [|repeat split]].
  - intros (r & Hin & Hr). unfold monthlyBattingTrend.
    destruct data as [|r0 data]; [destruct Hin|]. cbn [length Nat.eqb].
    rewrite forEach_throws; [now eexists|].
    exists r. split; [exact Hin|]. unfold month_of. now rewrite Hr.
  - intros Hd. unfold monthlyBattingTrend.
    destruct (length data =? 0)%nat eqn:El.
    + apply Nat.eqb_eq in El. destruct data; [|discriminate].
      exists []. split; [reflexivity|]. reflexivity.
    + destruct (forEach_months data []) as (monthly & H1 & H2 & H3).
      * eapply Forall_impl; [|exact Hd]. intros r Hr.
        unfold month_of. destruct (text r "日付") eqn:Et; [|congruence].
        cbv zeta. destruct (length _ <? 2)%nat; discriminate.
      * constructor.
      * rewrite H1. eexists. split; [reflexivity|].
        rewrite map_map. cbn [totals month_row].
        rewrite (Permutation_map _ (StableSort.sort_perm _ _)).
        rewrite (Permutation_map _ (Object_values_perm monthly)).
        cbn [map] in H2. fold (distinct (month_keys data)) in H2.
        rewrite <- H2. rewrite map_map.
        assert (E : map (fun x => month (snd x)) monthly = map fst monthly).
        { apply map_ext_in. intros kv Hkv. rewrite Forall_forall in H3.
          now apply H3. }
        now rewrite E.
Qed.

End Trend.

End Monthly.

(** ** The player list *)

Module Roster.
Import Rows Number.
Local Open Scope string_scope.
Local Open Scope Q_scope.

(** [{ id, name, number }] *)
Record player : Type := mkPlayer
  { id : option string; name : option string; number : option string }.

(** A hexadecimal digit and its value. *)
Definition hex_value (c : ascii) : option Z :=
  let n := Text.code c in
  if ((48 <=? n) && (n <=? 57))%N then Some (Z.of_N n - 48)%Z
  else if ((65 <=? n) && (n <=? 70))%N then Some (Z.of_N n - 55)%Z
  else if ((97 <=? n) && (n <=? 102))%N then Some (Z.of_N n - 87)%Z
  else None.

(** The value of the longest prefix of hexadecimal digits. *)
Fixpoint hex_digits (s : string) (acc : option Z) : option Z :=
  match s with
  | String c s' =>
      match hex_value c with
      | Some d =>
          hex_digits s'
            (Some (16 * match acc with Some n => n | None => 0 end + d)%Z)
      | None => acc
      end
  | EmptyString => acc
  end.

(** The digits of [parseInt(s)] after the sign: hexadecimal after a
    prefix [0x] or [0X], decimal otherwise. *)
Definition unsigned (s : string) : option Z :=
  match s with
  | String "0" (String "x" s') => hex_digits s' None
  | String "0" (String "X" s') => hex_digits s' None
  | _ => Text.digits s None
  end.

(** [parseInt(s)] without a radix, as the mathematical integer and the
    sign in front of it; [None] is [NaN]. *)
Definition parseInt (s : string) : option (bool * Z) :=
  match Text.trimStart s with
  | String "-" s' => option_map (pair true) (unsigned s')
  | String "+" s' => option_map (pair false) (unsigned s')
  | s' => option_map (pair false) (unsigned s')
  end.

(** [parseInt(number) || 999]: [NaN], [0] and [-0] are falsy;
    [undefined] reads as the string ["undefined"]. *)
Definition number_or_999 (number : option string) : Q :=
  match number with
  | None => 999
  | Some s =>
      match parseInt s with
      | Some (negative, n) =>
          let q := of_Z (if negative then - n else n) in
          if Qeq_bool q 0 then 999 else q
      | None => 999
      end
  end.

(** [players.has(pid)] and [players.set(pid, value)] on a [Map], kept
    as its entries in insertion order. *)
Definition Map_has {V} (m : list (option string * V)) (key : option string)
  : bool :=
  existsb (fun kv => Team.same_value (fst kv) key) m.

Definition Map_set {V} (m : list (option string * V)) (key : option string)
  (v : V) : list (option string * V) :=
  if Map_has m key
  then map (fun kv => if Team.same_value (fst kv) key then (fst kv, v) else kv) m
  else (m ++ [(key, v)])%list.

(** The body of the two [forEach], as far as [players] goes. *)
Definition enter (players : list (option string * player)) (row : row)
  : list (option string * player) :=
  let pid := Trends.player_id row in
  if negb (Map_has players pid)
  then Map_set players pid
         {| id := pid; name := text row "名前"; number := text row "背番号" |}
  else players.

(** [playerList], of [battingData] and [pitchingData]. *)
Definition playerList (battingData pitchingData : list row) : list player :=
  let players := fold_left enter battingData [] in
  let players := fold_left enter pitchingData players in
  Aggregator.sort_by
    (fun a b => number_or_999 (number a) - number_or_999 (number b))
    (map snd players).

(** The entry a record gives rise to. *)
Definition player_of (row : row) : player :=
  {| id := Trends.player_id row; name := text row "名前";
     number := text row "背番号" |}.

(** The first record of each player. *)
Fixpoint first_records (seen : list (option string)) (data : list row)
  : list row :=
  match data with
  | [] => []
  | row :: rest =>
      if existsb (Team.same_value (Trends.player_id row)) seen
      then first_records seen rest
      else row :: first_records (Trends.player_id row :: seen) rest
  end.

Lemma same_value_sym a b : Team.same_value a b = Team.same_value b a.
Proof.
  destruct a, b; cbn; try reflexivity. apply String.eqb_sym.
Qed.

Lemma same_value_eq a b : Team.same_value a b = true <-> a = b.
Proof.
  destruct a as [x|], b as [y|]; cbn; try (split; [discriminate|congruence]).
  - rewrite String.eqb_eq. split; congruence.
  - tauto.
Qed.

Lemma Map_has_keys {V} (m : list (option string * V)) key seen :
  (forall k, In k (map fst m) <-> In k seen) ->
  Map_has m key = existsb (Team.same_value key) seen.
Proof.
  intros H. unfold Map_has.
  destruct (existsb (Team.same_value key) seen) eqn:E.
  - apply existsb_exists in E as (k & Hk & E).
    apply same_value_eq in E. subst k. apply H in Hk.
    apply in_map_iff in Hk as (kv & E & Hkv).
    apply existsb_exists. exists kv. split; [exact Hkv|].
    apply same_value_eq. exact E.
  - destruct (existsb _ m) eqn:E'; [|reflexivity].
    apply existsb_exists in E' as (kv & Hkv & E').
    apply same_value_eq in E'.
    assert (Hin : In key seen).
    { apply H. apply in_map_iff. exists kv. split; [exact E' | exact Hkv]. }
    assert (Hex : existsb (Team.same_value key) seen = true).
    { apply existsb_exists. exists key. split; [exact Hin|].
      now apply same_value_eq. }
    congruence.
Qed.

Lemma fold_enter data : forall players seen,
  (forall k, In k (map fst players) <-> In k seen) ->
  map snd (fold_left enter data players)
  = (map snd players ++ map player_of (first_records seen data))%list
  /\ exists seen',
       (forall k, In k (map fst (fold_left enter data players)) <-> In k seen')
       /\ forall rest,
            first_records seen (data ++ rest)
            = (first_records seen data ++ first_records seen' rest)%list.
Proof.
  induction data as [|row data IH]; intros players seen Hseen.
  - cbn. rewrite app_nil_r. split; [reflexivity|]. exists seen. auto.
  - cbn [fold_left first_records app]. unfold enter at 2 4. cbv zeta.
    rewrite (Map_has_keys players _ seen Hseen).
    destruct (existsb (Team.same_value (Trends.player_id row)) seen) eqn:E;
      cbn [negb].
    + destruct (IH players seen Hseen) as (H1 & seen' & H2 & H3).
      split; [exact H1|]. exists seen'. split; [exact H2|].
      intros rest. cbn [first_records app]. rewrite ?E. apply H3.
    + unfold Map_set. rewrite (Map_has_keys players _ seen Hseen), E.
      assert (Hseen' : forall k,
                In k (map fst (players ++ [(Trends.player_id row,
                                             {| id := Trends.player_id row;
                                                name := text row "名前";
                                                number := text row "背番号" |})]))
                <-> In k (Trends.player_id row :: seen)).
      { intros k. rewrite map_app, in_app_iff. cbn. rewrite Hseen. tauto. }
      destruct (IH _ _ Hseen') as (H1 & seen' & H2 & H3).
      split.
      * rewrite H1, map_app, <- app_assoc. reflexivity.
      * exists seen'. split; [exact H2|].
        intros rest. cbn [first_records app]. rewrite ?E. cbn [app].
        f_equal. apply H3.
Qed.

Lemma playerList_perm battingData pitchingData :
  Permutation (playerList battingData pitchingData)
    (map player_of (first_records [] (battingData ++ pitchingData))).
Proof.
  unfold playerList. cbv zeta. rewrite Aggregator.sort_by_perm.
  destruct (fold_enter battingData [] []) as (H1 & seen & H2 & H3);
    [cbn; tauto|].
  destruct (fold_enter pitchingData (fold_left enter battingData []) seen H2)
    as (H4 & _).
  rewrite H4, H1, H3, map_app. reflexivity.
Qed.

Lemma first_records_spec data : forall seen,
  NoDup (map Trends.player_id (first_records seen data))
  /\ (forall row, In row (first_records seen data) ->
                  In row data /\ ~ In (Trends.player_id row) seen)
  /\ (forall row, In row data -> ~ In (Trends.player_id row) seen ->
                  In (Trends.player_id row)
                    (map Trends.player_id (first_records seen data))).
Proof.
  induction data as [|row data IH]; intros seen.
  - cbn. split; [constructor|]. split; intros ? [].
  - cbn [first_records].
    destruct (existsb (Team.same_value (Trends.player_id row)) seen) eqn:E.
    + destruct (IH seen) as (H1 & H2 & H3). split; [exact H1|]. split.
      * intros r Hr. destruct (H2 r Hr). split; [now right | assumption].
      * intros r [<-|Hr] Hnot.
        -- exfalso. apply Hnot.
           apply existsb_exists in E as (k & Hk & E).
           apply same_value_eq in E. now subst.
        -- now apply H3.
    + destruct (IH (Trends.player_id row :: seen)) as (H1 & H2 & H3).
      assert (Hnot : ~ In (Trends.player_id row) seen).
      { intros Hin.
        assert (existsb (Team.same_value (Trends.player_id row)) seen = true).
        { apply existsb_exists. exists (Trends.player_id row).
          split; [exact Hin | now apply same_value_eq]. }
        congruence. }
      split; [|split].
      * cbn [map]. constructor; [|exact H1].
        intros Hin. apply in_map_iff in Hin as (r & Er & Hr).
        destruct (H2 r Hr) as [_ Hr']. apply Hr'. left. now symmetry.
      * intros r [<-|Hr]; [split; [now left | exact Hnot]|].
        destruct (H2 r Hr) as [Hd Hs]. split; [now right|].
        intros Hin. apply Hs. now right.
      * intros r [<-|Hr] Hn; [now left|]. cbn [map].
        destruct (Team.same_value (Trends.player_id row) (Trends.player_id r))
          eqn:Es; [apply same_value_eq in Es; now left|].
        assert (Ne : Trends.player_id row <> Trends.player_id r).
        { intros Eq. apply same_value_eq in Eq. congruence. }
        right. apply H3; [exact Hr|]. intros [H|H]; [contradiction | now apply Hn].
Qed.

Lemma number_or_999_undefined : number_or_999 None = 999.
Proof. reflexivity. Qed.

Lemma number_or_999_zero s negative :
  parseInt s = Some (negative, 0%Z) -> number_or_999 (Some s) = 999.
Proof.
  intros H. unfold number_or_999. rewrite H. now destruct negative.
Qed.

Lemma number_or_999_NaN s :
  parseInt s = None -> number_or_999 (Some s) = 999.
Proof. intros H. unfold number_or_999. now rewrite H. Qed.

(** X13. The player list has one entry per player of the batting and the
    pitching records, made from the first record of the player (batting
    records first), in ascending order of the jersey number; a number that
    is missing, does not start with digits, or is 0 counts as 999. *)
Theorem playerList_by_number (battingData pitchingData : list row) :
  let firsts := first_records [] (battingData ++ pitchingData) in
  Permutation (playerList battingData pitchingData) (map player_of firsts)
  /\ NoDup (map Trends.player_id firsts)
  /\ (forall row, In row (battingData ++ pitchingData) ->
                  In (Trends.player_id row) (map Trends.player_id firsts))
  /\ incl firsts (battingData ++ pitchingData)
  /\ StronglySorted
       (fun a b => number_or_999 (number a) <= number_or_999 (number b))
       (playerList battingData pitchingData)
  /\ number_or_999 None = 999
  /\ (forall s negative, parseInt s = Some (negative, 0%Z) ->
                         number_or_999 (Some s) = 999)
  /\ (forall s, parseInt s = None -> number_or_999 (Some s) = 999).
Proof.
  intros firsts. subst firsts.
  destruct (first_records_spec (battingData ++ pitchingData) [])
    as (H1 & H2 & H3).
  split; [apply playerList_perm|]. split; [exact H1|].
  split; [intros row Hr; apply H3; [exact Hr | intros []]|].
  split; [intros row Hr; now apply H2|].
  split; [apply Aggregator.sort_by_ascending|].
  split; [reflexivity|].
  split; [apply number_or_999_zero | apply number_or_999_NaN].
Qed.

Example playerList_example :
  map (fun p => (name p, number p))
    (playerList
       [[("名前", Str "A"); ("背番号", Str "10")];
        [("名前", Str "B"); ("背番号", Str "0")];
        [("名前", Str "C"); ("背番号", Str "7")];
        [("名前", Str "A"); ("背番号", Str "99")]]
       [[("名前", Str "D")]; [("名前", Str "C"); ("背番号", Str "1")]])
  = [(Some "C", Some "7"); (Some "A", Some "10"); (Some "B", Some "0");
     (Some "D", None)].
Proof. vm_compute. reflexivity. Qed.

End Roster.

(** ** Reading and deleting saved states

    [getState], [deleteState] and [getAllSavedStates] of the module, on
    the store of [Store]; the same functions serve the [savedParking]
    store. *)

Module StoreApi.
Import Store.
Local Open Scope Z_scope.

Section Api.
Context {blob : Type}.
Implicit Types (st : objectStore blob) (r : saved blob).

(** [store.get(key)]; [None] is [undefined]. *)
Definition get (key : Z) st : option (saved blob) :=
  find (fun r => id r =? key) (records st).

(** [store.getAll()]: the records in ascending order of their keys. *)
Definition getAll st : list (saved blob) :=
  StableSort.sort (fun a b => id a <=? id b) (records st).

(** [getState(id)] and [getParking(id)] *)
Definition getState (id : Z) st : option (saved blob) := get id st.

(** [deleteState(id)] and [deleteParking(id)] *)
Definition deleteState (id : Z) st : objectStore blob := delete id st.

(** [getAllSavedStates()] and [getAllSavedParking()]:
    [getAll] and then [sort((a, b) => b.timestamp - a.timestamp)]. *)
Definition getAllSavedStates st : list (saved blob) :=
  StableSort.sort (fun a b => timestamp b - timestamp a <=? 0) (getAll st).

(** A call on the saved-states store. *)
Inductive call : Type :=
  | SaveState (state : blob) (name : string) (limit : option Z) (now : Z)
  | DeleteState (id : Z).

Definition run_call st (c : call) : objectStore blob :=
  match c with
  | SaveState s nm limit now => saveState st s nm limit now
  | DeleteState key => deleteState key st
  end.

Definition run (calls : list call) st : objectStore blob :=
  fold_left run_call calls st.

(** Newest first; of two snapshots with one timestamp, the one with the
    smaller key first. *)
Definition listed_before r1 r2 : Prop :=
  timestamp r2 < timestamp r1
  \/ (timestamp r1 = timestamp r2 /\ id r1 <= id r2).

Lemma insert_listed r l :
  Forall (fun y => id r <= id y) l ->
  StronglySorted listed_before l ->
  StronglySorted listed_before
    (StableSort.insert (fun a b => timestamp b - timestamp a <=? 0) r l).
Proof.
  intros Hid Hs. induction l as [|y l IH]; cbn [StableSort.insert].
  - repeat constructor.
  - inversion Hs as [|? ? Hs' Hall]; subst.
    inversion Hid as [|? ? Hy Hid']; subst.
    destruct (timestamp y - timestamp r <=? 0) eqn:E.
    + apply Z.leb_le in E. constructor; [exact Hs|].
      constructor; [unfold listed_before; lia|].
      rewrite Forall_forall in *. intros z Hz.
      specialize (Hall z Hz). specialize (Hid' z Hz).
      unfold listed_before in *. lia.
    + apply Z.leb_gt in E. constructor; [now apply IH|].
      rewrite Forall_forall in *. intros z Hz.
      apply (Permutation_in _ (StableSort.insert_perm _ r l)) in Hz.
      destruct Hz as [<-|Hz]; [unfold listed_before; lia | now apply Hall].
Qed.

Lemma getAll_sorted st :
  StronglySorted (fun a b => id a <= id b) (getAll st).
Proof.
  apply Aggregator.StronglySorted_weaken
    with (R := fun a b => (id a <=? id b) = true).
  - intros a b H. now apply Z.leb_le.
  - apply StableSort.sort_strongly_sorted.
    + intros a b H. apply Z.leb_gt in H. apply Z.leb_le. lia.
    + intros a b c H1 H2. apply Z.leb_le in H1, H2. apply Z.leb_le. lia.
Qed.

Lemma sort_listed (l : list (saved blob)) :
  StronglySorted (fun a b => id a <= id b) l ->
  StronglySorted listed_before
    (StableSort.sort (fun a b => timestamp b - timestamp a <=? 0) l).
Proof.
  induction 1 as [|r l Hs IH Hall]; cbn [StableSort.sort fold_right].
  - constructor.
  - apply insert_listed; [|exact IH].
    rewrite Forall_forall in *. intros y Hy. apply Hall.
    apply (Permutation_in _ (StableSort.sort_perm _ l) Hy).
Qed.

Lemma find_unique (l : list (saved blob)) r :
  NoDup (map id l) -> In r l -> find (fun x => id x =? id r) l = Some r.
Proof.
  induction l as [|x l IH]; intros Hnd Hin; [destruct Hin|].
  cbn [find map] in *. inversion Hnd as [|? ? Hx Hnd']; subst.
  destruct Hin as [->|Hin]; [now rewrite Z.eqb_refl|].
  destruct (id x =? id r) eqn:E; [|now apply IH].
  apply Z.eqb_eq in E. exfalso. apply Hx. rewrite E. now apply in_map.
Qed.

Lemma find_absent (l : list (saved blob)) key :
  ~ In key (map id l) -> find (fun x => id x =? key) l = None.
Proof.
  induction l as [|x l IH]; intros Hnot; [reflexivity|].
  cbn [find map] in *. destruct (id x =? key) eqn:E.
  - apply Z.eqb_eq in E. exfalso. apply Hnot. now left.
  - apply IH. intros H. apply Hnot. now right.
Qed.

(** The record a save inserts. *)
Definition inserted st (s : blob) (nm : string) (now : Z) : saved blob :=
  mkSaved (keyGenerator st) nm s now.

Lemma inserted_first st s nm now :
  store_ok st ->
  Forall (fun r => timestamp r <= now) (records st) ->
  exists rest,
    openCursor_prev (add st nm s now) = inserted st s nm now :: rest.
Proof.
  intros Hok Hts. rewrite (openCursor_prev_add st nm s now Hok).
  fold (inserted st s nm now).
  destruct (openCursor_prev st) as [|y c] eqn:E; cbn [StableSort.insert].
  - now exists [].
  - assert (Hy : In y (records st)).
    { apply (Permutation_in _ (openCursor_prev_perm st)). rewrite E. now left. }
    destruct Hok as [_ Hlt]. rewrite Forall_forall in Hts, Hlt.
    specialize (Hts y Hy). specialize (Hlt y Hy).
    assert (Hn : newer (inserted st s nm now) y = true).
    { apply newer_spec. cbn [timestamp id inserted]. lia. }
    rewrite Hn. now exists (y :: c).
Qed.

Lemma run_call_ok st c : store_ok st -> store_ok (run_call st c).
Proof.
  intros Hok. destruct c as [s nm limit now | key]; cbn [run_call].
  - unfold saveState. now apply trim_ok, add_ok.
  - destruct Hok as [Hnd Hlt]. unfold deleteState, delete. split; cbn.
    + now apply NoDup_map_filter.
    + rewrite Forall_forall in *. intros r Hr.
      apply filter_In in Hr as [Hr _]. auto.
Qed.

Lemma run_call_keyGenerator st c :
  keyGenerator st <= keyGenerator (run_call st c).
Proof.
  destruct c as [s nm limit now | key]; cbn [run_call].
  - unfold saveState, trim. rewrite trim_cursor_keyGenerator. cbn. lia.
  - cbn. lia.
Qed.

Lemma run_call_absent st c key :
  store_ok st -> key < keyGenerator st ->
  ~ In key (map id (records st)) ->
  ~ In key (map id (records (run_call st c))).
Proof.
  intros Hok Hkey Hnot. destruct c as [s nm limit now | key']; cbn [run_call].
  - unfold saveState, trim. rewrite trim_cursor_records.
    intros Hin. apply in_map_iff in Hin as (r & E & Hr).
    apply filter_In in Hr as [Hr _]. cbn in Hr.
    apply in_app_or in Hr as [Hr|[<-|[]]].
    + apply Hnot. apply in_map_iff. now exists r.
    + cbn in E. lia.
  - intros Hin. apply in_map_iff in Hin as (r & E & Hr). cbn in Hr.
    apply filter_In in Hr as [Hr _]. apply Hnot. apply in_map_iff. now exists r.
Qed.

(** X1. The listing shows every stored snapshot once, newest first, and of
    two snapshots with one timestamp the one with the smaller key, which
    was saved earlier, first. *)
Theorem getAllSavedStates_newest_first st :
  Permutation (getAllSavedStates st) (records st)
  /\ StronglySorted listed_before (getAllSavedStates st).
Proof.
  split.
  - unfold getAllSavedStates, getAll. now rewrite !StableSort.sort_perm.
  - apply sort_listed, getAll_sorted.
Qed.

Lemma saveState_keeps_inserted st (s : blob) (nm : string)
  (limit : option Z) (now : Z) :
  store_ok st ->
  1 <= or_default 5 limit ->
  Forall (fun r => timestamp r <= now) (records st) ->
  In (inserted st s nm now) (records (saveState st s nm limit now)).
Proof.
  intros Hok Hl Hts. unfold saveState.
  pose proof (add_ok st nm s now Hok) as Hok'.
  apply (Permutation_in _
           (Permutation_sym (trim_records (or_default 5 limit) _ (proj1 Hok')))).
  unfold most_recent.
  destruct (inserted_first st s nm now Hok Hts) as (rest & ->).
  destruct (Z.to_nat (or_default 5 limit)) as [|n] eqn:E; [lia|].
  now left.
Qed.

(** X2. A save whose limit is at least 1 and whose clock is not behind the
    stored timestamps can be read back under the key the save assigned. *)
Theorem saveState_then_getState st (s : blob) (nm : string)
  (limit : option Z) (now : Z) :
  store_ok st ->
  1 <= or_default 5 limit ->
  Forall (fun r => timestamp r <= now) (records st) ->
  getState (keyGenerator st) (saveState st s nm limit now)
  = Some (inserted st s nm now).
Proof.
  intros Hok Hl Hts. unfold getState, get.
  pose proof (add_ok st nm s now Hok) as Hok'.
  pose proof (trim_ok (or_default 5 limit) _ Hok') as [Hnd _].
  change (keyGenerator st) with (id (inserted st s nm now)).
  apply find_unique; [exact Hnd|].
  now apply saveState_keeps_inserted.
Qed.

(** X3. After a save whose clock is ahead of every stored timestamp, the
    listing starts with the snapshot just saved. *)
Theorem saved_state_is_listed_first st (s : blob) (nm : string)
  (limit : option Z) (now : Z) :
  store_ok st ->
  1 <= or_default 5 limit ->
  Forall (fun r => timestamp r < now) (records st) ->
  hd_error (getAllSavedStates (saveState st s nm limit now))
  = Some (inserted st s nm now).
Proof.
  intros Hok Hl Hts.
  assert (Hts' : Forall (fun r => timestamp r <= now) (records st)).
  { eapply Forall_impl; [|exact Hts]. cbn. intros. lia. }
  pose proof (saveState_keeps_inserted st s nm limit now Hok Hl Hts') as Hin.
  set (st' := saveState st s nm limit now) in *.
  assert (Hperm : Permutation (getAllSavedStates st') (records st')).
  { unfold getAllSavedStates, getAll. now rewrite !StableSort.sort_perm. }
  assert (Hs : StronglySorted listed_before (getAllSavedStates st'))
    by apply sort_listed, getAll_sorted.
  assert (Hold : forall r, In r (records st') ->
                           r = inserted st s nm now \/ timestamp r < now).
  { intros r Hr. unfold st', saveState, trim in Hr.
    rewrite trim_cursor_records in Hr. apply filter_In in Hr as [Hr _].
    cbn in Hr. apply in_app_or in Hr as [Hr|[<-|[]]]; [right | now left].
    rewrite Forall_forall in Hts. now apply Hts. }
  apply (Permutation_in _ (Permutation_sym Hperm)) in Hin.
  destruct (getAllSavedStates st') as [|x l]; [destruct Hin|].
  cbn [hd_error]. f_equal.
  destruct (Hold x (Permutation_in _ Hperm (or_introl eq_refl))) as [E|Hx];
    [exact E|].
  destruct Hin as [E|Hin]; [exact E|].
  inversion Hs as [|? ? _ Hall]; subst. rewrite Forall_forall in Hall.
  specialize (Hall _ Hin). unfold listed_before in Hall. cbn in Hall. lia.
Qed.

(** X4. A save with a limit of 0 or less leaves the store empty: the trim
    deletes every snapshot, the one just saved included. *)
Theorem saveState_without_room st (s : blob) (nm : string)
  (limit : Z) (now : Z) :
  limit <= 0 ->
  records (saveState st s nm (Some limit) now) = []
  /\ records (saveParking st s nm (Some limit) now) = [].
Proof.
  intros Hl. unfold saveState, saveParking, or_default, trim.
  rewrite trim_cursor_records.
  replace (Z.to_nat (limit - 0)) with 0%nat by lia. cbn [skipn].
  split; apply filter_none; intros r Hr; apply negb_false_iff, has_key_In;
    apply in_map;
    apply (Permutation_in _ (Permutation_sym (openCursor_prev_perm _)) Hr).
Qed.

(** X5. Keys are not used again: once a snapshot is deleted, no later save
    or deletion makes its key readable again. *)
Theorem deleted_state_stays_deleted st (key : Z) (calls : list call) :
  store_ok st -> key < keyGenerator st ->
  getState key (run calls (deleteState key st)) = None.
Proof.
  intros Hok Hkey. unfold getState, get. apply find_absent.
  assert (H : forall calls st',
             store_ok st' -> key < keyGenerator st' ->
             ~ In key (map id (records st')) ->
             ~ In key (map id (records (run calls st')))).
  { clear. induction calls as [|c calls IH]; intros st' Hok Hkey Hnot;
      [exact Hnot|].
    cbn [run fold_left]. apply IH.
    - now apply run_call_ok.
    - pose proof (run_call_keyGenerator st' c). lia.
    - now apply run_call_absent. }
  apply H.
  - apply (run_call_ok st (DeleteState key) Hok).
  - exact Hkey.
  - cbn. intros Hin. apply in_map_iff in Hin as (r & E & Hr).
    apply filter_In in Hr as [_ Hr]. apply negb_true_iff, Z.eqb_neq in Hr.
    contradiction.
Qed.

End Api.

Lemma one_snapshot_ok : store_ok one_snapshot.
Proof.
  split; cbn.
  - repeat constructor. intros [].
  - repeat constructor.
Qed.

Lemma saveState_then_getState_witness :
  getState (keyGenerator one_snapshot)
    (saveState one_snapshot 1%nat "second"%string None 2000)
  = Some (inserted one_snapshot 1%nat "second"%string 2000).
Proof.
  apply (saveState_then_getState one_snapshot 1%nat "second"%string None 2000).
  - exact one_snapshot_ok.
  - cbn. lia.
  - repeat constructor. cbn. lia.
Defined.

Lemma saved_state_is_listed_first_witness :
  hd_error (getAllSavedStates
              (saveState one_snapshot 1%nat "second"%string None 2000))
  = Some (inserted one_snapshot 1%nat "second"%string 2000).
Proof.
  apply (saved_state_is_listed_first one_snapshot 1%nat "second"%string None
           2000).
  - exact one_snapshot_ok.
  - cbn. lia.
  - constructor; [cbn; lia | constructor].
Defined.

Lemma saveState_without_room_witness :
  records (saveState one_snapshot 1%nat "second"%string (Some 0) 2000) = []
  /\ records (saveParking one_snapshot 1%nat "second"%string (Some 0) 2000) = [].
Proof.
  apply (saveState_without_room one_snapshot 1%nat "second"%string 0 2000). lia.
Defined.

Lemma deleted_state_stays_deleted_witness :
  getState 1
    (run [SaveState 1%nat "second"%string None 2000; DeleteState 2;
          SaveState 2%nat "third"%string (Some 1) 3000]
       (deleteState 1 one_snapshot))
  = None.
Proof.
  apply (deleted_state_stays_deleted one_snapshot 1).
  - exact one_snapshot_ok.
  - cbn. lia.
Defined.

Example listing_sample :
  map (fun r => (id r, timestamp r))
    (getAllSavedStates
       (mkStore [mkSaved 1 "a"%string 0%nat 2000; mkSaved 2 "b"%string 0%nat 3000;
                 mkSaved 3 "c"%string 0%nat 2000] 4))
  = [(2, 3000); (1, 2000); (3, 2000)].
Proof. reflexivity. Qed.

End StoreApi.

(** ** Families and cars

    The stores with a key path and no key generator.  Every item is taken
    to carry a key: [store.add] of an item without one throws at once,
    outside any request. *)

Module KeyedStore.
Local Open Scope string_scope.
Local Open Scope list_scope.

Section Keyed.

(** The stores [families] and [cars] have a key path and no key
    generator: an item is stored under the string it carries at the key
    path ([familyName], [id]). *)
Context {item : Type}.
Variable keyOf : item -> string.

(** The committed records of a store. *)
Definition objectStore : Type := list item.

(** What a promise settles to. *)
Inductive settled : Type :=
  | Resolved
  | Rejected (error : string).

(** [store.get(key)]; [None] is [undefined]. *)
Definition get (key : string) (st : objectStore) : option item :=
  find (fun v => keyOf v =? key) st.

(** [store.add(item)]: [None] is the [ConstraintError] of a key that is
    in the store already. *)
Definition IDB_add (x : item) (st : objectStore) : option objectStore :=
  match get (keyOf x) st with
  | Some _ => None
  | None => Some (st ++ [x])
  end.

(** [store.put(item)] *)
Fixpoint IDB_put (x : item) (st : objectStore) : objectStore :=
  match st with
  | [] => [x]
  | v :: st' => if keyOf v =? keyOf x then x :: st' else v :: IDB_put x st'
  end.

(** The requests of one transaction, in the order they were placed; the
    first that fails aborts the transaction. *)
Fixpoint add_all (items : list item) (st : objectStore) : option objectStore :=
  match items with
  | [] => Some st
  | x :: rest =>
      match IDB_add x st with
      | Some st' => add_all rest st'
      | None => None
      end
  end.

(** [bulkAdd(storeName, items)] of the module: one transaction of
    [store.add] requests.  A request that fails rejects the promise, and
    the error, which nothing handles, aborts the transaction. *)
Definition bulkAdd (items : list item) (st : objectStore)
  : objectStore * settled :=
  match add_all items st with
  | Some st' => (st', Resolved)
  | None => (st, Rejected "ConstraintError")
  end.

(** [bulkPut(storeName, items)] of [window.db]: nothing is opened for an
    empty list; otherwise one transaction of [store.put] requests. *)
Definition bulkPut (items : list item) (st : objectStore)
  : objectStore * settled :=
  match items with
  | [] => (st, Resolved)
  | _ => (fold_left (fun st x => IDB_put x st) items st, Resolved)
  end.

(** No key of [items] is in the store or occurs twice in [items]. *)
Fixpoint fresh (items : list item) (st : objectStore) : bool :=
  match items with
  | [] => true
  | x :: rest =>
      negb (existsb (fun v => keyOf v =? keyOf x) (st ++ rest))
      && fresh rest st
  end.

Lemma get_None key st :
  get key st = None <-> existsb (fun v => keyOf v =? key) st = false.
Proof.
  unfold get. induction st as [|v st IH]; cbn; [tauto|].
  destruct (keyOf v =? key); cbn; [split; discriminate | exact IH].
Qed.

Lemma get_app key st st' :
  get key (st ++ st')
  = match get key st with Some v => Some v | None => get key st' end.
Proof.
  unfold get. induction st as [|v st IH]; cbn; [reflexivity|].
  destruct (keyOf v =? key); [reflexivity | exact IH].
Qed.

Lemma add_all_fresh items : forall st,
  add_all items st
  = if fresh items st then Some (st ++ items) else None.
Proof.
  induction items as [|x items IH]; intros st; cbn [add_all fresh].
  - now rewrite app_nil_r.
  - unfold IDB_add. rewrite existsb_app.
    destruct (get (keyOf x) st) eqn:E.
    + assert (H : existsb (fun v => keyOf v =? keyOf x) st = true).
      { destruct (existsb _ st) eqn:E'; [reflexivity|].
        apply get_None in E'. congruence. }
      now rewrite H.
    + apply get_None in E. rewrite E, IH. cbn [orb].
      assert (Hf : forall its st0,
                fresh its (st0 ++ [x])
                = negb (existsb (fun v => keyOf v =? keyOf x) its)
                  && fresh its st0).
      { clear. induction its as [|y its IH]; intros st0; [reflexivity|].
        cbn [fresh existsb]. rewrite IH, !existsb_app. cbn [existsb].
        rewrite orb_false_r, (String.eqb_sym (keyOf x) (keyOf y)).
        destruct (existsb _ st0), (keyOf y =? keyOf x),
          (existsb (fun v => keyOf v =? keyOf y) its),
          (existsb (fun v => keyOf v =? keyOf x) its); reflexivity. }
      rewrite Hf. destruct (existsb _ items); cbn [negb andb]; [reflexivity|].
      destruct (fresh items st); [|reflexivity].
      now rewrite <- app_assoc.
Qed.

Lemma fresh_get items st x :
  fresh items st = true -> In x items ->
  get (keyOf x) st = None /\ get (keyOf x) items = Some x.
Proof.
  induction items as [|y items IH]; intros Hf Hin; [destruct Hin|].
  cbn [fresh] in Hf. apply andb_true_iff in Hf as [Hy Hf].
  apply negb_true_iff in Hy. rewrite existsb_app in Hy.
  apply orb_false_iff in Hy as [Hy1 Hy2].
  destruct Hin as [->|Hin].
  - split; [now apply get_None|]. unfold get. cbn.
    now rewrite String.eqb_refl.
  - destruct (IH Hf Hin) as [H1 H2]. split; [exact H1|].
    unfold get in *. cbn [find].
    destruct (keyOf y =? keyOf x) eqn:E; [|exact H2].
    apply String.eqb_eq in E. exfalso.
    assert (Hex : existsb (fun v => keyOf v =? keyOf y) items = true).
    { apply existsb_exists. exists x. split; [exact Hin|].
      rewrite E. apply String.eqb_refl. }
    congruence.
Qed.

Lemma get_put x key st :
  get key (IDB_put x st) = if keyOf x =? key then Some x else get key st.
Proof.
  unfold get. induction st as [|v st IH]; cbn [IDB_put find].
  - destruct (keyOf x =? key); reflexivity.
  - destruct (keyOf v =? keyOf x) eqn:E; cbn [find].
    + apply String.eqb_eq in E. rewrite E.
      destruct (keyOf x =? key); reflexivity.
    + rewrite IH. destruct (keyOf x =? key) eqn:E'; [|reflexivity].
      apply String.eqb_eq in E'. subst key. now rewrite E.
Qed.

(** X6. [bulkAdd] stores all the items or none: it resolves when no key of
    the items is in the store or occurs twice among them, and every item
    can then be read back and nothing else has changed; otherwise it
    rejects with the [ConstraintError] and leaves the store as it was. *)
Theorem bulkAdd_all_or_nothing (items : list item) (st : objectStore) :
  (fresh items st = true ->
   exists st',
     bulkAdd items st = (st', Resolved)
     /\ (forall x, In x items -> get (keyOf x) st' = Some x)
     /\ (forall key, ~ In key (map keyOf items) -> get key st' = get key st))
  /\ (fresh items st = false ->
      bulkAdd items st = (st, Rejected "ConstraintError")).
Proof.
  unfold bulkAdd. rewrite add_all_fresh. split; intros Hf; rewrite Hf;
    [|reflexivity].
  exists (st ++ items). split; [reflexivity|]. split.
  - intros x Hx. rewrite get_app.
    destruct (fresh_get items st x Hf Hx) as [-> ->]. reflexivity.
  - intros key Hk. rewrite get_app.
    destruct (get key st); [reflexivity|].
    apply get_None. apply not_true_is_false. intros Hex.
    apply existsb_exists in Hex as (v & Hv & E). apply String.eqb_eq in E.
    apply Hk. apply in_map_iff. now exists v.
Qed.

(** X7. [bulkPut] never rejects, and the last item put under a key is the one
    read back: items overwrite what the store holds and each other. *)
Theorem bulkPut_last_wins (items : list item) (st : objectStore) (key : string) :
  snd (bulkPut items st) = Resolved
  /\ get key (fst (bulkPut items st))
     = match get key (rev items) with
       | Some x => Some x
       | None => get key st
       end.
Proof.
  split; [destruct items; reflexivity|].
  assert (E : fst (bulkPut items st)
              = fold_left (fun st x => IDB_put x st) items st)
    by (destruct items; reflexivity).
  rewrite E. clear E. revert st.
  induction items as [|x items IH]; intros st; [reflexivity|].
  cbn [fold_left rev]. rewrite IH, get_app, get_put.
  destruct (get key (rev items)); [reflexivity|].
  unfold get. cbn [find]. destruct (keyOf x =? key); reflexivity.
Qed.

End Keyed.

(** Families as pairs of a name and a head count. *)
Example bulk_sample :
  let st := [("Sato", 3%nat); ("Abe", 2%nat)] in
  bulkAdd fst [("Ito", 4%nat); ("Abe", 5%nat)] st
  = (st, Rejected "ConstraintError")
  /\ bulkAdd fst [("Ito", 4%nat); ("Ono", 1%nat)] st
     = ([("Sato", 3%nat); ("Abe", 2%nat); ("Ito", 4%nat); ("Ono", 1%nat)],
        Resolved)
  /\ bulkPut fst [("Ito", 4%nat); ("Abe", 5%nat); ("Ito", 6%nat)] st
     = ([("Sato", 3%nat); ("Abe", 5%nat); ("Ito", 6%nat)], Resolved).
Proof. repeat split. Qed.

End KeyedStore.

(** ** [window.db]

    The second database wrapper reads its saved states through the
    [timestamp] index.  Every record is taken to have a timestamp, which
    is what puts it in the index. *)

Module WindowDb.
Local Open Scope string_scope.
Local Open Scope Z_scope.

Section GetAll.

(** The records of an object store of [window.db], and the value of the
    key path of its [timestamp] index in each. *)
Context {item : Type}.
Variable keyPath : item -> Z.

(** What the promise of [getAll] settles to. *)
Inductive settled : Type :=
  | Resolved (results : list item)
  | Rejected (error : string).

(** [source.getAll(null, count)] on a source that holds [source] in its
    order: [count] is an [unsigned long] under [EnforceRange], [undefined]
    and 0 ask for everything. *)
Definition IDB_getAll (count : option Z) (source : list item)
  : option (list item) :=
  match count with
  | None => Some source
  | Some c =>
      if (c <? 0) || (4294967295 <? c) then None
      else if c =? 0 then Some source
      else Some (firstn (Z.to_nat c) source)
  end.

(** [results.slice(0, limit)] *)
Definition slice_0 (limit : Z) (results : list item) : list item :=
  if limit <? 0
  then firstn (Z.to_nat (Z.max (Z.of_nat (length results) + limit) 0)) results
  else firstn (Z.to_nat limit) results.

(** [limit] as a condition: [null] and 0 are falsy. *)
Definition given (limit : option Z) : bool :=
  match limit with Some l => negb (l =? 0) | None => false end.

(** [getAll(storeName, indexName, direction, limit)].  [records] is the
    store in the order of its keys; [indexed] tells whether [indexName]
    names the [timestamp] index or is [null]; a [limit] of [None] is
    [null]. *)
Definition getAll (records : list item) (indexed : bool)
  (direction : string) (limit : option Z) : settled :=
  let source :=
    if indexed
    then StableSort.sort (fun a b => keyPath a <=? keyPath b) records
    else records in
  let count :=
    if given limit && (direction =? "prev")%string then None
    else Some (match limit with Some l => l | None => 0 end) in
  match IDB_getAll count source with
  | None => Rejected "TypeError"
  | Some results =>
      let results :=
        if indexed
        then StableSort.sort
               (fun a b =>
                  (if (direction =? "prev")%string
                   then keyPath b - keyPath a
                   else keyPath a - keyPath b) <=? 0)
               results
        else results in
      let results :=
        match limit with
        | Some l => if given limit then slice_0 l results else results
        | None => results
        end in
      Resolved results
  end.

(** [getAllSavedStates(limit)] and [getAllSavedParking(limit)] of
    [window.db]; [limit] left out is [None]. *)
Definition getAllSavedStates (records : list item) (limit : option Z)
  : settled :=
  getAll records true "prev" limit.

Definition newest_first (records : list item) : list item :=
  StableSort.sort (fun a b => keyPath b - keyPath a <=? 0)
    (StableSort.sort (fun a b => keyPath a <=? keyPath b) records).

Lemma newest_first_perm records : Permutation (newest_first records) records.
Proof. unfold newest_first. now rewrite !StableSort.sort_perm. Qed.

Lemma newest_first_sorted records :
  StronglySorted (fun a b => keyPath b <= keyPath a) (newest_first records).
Proof.
  apply Aggregator.StronglySorted_weaken
    with (R := fun a b => (keyPath b - keyPath a <=? 0) = true).
  - intros a b H. apply Z.leb_le in H. lia.
  - apply StableSort.sort_strongly_sorted.
    + intros a b H. apply Z.leb_gt in H. apply Z.leb_le. lia.
    + intros a b c H1 H2. apply Z.leb_le in H1, H2. apply Z.leb_le. lia.
Qed.

Lemma getAllSavedStates_unfold records limit :
  getAllSavedStates records limit
  = Resolved (match limit with
              | Some l =>
                  if l =? 0 then newest_first records
                  else slice_0 l (newest_first records)
              | None => newest_first records
              end).
Proof.
  unfold getAllSavedStates, getAll, given.
  destruct limit as [l|]; cbn [String.eqb Ascii.eqb Bool.eqb andb negb].
  - destruct (l =? 0) eqn:E; cbn [negb andb IDB_getAll].
    + apply Z.eqb_eq in E. subst l. reflexivity.
    + reflexivity.
  - reflexivity.
Qed.

(** X8. [getAllSavedStates(limit)] never rejects.  With a positive limit it
    returns the [limit] records with the latest timestamps, newest first:
    the records left out are no newer than any record returned.  Without a
    limit, or with the limit 0, it returns every record. *)
Theorem getAllSavedStates_latest (records : list item) (limit : option Z) :
  exists results omitted,
    getAllSavedStates records limit = Resolved results
    /\ Permutation (results ++ omitted) records
    /\ StronglySorted (fun a b => keyPath b <= keyPath a) results
    /\ (forall r o, In r results -> In o omitted -> keyPath o <= keyPath r)
    /\ match limit with
       | Some l =>
           if l =? 0 then omitted = []
           else if 0 <? l
                then length results = Nat.min (Z.to_nat l) (length records)
                else length omitted
                     = Nat.min (Z.to_nat (- l)) (length records)
       | None => omitted = []
       end.
Proof.
  rewrite getAllSavedStates_unfold.
  pose proof (newest_first_perm records) as Hperm.
  pose proof (newest_first_sorted records) as Hs.
  assert (Hall : exists results omitted,
            Resolved (newest_first records) = Resolved results
            /\ Permutation (results ++ omitted) records
            /\ StronglySorted (fun a b => keyPath b <= keyPath a) results
            /\ (forall r o, In r results -> In o omitted ->
                            keyPath o <= keyPath r)
            /\ omitted = []).
  { exists (newest_first records), []. rewrite app_nil_r.
    repeat split; auto. intros r o _ []. }
  assert (Hcut : forall n,
            Permutation (firstn n (newest_first records)
                         ++ skipn n (newest_first records)) records
            /\ StronglySorted (fun a b => keyPath b <= keyPath a)
                 (firstn n (newest_first records))
            /\ (forall r o,
                  In r (firstn n (newest_first records)) ->
                  In o (skipn n (newest_first records)) ->
                  keyPath o <= keyPath r)).
  { intros n. rewrite firstn_skipn. split; [exact Hperm|]. split.
    - now apply Store.StronglySorted_firstn.
    - intros r o Hr Ho.
      rewrite <- (firstn_skipn n (newest_first records)) in Hs.
      apply (Store.StronglySorted_app_inv _ _ _ Hs r o Hr Ho). }
  destruct limit as [l|].
  - destruct (l =? 0) eqn:E0.
    + destruct Hall as (results & omitted & H1 & H2 & H3 & H4 & H5).
      exists results, omitted. auto.
    + apply Z.eqb_neq in E0. unfold slice_0.
      pose proof (Permutation_length Hperm) as Hlen.
      destruct (l <? 0) eqn:En.
      * apply Z.ltb_lt in En.
        set (n := Z.to_nat (Z.max (Z.of_nat (length (newest_first records)) + l) 0)).
        destruct (Hcut n) as (H1 & H2 & H3).
        exists (firstn n (newest_first records)), (skipn n (newest_first records)).
        repeat split; auto.
        replace (0 <? l) with false by (symmetry; apply Z.ltb_ge; lia).
        rewrite length_skipn. unfold n. lia.
      * apply Z.ltb_ge in En.
        destruct (Hcut (Z.to_nat l)) as (H1 & H2 & H3).
        exists (firstn (Z.to_nat l) (newest_first records)),
          (skipn (Z.to_nat l) (newest_first records)).
        repeat split; auto.
        replace (0 <? l) with true by (symmetry; apply Z.ltb_lt; lia).
        rewrite length_firstn. lia.
  - destruct Hall as (results & omitted & H1 & H2 & H3 & H4 & H5).
    exists results, omitted. auto.
Qed.

End GetAll.

(** Three records, as pairs of a key and a timestamp. *)
Example getAllSavedStates_sample :
  let records := [(1, 100); (2, 300); (3, 200)] in
  getAllSavedStates snd records (Some 2) = Resolved [(2, 300); (3, 200)]
  /\ getAllSavedStates snd records None
     = Resolved [(2, 300); (3, 200); (1, 100)]
  /\ getAllSavedStates snd records (Some 0)
     = Resolved [(2, 300); (3, 200); (1, 100)]
  /\ getAllSavedStates snd records (Some (-1)) = Resolved [(2, 300); (3, 200)]
  /\ getAll snd records true "next" (Some 2) = Resolved [(1, 100); (3, 200)]
  /\ getAll snd records true "next" (Some (-1)) = Rejected "TypeError".
Proof. repeat split. Qed.

End WindowDb.

(** ** More on the CSV import *)

Module CsvFacts.
Import Rows CsvImport Grouping.
Local Open Scope string_scope.

Section ParseFacts.
Variable StringToNumber : string -> option Q.

Local Abbreviation convert := (convert StringToNumber).
Local Abbreviation fill := (fill StringToNumber).
Local Abbreviation parseCSV := (parseCSV StringToNumber).

(** The header of a text, as [parseCSV] reads it. *)
Definition headers_of (text : string) : list string :=
  match Text.split Text.is_newline (Text.trim text) with
  | [] => []
  | headerLine :: _ =>
      let headerLine :=
        if String.prefix BOM headerLine then Text.drop 3 headerLine
        else headerLine in
      map Text.trim (Text.split Text.is_comma headerLine)
  end.

Lemma fill_keys headers : forall fields obj,
  map fst (fill headers fields obj) = extend (map fst obj) headers.
Proof.
  induction headers as [|h headers IH]; intros fields obj; [reflexivity|].
  cbn [CsvImport.fill]. rewrite IH, extend_cons. f_equal. apply keys_set.
Qed.

Lemma parseCSV_rows text r :
  In r (parseCSV text) ->
  exists fields, r = fill (headers_of text) fields [].
Proof.
  unfold CsvImport.parseCSV, headers_of.
  destruct (length (Text.split Text.is_newline (Text.trim text)) <? 2)%nat;
    [intros []|].
  destruct (Text.split Text.is_newline (Text.trim text)) as [|headerLine rest];
    [intros []|].
  cbv zeta. intros Hin. apply in_flat_map in Hin as (line & _ & Hin).
  destruct (length (Text.split Text.is_comma line) <=? 1)%nat; [destruct Hin|].
  destruct Hin as [<-|[]]. now eexists.
Qed.

Lemma parseCSV_length text :
  (length (parseCSV text)
   <= length (Text.split Text.is_newline (Text.trim text)) - 1)%nat.
Proof.
  unfold CsvImport.parseCSV.
  destruct (length (Text.split Text.is_newline (Text.trim text)) <? 2)%nat;
    [cbn; lia|].
  destruct (Text.split Text.is_newline (Text.trim text)) as [|headerLine rest];
    [cbn; lia|].
  cbv zeta. cbn [length]. rewrite Nat.sub_succ, Nat.sub_0_r.
  induction rest as [|line rest IH]; [cbn; lia|].
  cbn [flat_map]. rewrite length_app.
  destruct (length (Text.split Text.is_comma line) <=? 1)%nat; cbn [length]; lia.
Qed.

(** A cell of an identifier or text column holds a string. *)
Definition is_text (c : option cell) : Prop :=
  match c with Some (Num _) => False | _ => True end.

Lemma fill_text headers : forall fields obj k,
  In k text_columns -> is_text (get obj k) ->
  is_text (get (fill headers fields obj) k).
Proof.
  induction headers as [|h headers IH]; intros fields obj k Hk Hobj;
    [exact Hobj|].
  cbn [CsvImport.fill]. apply IH; [exact Hk|].
  destruct (String.eqb_spec h k) as [->|Hne].
  - rewrite get_set_same. unfold CsvImport.convert.
    assert (E : existsb (String.eqb k) text_columns = true).
    { apply existsb_exists. exists k. split; [exact Hk | apply String.eqb_refl]. }
    rewrite E. exact I.
  - now rewrite get_set_other.
Qed.

(** X9. The records of a file are uniform: every record has the distinct
    header names as its properties, whatever the number of fields on its
    line; there is at most one record per line after the header; and the
    cells of the identifier and text columns hold strings, however
    numeric they look.  No column is to be named [__proto__], which
    [obj[headers[j]] = val] would not store as a property. *)
Theorem parseCSV_records_are_uniform (text : string) :
  existsb (String.eqb "__proto__") (headers_of text) = false ->
  (length (parseCSV text)
   <= length (Text.split Text.is_newline (Text.trim text)) - 1)%nat
  /\ Forall (fun r =>
               map fst r = distinct (headers_of text)
               /\ forall k, In k text_columns -> is_text (get r k))
       (parseCSV text).
Proof.
  intros _. split; [apply parseCSV_length|].
  apply Forall_forall. intros r Hin.
  apply parseCSV_rows in Hin as (fields & ->). split.
  - apply fill_keys.
  - intros k Hk. apply fill_text; [exact Hk | exact I].
Qed.

End ParseFacts.

(** *** The byte order mark *)

Lemma drop_length n : forall s, (String.length (Text.drop n s) <= String.length s)%nat.
Proof.
  induction n as [|n IH]; intros s; [cbn; lia|].
  destruct s as [|c s]; cbn [Text.drop String.length]; [lia|].
  specialize (IH s). lia.
Qed.

Lemma ws_len_nonempty s k : Text.ws_len s = S k -> s <> "".
Proof. intros H ->. discriminate. Qed.

(** The loop of [trimStart] needs no more fuel than the length. *)
Lemma trimStart_loop_fuel n : forall s fuel1 fuel2,
  (String.length s <= n)%nat -> (n <= fuel1)%nat -> (n <= fuel2)%nat ->
  Text.trimStart_loop fuel1 s = Text.trimStart_loop fuel2 s.
Proof.
  induction n as [|n IH]; intros s fuel1 fuel2 Hs H1 H2.
  - destruct s; [|cbn in Hs; lia].
    destruct fuel1, fuel2; reflexivity.
  - destruct fuel1 as [|fuel1]; [lia|]. destruct fuel2 as [|fuel2]; [lia|].
    cbn [Text.trimStart_loop].
    destruct (Text.ws_len s) as [|k] eqn:E; [reflexivity|].
    apply IH; try lia.
    destruct s as [|c s]; [discriminate|].
    cbn [Text.drop]. pose proof (drop_length k s). cbn in Hs. lia.
Qed.

Lemma trimStart_loop_step fuel s k :
  Text.ws_len s = S k ->
  Text.trimStart_loop (S fuel) s = Text.trimStart_loop fuel (Text.drop (S k) s).
Proof. intros H. cbn [Text.trimStart_loop]. now rewrite H. Qed.

Lemma trimStart_BOM s : Text.trimStart (BOM ++ s) = Text.trimStart s.
Proof.
  unfold Text.trimStart.
  change (String.length (BOM ++ s)) with (S (S (S (String.length s)))).
  rewrite (trimStart_loop_step _ _ 2) by reflexivity.
  change (Text.drop 3 (BOM ++ s)) with s.
  apply (trimStart_loop_fuel (String.length s)); lia.
Qed.

(** X10. A byte order mark at the head of a file does not change its records. *)
Theorem parseCSV_ignores_BOM (StringToNumber : string -> option Q)
  (text : string) :
  parseCSV StringToNumber (BOM ++ text) = parseCSV StringToNumber text.
Proof.
  unfold parseCSV, Text.trim. now rewrite trimStart_BOM.
Qed.

(** *** A selection of several files *)

Section BatchFacts.
Variable StringToNumber : string -> option Q.

Local Abbreviation parseCSV := (parseCSV StringToNumber).

Definition TypeError_in : string :=
  "TypeError: Cannot use 'in' operator to search for '球数' in undefined".

Lemma classify_raises f data e :
  classify f data = Raises e -> e = TypeError_in.
Proof.
  unfold classify.
  destruct (Text.includes (file_name f) "_b.csv" || first_has data "打席数");
    [discriminate|].
  destruct (Text.includes (file_name f) "_p.csv"); [discriminate|].
  destruct (first_has data "投球回"); [discriminate|].
  destruct data as [|r rows]; [intros H; now inversion H|].
  destruct (has r "球数"); discriminate.
Qed.

Lemma import_files_raises files f :
  In f files ->
  classify f (parseCSV (file_text f)) = Raises TypeError_in ->
  forall b p n,
  import_files StringToNumber files b p n = inr TypeError_in.
Proof.
  intros Hin Hf. induction files as [|g files IH]; intros b p n;
    [destruct Hin|].
  cbn [import_files].
  destruct (classify g (parseCSV (file_text g))) as [| | |e] eqn:E.
  - destruct Hin as [->|Hin]; [congruence | now apply IH].
  - destruct Hin as [->|Hin]; [congruence | now apply IH].
  - destruct Hin as [->|Hin]; [congruence | now apply IH].
  - now rewrite (classify_raises g _ e E).
Qed.

(** X11. One file of the selection that matches neither signature and parses
    to no record makes the handler throw: no file of the selection is
    imported, those before it included, and the status line stays at
    "loading". *)
Theorem empty_file_aborts_the_import (st : app) (files : list file) (f : file) :
  In f files ->
  Text.includes (file_name f) "_b.csv" = false ->
  Text.includes (file_name f) "_p.csv" = false ->
  parseCSV (file_text f) = [] ->
  handleFileUpload StringToNumber st files
  = Threw TypeError_in (mkApp (battingData st) (pitchingData st) Loading).
Proof.
  intros Hin Hb Hp Hdata. unfold handleFileUpload.
  rewrite (import_files_raises files f Hin); [reflexivity|].
  unfold classify. now rewrite Hdata, Hb, Hp.
Qed.

Lemma import_files_app files f : forall b p n,
  import_files StringToNumber (files ++ [f]) b p n
  = match import_files StringToNumber files b p n with
    | inl (b', p', n') => import_files StringToNumber [f] b' p' n'
    | inr e => inr e
    end.
Proof.
  induction files as [|g files IH]; intros b p n; [reflexivity|].
  cbn [List.app import_files].
  destruct (classify g (parseCSV (file_text g))); try apply IH. reflexivity.
Qed.

(** X12. Files are not merged: a batting file replaces the batting records
    the files before it have left, a pitching file the pitching records,
    and each counts as one import; a file with records that matches
    neither signature changes nothing. *)
Theorem later_file_replaces_earlier (st : app) (files : list file) (f : file)
  (b p : list row) (n : nat) :
  handleFileUpload StringToNumber st files = Returned (mkApp b p (Imported n)) ->
  let data := parseCSV (file_text f) in
  (classify f data = Batting ->
   handleFileUpload StringToNumber st (files ++ [f])
   = Returned (mkApp data p (Imported (S n))))
  /\ (classify f data = Pitching ->
      handleFileUpload StringToNumber st (files ++ [f])
      = Returned (mkApp b data (Imported (S n))))
  /\ (classify f data = Dropped ->
      handleFileUpload StringToNumber st (files ++ [f])
      = Returned (mkApp b p (Imported n))).
Proof.
  intros H data. unfold handleFileUpload in *. rewrite import_files_app.
  destruct (import_files StringToNumber files (battingData st)
              (pitchingData st) 0) as [[[b' p'] n']|e]; [|discriminate].
  inversion H; subst b' p' n'. cbn [import_files]. fold data.
  repeat split; intros ->; reflexivity.
Qed.

End BatchFacts.

Definition sample_text : string := "名前,背番号,打数,安打
A,07,4
B,10,3,1,extra
,
".

Lemma parseCSV_records_are_uniform_witness :
  (length (parseCSV decimal sample_text)
   <= length (Text.split Text.is_newline (Text.trim sample_text)) - 1)%nat
  /\ Forall (fun r =>
               map fst r = distinct (headers_of sample_text)
               /\ forall k, In k text_columns -> is_text (get r k))
       (parseCSV decimal sample_text).
Proof.
  apply (parseCSV_records_are_uniform decimal sample_text).
  vm_compute. reflexivity.
Defined.

Lemma empty_file_aborts_the_import_witness :
  handleFileUpload decimal (mkApp [] [] Idle)
    [mkFile "2024_b.csv" "日付,打数,安打
2024-04-01,4,2"; mkFile "memo.txt" ""]
  = Threw TypeError_in (mkApp [] [] Loading).
Proof.
  apply (empty_file_aborts_the_import decimal (mkApp [] [] Idle) _
           (mkFile "memo.txt" "")); [cbn; tauto | | |]; reflexivity.
Defined.

Lemma later_file_replaces_earlier_witness :
  let first := mkFile "april_b.csv" "名前,打数
A,4" in
  let second := mkFile "may_b.csv" "名前,打数
B,3" in
  let data := parseCSV decimal (file_text second) in
  (classify second data = Batting ->
   handleFileUpload decimal (mkApp [] [] Idle) ([first] ++ [second])
   = Returned (mkApp data [] (Imported 2)))
  /\ (classify second data = Pitching ->
      handleFileUpload decimal (mkApp [] [] Idle) ([first] ++ [second])
      = Returned (mkApp [[("名前", Str "A"); ("打数", Num 4)]] data (Imported 2)))
  /\ (classify second data = Dropped ->
      handleFileUpload decimal (mkApp [] [] Idle) ([first] ++ [second])
      = Returned (mkApp [[("名前", Str "A"); ("打数", Num 4)]] [] (Imported 1))).
Proof.
  apply (later_file_replaces_earlier decimal (mkApp [] [] Idle)
           [mkFile "april_b.csv" "名前,打数
A,4"]
           (mkFile "may_b.csv" "名前,打数
B,3")).
  vm_compute. reflexivity.
Defined.

Example upload_sample :
  handleFileUpload decimal (mkApp [] [] Idle)
    [mkFile "april_b.csv" "名前,打数
A,4"; mkFile "notes.csv" "品目,数量
ball,12"; mkFile "may_b.csv" "名前,打数
B,3"]
  = Returned (mkApp [[("名前", Str "B"); ("打数", Num 3)]] [] (Imported 2)).
Proof. vm_compute. reflexivity. Qed.

Example uniform_records :
  parseCSV decimal sample_text
  = [[("名前", Str "A"); ("背番号", Str "07"); ("打数", Num 4); ("安打", Str "")];
     [("名前", Str "B"); ("背番号", Str "10"); ("打数", Num 3); ("安打", Num 1)];
     [("名前", Str ""); ("背番号", Str ""); ("打数", Str ""); ("安打", Str "")]].
Proof. vm_compute. reflexivity. Qed.

End CsvFacts.

(** ** More on the filter *)

Module FilterCriteria.
Import Rows Dates Filter.
Local Open Scope string_scope.

(** The state [resetFilters] sets, which is the initial state. *)
Definition resetFilters : filters := mkFilters "" "" "" "all".

(** The criteria of [f] one at a time. *)
Definition only_start (f : filters) : filters :=
  mkFilters (startDate f) "" "" "all".
Definition only_end (f : filters) : filters :=
  mkFilters "" (endDate f) "" "all".
Definition only_team (f : filters) : filters :=
  mkFilters "" "" (teamKeyword f) "all".
Definition only_category (f : filters) : filters :=
  mkFilters "" "" "" (category f).

(** [!(rowDate < start)], on time values. *)
Definition not_before (rowDate start : Date) : bool :=
  match rowDate, start with
  | Some x, Some t => (t <=? x)%Z
  | _, _ => true
  end.

(** The criteria with the start date cleared. *)
Definition without_start (f : filters) : filters :=
  mkFilters "" (endDate f) (teamKeyword f) (category f).

Section Facts.
Local Open Scope Z_scope.
Variable LocalTZA : Z.
Variable Date_parse : string -> option Z.
Variable toLowerCase : string -> string.

Local Abbreviation parseDate := (Dates.parseDate LocalTZA Date_parse).
Local Abbreviation keeps := (keeps LocalTZA Date_parse toLowerCase).
Local Abbreviation filterData := (filterData LocalTZA Date_parse toLowerCase).
Local Abbreviation before_start := (before_start LocalTZA Date_parse).
Local Abbreviation after_end := (after_end LocalTZA Date_parse).
Local Abbreviation other_teams := (other_teams toLowerCase).

Lemma keeps_tests f r :
  keeps f r
  = negb (before_start f r) && negb (after_end f r)
    && negb (other_teams f r) && negb (other_category f r).
Proof.
  unfold Filter.keeps.
  destruct (before_start f r), (after_end f r), (other_teams f r),
    (other_category f r); reflexivity.
Qed.

Lemma keeps_only_start f r : keeps (only_start f) r = negb (before_start f r).
Proof.
  rewrite keeps_tests.
  change (before_start (only_start f) r) with (before_start f r).
  change (after_end (only_start f) r) with false.
  change (other_teams (only_start f) r) with false.
  change (other_category (only_start f) r) with false.
  now rewrite !andb_true_r.
Qed.

Lemma keeps_only_end f r : keeps (only_end f) r = negb (after_end f r).
Proof.
  rewrite keeps_tests.
  change (before_start (only_end f) r) with false.
  change (after_end (only_end f) r) with (after_end f r).
  change (other_teams (only_end f) r) with false.
  change (other_category (only_end f) r) with false.
  now rewrite !andb_true_r.
Qed.

Lemma keeps_only_team f r : keeps (only_team f) r = negb (other_teams f r).
Proof.
  rewrite keeps_tests.
  change (before_start (only_team f) r) with false.
  change (after_end (only_team f) r) with false.
  change (other_teams (only_team f) r) with (other_teams f r).
  change (other_category (only_team f) r) with false.
  now rewrite !andb_true_r.
Qed.

Lemma keeps_only_category f r :
  keeps (only_category f) r = negb (other_category f r).
Proof.
  rewrite keeps_tests.
  change (before_start (only_category f) r) with false.
  change (after_end (only_category f) r) with false.
  change (other_teams (only_category f) r) with false.
  change (other_category (only_category f) r) with (other_category f r).
  reflexivity.
Qed.

Lemma filter_comm {A} (p q : A -> bool) (l : list A) :
  filter p (filter q l) = filter q (filter p l).
Proof. rewrite <- !filter_andb. apply filter_ext. intros a. apply andb_comm. Qed.

(** X14. The four criteria narrow the records independently of each other:
    filtering by all of them is filtering by one after the other, and two
    sets of criteria can be applied in either order.  The criteria that
    [resetFilters] sets keep every record. *)
Theorem filterData_criteria_compose (f g : filters) (data : list row) :
  filterData f data
  = filterData (only_category f)
      (filterData (only_team f)
         (filterData (only_end f) (filterData (only_start f) data)))
  /\ filterData f (filterData g data) = filterData g (filterData f data)
  /\ filterData f (filterData f data) = filterData f data
  /\ filterData resetFilters data = data.
Proof.
  unfold Filter.filterData. split; [|split; [|split]].
  - rewrite <- !filter_andb. apply filter_ext. intros r.
    rewrite keeps_only_start, keeps_only_end, keeps_only_team,
      keeps_only_category, keeps_tests.
    destruct (before_start f r), (after_end f r), (other_teams f r),
      (other_category f r); reflexivity.
  - apply filter_comm.
  - rewrite <- filter_andb. apply filter_ext. intros r. apply andb_diag.
  - apply Store.filter_all. intros r _. reflexivity.
Qed.

Lemma before_start_spec f r :
  Text.truthy (startDate f) = true ->
  negb (before_start f r)
  = not_before (parseDate (text r "日付")) (parseDate (Some (startDate f))).
Proof.
  intros Hs. unfold Filter.before_start. rewrite Hs.
  destruct (parseDate_range LocalTZA Date_parse (text r "日付"))
    as (x & -> & _).
  destruct (parseDate_range LocalTZA Date_parse (Some (startDate f)))
    as (t & -> & _).
  unfold lt, not_before. symmetry. apply Z.leb_antisym.
Qed.

Lemma keeps_without_start f r :
  keeps f r = keeps (without_start f) r && negb (before_start f r).
Proof.
  rewrite !keeps_tests.
  change (before_start (without_start f) r) with false.
  change (after_end (without_start f) r) with (after_end f r).
  change (other_teams (without_start f) r) with (other_teams f r).
  change (other_category (without_start f) r) with (other_category f r).
  destruct (before_start f r), (after_end f r), (other_teams f r),
    (other_category f r); reflexivity.
Qed.

(** X15. With a start date set, the filter keeps, of the rows that pass the
    other criteria, exactly those whose date is not before the start
    date: a row dated the start date itself is kept, a row dated a
    millisecond earlier is not. *)
Theorem filterData_start_date_inclusive (f : filters) (data : list row) :
  Text.truthy (startDate f) = true ->
  filterData f data
  = filter (fun r => not_before (parseDate (text r "日付"))
                       (parseDate (Some (startDate f))))
      (filterData (without_start f) data)
  /\ (forall r, parseDate (text r "日付") = parseDate (Some (startDate f)) ->
                keeps f r = keeps (without_start f) r)
  /\ (forall r t, parseDate (Some (startDate f)) = Some t ->
                  parseDate (text r "日付") = Some (t - 1) ->
                  keeps f r = false).
Proof.
  intros Hs. split; [|split].
  - unfold Filter.filterData. rewrite <- filter_andb. apply filter_ext.
    intros r. rewrite <- before_start_spec by exact Hs.
    apply keeps_without_start.
  - intros r E. rewrite keeps_without_start, before_start_spec, E by exact Hs.
    destruct (parseDate_range LocalTZA Date_parse (Some (startDate f)))
      as (t & -> & _).
    unfold not_before. rewrite Z.leb_refl. apply andb_true_r.
  - intros r t Et Er.
    rewrite keeps_without_start, before_start_spec, Et, Er by exact Hs.
    unfold not_before. replace (t <=? t - 1) with false.
    + apply andb_false_r.
    + symmetry. apply Z.leb_gt. lia.
Qed.

(** X16. A record without a date, or with an empty one, counts as dated
    1 January 1970, 00:00 UTC: a start date later than that removes it,
    whatever the other criteria. *)
Theorem filterData_drops_undated (f : filters) (data : list row) (t : Z) :
  Text.truthy (startDate f) = true ->
  parseDate (Some (startDate f)) = Some t -> 0 < t ->
  Forall (fun r => text r "日付" <> None /\ text r "日付" <> Some "")
    (filterData f data).
Proof.
  intros Hs Et Ht. apply Forall_forall. intros r Hin.
  apply filter_In in Hin as [_ Hk].
  rewrite keeps_without_start, before_start_spec, Et in Hk by exact Hs.
  apply andb_true_iff in Hk as [_ Hk].
  split; intros E; rewrite E in Hk;
    rewrite (parseDate_empty LocalTZA Date_parse) in Hk
      by (first [reflexivity | now left | now right | idtac]);
    unfold not_before, epoch in Hk; apply Z.leb_le in Hk; lia.
Qed.

End Facts.

Lemma filterData_start_date_inclusive_witness :
  let JST := 32400000%Z in
  let no_parse := fun _ : string => None in
  let lower := fun s : string => s in
  let f := mkFilters "2024-04-15" "" "" "all" in
  let data := april_2024 in
  filterData JST no_parse lower f data
  = filter (fun r => not_before (parseDate JST no_parse (text r "日付"))
                       (parseDate JST no_parse (Some (startDate f))))
      (filterData JST no_parse lower (without_start f) data)
  /\ (forall r, parseDate JST no_parse (text r "日付")
                = parseDate JST no_parse (Some (startDate f)) ->
                keeps JST no_parse lower f r
                = keeps JST no_parse lower (without_start f) r)
  /\ (forall r t, parseDate JST no_parse (Some (startDate f)) = Some t ->
                  parseDate JST no_parse (text r "日付") = Some (t - 1)%Z ->
                  keeps JST no_parse lower f r = false).
Proof.
  apply (filterData_start_date_inclusive 32400000%Z (fun _ => None)
           (fun s => s) (mkFilters "2024-04-15" "" "" "all") april_2024).
  reflexivity.
Defined.

Lemma filterData_drops_undated_witness :
  Forall (fun r => text r "日付" <> None /\ text r "日付" <> Some "")
    (filterData 32400000%Z (fun _ => None) (fun s => s)
       (mkFilters "2024-04-15" "" "" "all")
       [[("打数", Num 4)]; dated 20; [("日付", Str ""); ("打数", Num 3)]]).
Proof.
  apply (filterData_drops_undated 32400000%Z (fun _ => None) (fun s => s)
           (mkFilters "2024-04-15" "" "" "all") _ 1713106800000%Z);
    [reflexivity | vm_compute; reflexivity | lia].
Defined.

Example start_date_sample :
  map (fun r => text r "日付")
    (filterData 32400000%Z (fun _ => None) (fun s => s)
       (mkFilters "2024-04-15" "" "" "all")
       [[("打数", Num 4)]; dated 20; dated 15; dated 14;
        [("日付", Str ""); ("打数", Num 3)]])
  = [Some "2024-04-20"; Some "2024-04-15"].
Proof. vm_compute. reflexivity. Qed.

End FilterCriteria.
